(** * The game harness: action plans, their execution, retries, episodes,
      token accounting and the message archive

    A shallow embedding of the Python harness that lets a vision-language
    model play a browser game:

    - [utils/parsing_utils.py]: [KEY_MAPPING] and [parse_actions];
    - [run_llm_eval.py]: the segment loop of [run_one_game],
      [execute_action_playwright], [execute_hold_actions_playwright] and the
      end-of-game block;
    - [utils/game_utils.py]: [execute_action] and [execute_action_segment];
    - [llm_interface/api/google_interface.py]: [_is_quota_limit_error] and
      [_generate_content_with_retry];
    - [llm_interface/api/anthropic_interface.py] with
      [utils/llm_interface_utils/token_counting.py]: the token usage of
      [generate] and [estimate_tokens];
    - [utils/gameplay_utils.py]: [append_history_entry],
      [extract_summary_text] and [extract_scratchpad_text];
    - [run_llm_eval.py], further: [parse_model_string],
      [parse_game_name_from_url], the names of a run's folder,
      [REVERSE_KEY_MAPPING] and [actions_to_names], the controls text and the
      scratchpad of the prompt, and the bookkeeping of the game loop;
    - [utils/llm_interface_utils/model_utils.py] and [config_utils.py]:
      [MODEL_INFO] with the functions that read it, and [get_model_defaults];
    - [llm_interface/api/anthropic_interface.py], further:
      [_process_message_content] and the parameters of the request.

    Text is a [string]: a sequence of characters with code points below 256.
    Upper- and lower-casing act on the ASCII letters in [Py], and [Str.lower]
    is [str.lower] on all of these characters.  The text that [json.loads]
    decodes can hold any code point, written as an escape: it is a
    [Unicode.str].  Integers are [Z], times are whole milliseconds. *)

From Stdlib Require Import ZArith Ascii String List Bool Lia DecimalString.
From stdpp Require Import base option list strings gmap.

Local Open Scope Z_scope.

(** ** Python strings *)

Module Py.

(** The double quote character, code 34. *)
Definition dquote : ascii := "034"%char.

Definition code (c : ascii) : N := N_of_ascii c.

(** [len(s)] *)
Abbreviation len := String.length.

(** [s.startswith(p)], returning what follows the prefix. *)
Fixpoint strip_prefix (p s : string) : option string :=
  match p, s with
  | EmptyString, _ => Some s
  | String a p', String b s' => if Ascii.eqb a b then strip_prefix p' s' else None
  | String _ _, EmptyString => None
  end.

(** The text before and after the leftmost occurrence of [pat] in [s]. *)
Fixpoint partition (pat s : string) : option (string * string) :=
  match strip_prefix pat s with
  | Some rest => Some (EmptyString, rest)
  | None =>
      match s with
      | EmptyString => None
      | String c s' =>
          match partition pat s' with
          | Some (before, rest) => Some (String c before, rest)
          | None => None
          end
      end
  end.

(** [pat in s] on strings. *)
Definition contains (pat s : string) : bool :=
  match partition pat s with Some _ => true | None => false end.

(** [str.isspace] on one character of the model's range: TAB..CR, FS..US,
    space, NEL and the no-break space. *)
Definition is_space (c : ascii) : bool :=
  let n := code c in
  ((9 <=? n) && (n <=? 13) || (28 <=? n) && (n <=? 32) || (n =? 133) || (n =? 160))%N.

Fixpoint lstrip (s : string) : string :=
  match s with
  | String c s' => if is_space c then lstrip s' else s
  | EmptyString => EmptyString
  end.

Fixpoint rstrip (s : string) : string :=
  match s with
  | String c s' =>
      match rstrip s' with
      | EmptyString => if is_space c then EmptyString else String c EmptyString
      | r => String c r
      end
  | EmptyString => EmptyString
  end.

(** [s.strip()] *)
Definition strip (s : string) : string := rstrip (lstrip s).

Fixpoint map_chars (f : ascii -> ascii) (s : string) : string :=
  match s with
  | String c s' => String (f c) (map_chars f s')
  | EmptyString => EmptyString
  end.

(** [s.replace(a, b)] for one-character [a] and [b]. *)
Definition replace_char (a b : ascii) (s : string) : string :=
  map_chars (fun c => if Ascii.eqb c a then b else c) s.

Definition upper_char (c : ascii) : ascii :=
  let n := code c in
  if ((97 <=? n) && (n <=? 122))%N then ascii_of_N (n - 32) else c.

Definition lower_char (c : ascii) : ascii :=
  let n := code c in
  if ((65 <=? n) && (n <=? 90))%N then ascii_of_N (n + 32) else c.

(** [s.upper()] and [s.lower()] *)
Definition upper (s : string) : string := map_chars upper_char s.
Definition lower (s : string) : string := map_chars lower_char s.

(** [str(n)] for an [int]. *)
Definition str_of_int (n : Z) : string := NilZero.string_of_int (Z.to_int n).

(** [d.get(k)] on a dict written as its literal, first binding first. *)
Fixpoint dict_get {V : Type} (d : list (string * V)) (k : string) : option V :=
  match d with
  | (k', v) :: d' => if String.eqb k k' then Some v else dict_get d' k
  | [] => None
  end.

(** Source text with a back quote standing for the double quote, so that
    JSON can be written inside a string literal. *)
Definition text (s : string) : string := replace_char "`"%char dquote s.

End Py.

(** ** Decoded text

    A [str] as the list of its code points.  A response of the model is a
    [string], but a [\u] escape of JSON names any code point, so that the
    names [parse_actions] reads in a decoded block are of this kind. *)

Module Unicode.
Import Py.

Definition str : Type := list N.

(** A text of the model as a [str]. *)
Definition of_string (s : string) : str := map code (list_ascii_of_string s).

(** The [str] as a text of the model, when all its code points are below 256. *)
Fixpoint to_string (u : str) : option string :=
  match u with
  | [] => Some EmptyString
  | c :: u' =>
      if (c <? 256)%N then
        match to_string u' with
        | Some s => Some (String (ascii_of_N c) s)
        | None => None
        end
      else None
  end.

(** [a == b] *)
Fixpoint eqb (a b : str) : bool :=
  match a, b with
  | [], [] => true
  | x :: a', y :: b' => (x =? y)%N && eqb a' b'
  | _, _ => false
  end.

(** The upper case of one code point, which can be more than one code
    point.  Exact below 256 and wherever the upper case holds an ASCII
    character: the letters [a] to [z], the sharp s (SS), the dotless i (I),
    the long s (S), the five letters that keep a combining mark
    (U+0149, U+01F0, U+1E96 to U+1E9A) and the ligatures U+FB00 to U+FB06.
    Any other code point is given back as it is, where [str.upper] gives it
    or other code points of 256 and above: the result is only compared with
    the names of [KEY_MAPPING], which are ASCII, and is equal to none of
    them either way. *)
Definition upper_char (c : N) : str :=
  (if (97 <=? c) && (c <=? 122) then [c - 32]
   else if c =? 181 then [924]
   else if c =? 223 then [83; 83]
   else if (224 <=? c) && (c <=? 254) && negb (c =? 247) then [c - 32]
   else if c =? 255 then [376]
   else if c =? 305 then [73]
   else if c =? 329 then [700; 78]
   else if c =? 383 then [83]
   else if c =? 496 then [74; 780]
   else if c =? 7830 then [72; 817]
   else if c =? 7831 then [84; 776]
   else if c =? 7832 then [87; 778]
   else if c =? 7833 then [89; 778]
   else if c =? 7834 then [65; 702]
   else if c =? 64256 then [70; 70]
   else if c =? 64257 then [70; 73]
   else if c =? 64258 then [70; 76]
   else if c =? 64259 then [70; 70; 73]
   else if c =? 64260 then [70; 70; 76]
   else if (c =? 64261) || (c =? 64262) then [83; 84]
   else [c])%N.

(** [u.upper()] *)
Definition upper (u : str) : str := concat (map upper_char u).

End Unicode.

(** ** The JSON decoder ([json.loads])

    The values [json.loads] returns, and the decoder of the standard library
    ([json.decoder], [json.scanner]) in its default configuration: strict
    strings, [NaN], [Infinity] and [-Infinity] accepted.  [None] stands for a
    raised [JSONDecodeError].  The interpreter's resource limits (recursion
    depth, digits of an [int]) are not modelled. *)

Module Json.
Import Py.

(** A Python [float] read from a decimal literal [mantissa * 10 ^ exp10]. *)
Inductive pyfloat : Type :=
| FNaN
| FInf (negative : bool)
| FDec (negative : bool) (mantissa : N) (exp10 : Z).

#[local] Set Warnings "-register-all".

Inductive value : Type :=
| JNull
| JBool (b : bool)
| JInt (n : Z)
| JFloat (f : pyfloat)
| JStr (s : Unicode.str)
| JArr (items : list value)
| JObj (pairs : list (Unicode.str * value)).

(** The literal rounds to [0.0] or [-0.0] as a binary64 number: its
    magnitude is at most half the least subnormal, [2 ^ -1075]. *)
Definition float_is_zero (f : pyfloat) : bool :=
  match f with
  | FNaN | FInf _ => false
  | FDec _ m e =>
      if 0 <=? e then (m =? 0)%N
      else Z.of_N m * 2 ^ 1075 <=? 10 ^ (- e)
  end.

(** [bool(v)] *)
Definition truthy (v : value) : bool :=
  match v with
  | JNull => false
  | JBool b => b
  | JInt n => negb (n =? 0)
  | JFloat f => negb (float_is_zero f)
  | JStr s => match s with [] => false | _ => true end
  | JArr items => match items with [] => false | _ => true end
  | JObj pairs => match pairs with [] => false | _ => true end
  end.

Definition is_ws (c : ascii) : bool :=
  let n := code c in ((n =? 32) || (n =? 9) || (n =? 10) || (n =? 13))%N.

Fixpoint skip_ws (s : string) : string :=
  match s with
  | String c s' => if is_ws c then skip_ws s' else s
  | EmptyString => EmptyString
  end.

Definition is_digit (c : ascii) : bool :=
  let n := code c in ((48 <=? n) && (n <=? 57))%N.

Definition hex_value (c : ascii) : option N :=
  let n := code c in
  if ((48 <=? n) && (n <=? 57))%N then Some (n - 48)%N
  else if ((65 <=? n) && (n <=? 70))%N then Some (n - 55)%N
  else if ((97 <=? n) && (n <=? 102))%N then Some (n - 87)%N
  else None.

(** The [BACKSLASH] table of [json.decoder]. *)
Definition unescape (c : ascii) : option ascii :=
  if Ascii.eqb c dquote then Some dquote
  else if Ascii.eqb c "\"%char then Some "\"%char
  else if Ascii.eqb c "/"%char then Some "/"%char
  else if Ascii.eqb c "b"%char then Some "008"%char
  else if Ascii.eqb c "f"%char then Some "012"%char
  else if Ascii.eqb c "n"%char then Some "010"%char
  else if Ascii.eqb c "r"%char then Some "013"%char
  else if Ascii.eqb c "t"%char then Some "009"%char
  else None.

Definition cons_char (c : N) (r : option (Unicode.str * string))
    : option (Unicode.str * string) :=
  match r with
  | Some (body, rest) => Some (c :: body, rest)
  | None => None
  end.

(** [_decode_uXXXX]: the number that four hexadecimal digits write. *)
Definition decode_uXXXX (h1 h2 h3 h4 : ascii) : option N :=
  match hex_value h1, hex_value h2, hex_value h3, hex_value h4 with
  | Some a, Some b, Some c, Some d => Some (((a * 16 + b) * 16 + c) * 16 + d)%N
  | _, _, _, _ => None
  end.

(** [0xd800 <= uni <= 0xdbff] and [0xdc00 <= uni2 <= 0xdfff] *)
Definition is_high_surrogate (uni : N) : bool := ((55296 <=? uni) && (uni <=? 56319))%N.
Definition is_low_surrogate (uni2 : N) : bool := ((56320 <=? uni2) && (uni2 <=? 57343))%N.

(** [0x10000 + (((uni - 0xd800) << 10) | (uni2 - 0xdc00))] *)
Definition join_surrogates (uni uni2 : N) : N :=
  (65536 + N.lor (N.shiftl (uni - 55296) 10) (uni2 - 56320))%N.

(** [scanstring]: the body of a string whose opening quote was read, and the
    text after its closing quote.  A [\u] escape gives its code point; a
    high surrogate followed by the escape of a low surrogate gives, with it,
    one code point, and stands alone before anything else. *)
Fixpoint scanstring (s : string) : option (Unicode.str * string) :=
  match s with
  | EmptyString => None
  | String c rest =>
      if Ascii.eqb c dquote then Some ([], rest)
      else if Ascii.eqb c "\"%char then
        match rest with
        | EmptyString => None
        | String e rest1 =>
            if Ascii.eqb e "u"%char then
              match rest1 with
              | String h1 (String h2 (String h3 (String h4 rest2))) =>
                  match decode_uXXXX h1 h2 h3 h4 with
                  | None => None
                  | Some uni =>
                      if is_high_surrogate uni then
                        match rest2 with
                        | String b (String u rest3) =>
                            if Ascii.eqb b "\"%char && Ascii.eqb u "u"%char then
                              match rest3 with
                              | String k1 (String k2 (String k3 (String k4 rest4))) =>
                                  match decode_uXXXX k1 k2 k3 k4 with
                                  | None => None
                                  | Some uni2 =>
                                      if is_low_surrogate uni2
                                      then cons_char (join_surrogates uni uni2)
                                             (scanstring rest4)
                                      else cons_char uni (scanstring rest2)
                                  end
                              | _ => None
                              end
                            else cons_char uni (scanstring rest2)
                        | _ => cons_char uni (scanstring rest2)
                        end
                      else cons_char uni (scanstring rest2)
                  end
              | _ => None
              end
            else
              match unescape e with
              | Some ch => cons_char (code ch) (scanstring rest1)
              | None => None
              end
        end
      else if (code c <? 32)%N then None
      else cons_char (code c) (scanstring rest)
  end.

(** The longest run of digits at the start of [s], and what follows it. *)
Fixpoint span_digits (s : string) : string * string :=
  match s with
  | String c s' =>
      if is_digit c then let (ds, rest) := span_digits s' in (String c ds, rest)
      else (EmptyString, s)
  | EmptyString => (EmptyString, EmptyString)
  end.

Fixpoint digits_value (acc : N) (ds : string) : N :=
  match ds with
  | String c ds' => digits_value (acc * 10 + (code c - 48))%N ds'
  | EmptyString => acc
  end.

(** The integer part of [NUMBER_RE]: [0] or a digit run not starting with
    [0], after an optional minus sign. *)
Definition match_integer (s : string) : option (bool * string * string) :=
  let (negative, s1) :=
    match s with
    | String c r => if Ascii.eqb c "-"%char then (true, r) else (false, s)
    | EmptyString => (false, s)
    end in
  match s1 with
  | String c r =>
      if Ascii.eqb c "0"%char then Some (negative, String c EmptyString, r)
      else if is_digit c then
        let (ds, rest) := span_digits r in Some (negative, String c ds, rest)
      else None
  | EmptyString => None
  end.

(** The optional fraction: a dot followed by at least one digit. *)
Definition match_frac (s : string) : option (string * string) :=
  match s with
  | String c r =>
      if Ascii.eqb c "."%char then
        match span_digits r with
        | (EmptyString, _) => None
        | (ds, rest) => Some (ds, rest)
        end
      else None
  | EmptyString => None
  end.

(** The optional exponent: [e] or [E], an optional sign, at least one digit. *)
Definition match_exp (s : string) : option (Z * string) :=
  match s with
  | String c r =>
      if Ascii.eqb c "e"%char || Ascii.eqb c "E"%char then
        let (negative, r1) :=
          match r with
          | String sign r2 =>
              if Ascii.eqb sign "-"%char then (true, r2)
              else if Ascii.eqb sign "+"%char then (false, r2)
              else (false, r)
          | EmptyString => (false, r)
          end in
        match span_digits r1 with
        | (EmptyString, _) => None
        | (ds, rest) =>
            let e := Z.of_N (digits_value 0 ds) in
            Some (if negative then - e else e, rest)
        end
      else None
  | EmptyString => None
  end.

(** [NUMBER_RE] and the conversion of its groups: an [int] when there is
    neither a fraction nor an exponent, a [float] otherwise. *)
Definition match_number (s : string) : option (value * string) :=
  match match_integer s with
  | None => None
  | Some (negative, int_part, rest) =>
      let (frac, rest1) :=
        match match_frac rest with
        | Some (ds, r) => (Some ds, r)
        | None => (None, rest)
        end in
      let (exp, rest2) :=
        match match_exp rest1 with
        | Some (e, r) => (Some e, r)
        | None => (None, rest1)
        end in
      match frac, exp with
      | None, None =>
          let n := Z.of_N (digits_value 0 int_part) in
          Some (JInt (if negative then - n else n), rest2)
      | _, _ =>
          let fd := match frac with Some ds => ds | None => EmptyString end in
          let e := match exp with Some e => e | None => 0 end in
          Some (JFloat (FDec negative (digits_value 0 (int_part +:+ fd))
                          (e - Z.of_nat (String.length fd))), rest2)
      end
  end.

(** [JSONArray] after its opening bracket; [items] reads the items up to the
    closing bracket. *)
Definition json_array (items : string -> option (list value * string)) (rest : string)
    : option (value * string) :=
  match skip_ws rest with
  | String c1 r1 =>
      if Ascii.eqb c1 "]"%char then Some (JArr [], r1)
      else
        match items (String c1 r1) with
        | Some (vs, r) => Some (JArr vs, r)
        | None => None
        end
  | EmptyString => None
  end.

(** One pass of the loop of [JSONArray]: a value, then the closing bracket
    or a comma and the other items. *)
Definition array_step (scan_once : string -> option (value * string))
    (items : string -> option (list value * string)) (s : string)
    : option (list value * string) :=
  match scan_once s with
  | None => None
  | Some (v, r) =>
      match skip_ws r with
      | String c r1 =>
          if Ascii.eqb c "]"%char then Some ([v], r1)
          else if Ascii.eqb c ","%char then
            match items (skip_ws r1) with
            | Some (vs, r2) => Some (v :: vs, r2)
            | None => None
            end
          else None
      | EmptyString => None
      end
  end.

(** [JSONObject] after its opening brace; [pairs] reads the pairs, from
    after the opening quote of the first key, up to the closing brace. *)
Definition json_object (pairs : string -> option (list (Unicode.str * value) * string))
    (rest : string) : option (value * string) :=
  match skip_ws rest with
  | String c1 r1 =>
      if Ascii.eqb c1 "}"%char then Some (JObj [], r1)
      else if Ascii.eqb c1 dquote then
        match pairs r1 with
        | Some (ps, r) => Some (JObj ps, r)
        | None => None
        end
      else None
  | EmptyString => None
  end.

(** One pass of the loop of [JSONObject]: a key, a colon, a value, then the
    closing brace or a comma, the opening quote of the next key and the
    other pairs. *)
Definition object_step (scan_once : string -> option (value * string))
    (pairs : string -> option (list (Unicode.str * value) * string)) (s : string)
    : option (list (Unicode.str * value) * string) :=
  match scanstring s with
  | None => None
  | Some (key, r) =>
      match skip_ws r with
      | String colon r1 =>
          if Ascii.eqb colon ":"%char then
            match scan_once (skip_ws r1) with
            | None => None
            | Some (v, r2) =>
                match skip_ws r2 with
                | String c r3 =>
                    if Ascii.eqb c "}"%char then Some ([(key, v)], r3)
                    else if Ascii.eqb c ","%char then
                      match skip_ws r3 with
                      | String q r4 =>
                          if Ascii.eqb q dquote then
                            match pairs r4 with
                            | Some (ps, r5) => Some ((key, v) :: ps, r5)
                            | None => None
                            end
                          else None
                      | EmptyString => None
                      end
                    else None
                | EmptyString => None
                end
            end
          else None
      | EmptyString => None
      end
  end.

(** The constants and numbers of [_scan_once], tried in its order. *)
Definition scan_atom (s : string) : option (value * string) :=
  match strip_prefix "null" s, strip_prefix "true" s, strip_prefix "false" s with
  | Some r, _, _ => Some (JNull, r)
  | None, Some r, _ => Some (JBool true, r)
  | None, None, Some r => Some (JBool false, r)
  | None, None, None =>
      match match_number s with
      | Some res => Some res
      | None =>
          match strip_prefix "NaN" s, strip_prefix "Infinity" s,
                strip_prefix "-Infinity" s with
          | Some r, _, _ => Some (JFloat FNaN, r)
          | None, Some r, _ => Some (JFloat (FInf false), r)
          | None, None, Some r => Some (JFloat (FInf true), r)
          | None, None, None => None
          end
      end
  end.

(** [_scan_once]: one value at the start of [s]. *)
Definition scan_step (items : string -> option (list value * string))
    (pairs : string -> option (list (Unicode.str * value) * string)) (s : string)
    : option (value * string) :=
  match s with
  | EmptyString => None
  | String c rest =>
      if Ascii.eqb c dquote then
        match scanstring rest with
        | Some (body, r) => Some (JStr body, r)
        | None => None
        end
      else if Ascii.eqb c "{"%char then json_object pairs rest
      else if Ascii.eqb c "["%char then json_array items rest
      else scan_atom s
  end.

(** The three functions call each other; [fuel] bounds the depth of the
    calls.  Twice the length of the text, and one more, is enough
    ([JsonFacts.scan_once_fuel]). *)
Fixpoint scan_once (fuel : nat) (s : string) {struct fuel} : option (value * string) :=
  match fuel with
  | O => None
  | S fuel' => scan_step (array_items fuel') (object_pairs fuel') s
  end
with array_items (fuel : nat) (s : string) {struct fuel} : option (list value * string) :=
  match fuel with
  | O => None
  | S fuel' => array_step (scan_once fuel') (array_items fuel') s
  end
with object_pairs (fuel : nat) (s : string) {struct fuel}
    : option (list (Unicode.str * value) * string) :=
  match fuel with
  | O => None
  | S fuel' => object_step (scan_once fuel') (object_pairs fuel') s
  end.

(** [json.loads(s)]: one value between optional whitespace, nothing after. *)
Definition loads_with (fuel : nat) (s : string) : option value :=
  match scan_once fuel (skip_ws s) with
  | Some (v, rest) =>
      match skip_ws rest with
      | EmptyString => Some v
      | String _ _ => None
      end
  | None => None
  end.

Definition loads (s : string) : option value :=
  loads_with (2 * String.length s + 2) s.

(** A scanner consumes: what it leaves is shorter than what it was given. *)
Definition consumes {A : Type} (f : string -> option (A * string)) : Prop :=
  forall s a r, f s = Some (a, r) -> (len r < len s)%nat.

End Json.

(** ** [utils/parsing_utils.py] *)

(** What [KEY_MAPPING] maps a name to, when it is not [None]: a key code (an
    [int], pressed once) or the tuple [("HOLD", code)]. *)
Inductive action : Type :=
| Instant (code : Z)
| Hold (code : Z).

(** An element of a parsed segment: [None] is the NOOP. *)
Abbreviation action_code := (option action).

Definition KEY_MAPPING : list (string * action_code) :=
  [ ("UP", Some (Instant 38));
    ("DOWN", Some (Instant 40));
    ("LEFT", Some (Instant 37));
    ("RIGHT", Some (Instant 39));
    ("SPACE", Some (Instant 32));
    ("ENTER", Some (Instant 13));
    ("ESC", Some (Instant 27));
    ("NOOP", None);
    ("A", Some (Instant 65)); ("B", Some (Instant 66)); ("C", Some (Instant 67));
    ("D", Some (Instant 68)); ("E", Some (Instant 69)); ("F", Some (Instant 70));
    ("G", Some (Instant 71)); ("H", Some (Instant 72)); ("I", Some (Instant 73));
    ("J", Some (Instant 74)); ("K", Some (Instant 75)); ("L", Some (Instant 76));
    ("M", Some (Instant 77)); ("N", Some (Instant 78)); ("O", Some (Instant 79));
    ("P", Some (Instant 80)); ("Q", Some (Instant 81)); ("R", Some (Instant 82));
    ("S", Some (Instant 83)); ("T", Some (Instant 84)); ("U", Some (Instant 85));
    ("V", Some (Instant 86)); ("W", Some (Instant 87)); ("X", Some (Instant 88));
    ("Y", Some (Instant 89)); ("Z", Some (Instant 90));
    ("HOLD_UP", Some (Hold 38));
    ("HOLD_DOWN", Some (Hold 40));
    ("HOLD_LEFT", Some (Hold 37));
    ("HOLD_RIGHT", Some (Hold 39));
    ("HOLD_SPACE", Some (Hold 32)) ]%string.

Module Parsing.
Import Py Json.

(** [re.search(r'<keys>(.*?)</keys>', response_text, re.DOTALL)], giving
    group 1: the leftmost [<keys>], then the text up to the first [</keys>]
    after it, line breaks included. *)
Definition search_keys (response_text : string) : option string :=
  match partition "<keys>" response_text with
  | None => None
  | Some (_, after_open) =>
      match partition "</keys>" after_open with
      | None => None
      | Some (group1, _) => Some group1
      end
  end.

(** Lines 39-44: the stripped block, its single quotes turned into double
    quotes when it has single quotes and no double quote. *)
Definition actions_str (group1 : string) : string :=
  let s := strip group1 in
  if contains "'" s && negb (contains (String dquote EmptyString) s)
  then replace_char "'"%char dquote s
  else s.

(** [str(v)] of a decoded value.  Exact on [None], [bool], [int] and [str].
    A [float] is printed as mantissa and exponent and a container by its
    opening bracket alone, where Python prints the shortest decimal that
    reads back and the whole container: in both, the text starts with a
    digit, a sign, a bracket or spells [inf] / [nan], so that it is no name
    of [KEY_MAPPING] either way. *)
Definition py_str (v : value) : Unicode.str :=
  match v with
  | JNull => Unicode.of_string "None"
  | JBool true => Unicode.of_string "True"
  | JBool false => Unicode.of_string "False"
  | JInt n => Unicode.of_string (str_of_int n)
  | JFloat FNaN => Unicode.of_string "nan"
  | JFloat (FInf false) => Unicode.of_string "inf"
  | JFloat (FInf true) => Unicode.of_string "-inf"
  | JFloat (FDec negative m e) =>
      Unicode.of_string
        ((if negative then "-" else "") +:+ str_of_int (Z.of_N m) +:+ "e" +:+ str_of_int e)
  | JStr s => s
  | JArr _ => Unicode.of_string "["
  | JObj _ => Unicode.of_string "{"
  end.

(** [KEY_MAPPING.get(action_name)] for a decoded name: the names of
    [KEY_MAPPING] are texts of the model. *)
Definition key_mapping_get (action_name : Unicode.str) : option action_code :=
  match Unicode.to_string action_name with
  | Some name => dict_get KEY_MAPPING name
  | None => None
  end.

(** Lines 68-77: one pass of the inner loop, [parsed_segment] threaded. *)
Definition parse_action_name (parsed_segment : list action_code) (item : value)
    : list action_code :=
  let action_name :=
    match item with JNull => JStr (Unicode.of_string "NOOP") | _ => item end in
  let action_name := Unicode.upper (py_str action_name) in
  match key_mapping_get action_name with
  | Some mapped => parsed_segment ++ [mapped]
  | None =>
      if Unicode.eqb action_name (Unicode.of_string "NOOP") then parsed_segment ++ [None]
      else parsed_segment
  end.

(** Lines 62-79: one pass of the outer loop. *)
Definition parse_segment (segment : value) : list action_code :=
  let segment :=
    match segment with
    | JArr items => items
    | _ => if truthy segment then [segment] else [JStr (Unicode.of_string "NOOP")]
    end in
  fold_left parse_action_name segment [].

(** Lines 53-58. *)
Definition pad_or_truncate (action_segments : list value) : list value :=
  if (length action_segments =? 5)%nat then action_segments
  else if (length action_segments <? 5)%nat
  then action_segments
       ++ repeat (JArr [JStr (Unicode.of_string "NOOP")]) (5 - length action_segments)
  else firstn 5 action_segments.

(** [[[None]] * 5] *)
Definition five_noops : list (list action_code) := repeat [None] 5.

Definition parse_actions (response_text : string) : list (list action_code) :=
  match search_keys response_text with
  | Some group1 =>
      match loads (actions_str group1) with
      | Some (JArr action_segments) =>
          map parse_segment (pad_or_truncate action_segments)
      | Some _ => []
      | None => five_noops
      end
  | None => five_noops
  end.

(** The response of the specification's example. *)
Definition example_response : string :=
  text "<keys>[[`UP`],[`LEFT`,`RIGHT`],[`NOOP`],[`HOLD_SPACE`],[`R`]]</keys>".

End Parsing.

(** ** The browser and the clock

    The game page is driven through calls that may raise and that leave
    events on the page.  A [world] records the events dispatched so far, the
    clock and the number of browser calls made; an [env] says which calls
    raise and what the page answers when asked whether the game has ended.
    [time.sleep] is the only thing that moves the clock: the time a run is
    certain to take is the time it sleeps. *)

Module Browser.

Inductive event : Type :=
| Click                    (* canvas.click() *)
| Press (key : string)     (* canvas.press(key), page.keyboard.press(key) *)
| KeyDown (key : string)   (* page.keyboard.down(key), a dispatched keydown *)
| KeyPress (key : string)  (* a dispatched keypress *)
| KeyUp (key : string)     (* page.keyboard.up(key), a dispatched keyup *)
| Sleep (ms : Z).          (* time.sleep(ms / 1000) *)

Record world : Type := World { trace : list event; clock : Z; calls : nat }.

Record env : Type := Env { raises : nat -> bool; reads_ended : nat -> bool }.

(** A computation in the world; [None] is an exception on its way up. *)
Definition io (A : Type) : Type := world -> option A * world.

Definition ret {A : Type} (a : A) : io A := fun w => (Some a, w).

Definition bind {A B : Type} (m : io A) (k : A -> io B) : io B :=
  fun w =>
    match m w with
    | (Some a, w') => k a w'
    | (None, w') => (None, w')
    end.

(** [try: body / except Exception: pass] (the handlers only log). *)
Definition try_except (body : io unit) : io unit :=
  fun w => (Some tt, snd (body w)).

Definition sleep (ms : Z) : io unit :=
  fun w => (Some tt, World (trace w ++ [Sleep ms]) (clock w + ms) (calls w)).

(** [time.time()] *)
Definition time_time : io Z := fun w => (Some (clock w), w).

Definition exec {A : Type} (m : io A) (w : world) : world := snd (m w).

(** The time slept in a trace. *)
Fixpoint slept (tr : list event) : Z :=
  match tr with
  | Sleep ms :: tr' => ms + slept tr'
  | _ :: tr' => slept tr'
  | [] => 0
  end.

Definition is_key_down (e : event) : bool :=
  match e with KeyDown _ => true | _ => false end.

Definition is_key_up (e : event) : bool :=
  match e with KeyUp _ => true | _ => false end.

(** Every key-down of the trace comes before every key-up of it: once a
    key has come up, no key goes down. *)
Fixpoint downs_before_ups (tr : list event) : bool :=
  match tr with
  | [] => true
  | e :: tr' =>
      if is_key_up e then forallb (fun e' => negb (is_key_down e')) tr'
      else downs_before_ups tr'
  end.

(** A click, a sleep or a press: what an instant action leaves. *)
Definition is_tap (e : event) : bool :=
  match e with Click | Sleep _ | Press _ => true | _ => false end.

Definition start : world := World [] 0 0.

(** A page on which no call raises and the game has not ended. *)
Definition calm : env := Env (fun _ => false) (fun _ => false).

End Browser.

#[global] Instance io_ret : MRet Browser.io := @Browser.ret.
#[global] Instance io_bind : MBind Browser.io := fun A B k m => Browser.bind m k.

(** ** [run_llm_eval.py]: executing a plan with Playwright *)

Module Scheduler.
Import Browser.

(** The dict literal, with its letter keys 65..90 written as the range. *)
Definition KEY_CODE_TO_PLAYWRIGHT_KEY (code : Z) : option string :=
  if code =? 37 then Some "ArrowLeft"%string
  else if code =? 38 then Some "ArrowUp"%string
  else if code =? 39 then Some "ArrowRight"%string
  else if code =? 40 then Some "ArrowDown"%string
  else if code =? 32 then Some " "%string
  else if code =? 13 then Some "Enter"%string
  else if code =? 27 then Some "Escape"%string
  else if (65 <=? code) && (code <=? 90)
  then Some (String (ascii_of_N (Z.to_N (code + 32))) EmptyString)
  else None.

(** What holding [keys] for [duration] leaves when no call raises. *)
Definition hold_script (keys : list string) (duration : Z) : list event :=
  Click :: map KeyDown keys ++ Sleep duration :: map KeyUp keys.

Section WithPage.
Variable page : env.

(** One call into the browser: it raises, or it leaves [emitted] on the
    page and returns. *)
Definition call (emitted : list event) : io unit :=
  fun w =>
    if raises page (calls w)
    then (None, World (trace w) (clock w) (S (calls w)))
    else (Some tt, World (trace w ++ emitted) (clock w) (S (calls w))).

Fixpoint for_each {A : Type} (xs : list A) (body : A -> io unit) : io unit :=
  match xs with
  | [] => ret tt
  | x :: xs' => body x ;; for_each xs' body
  end.

Definition execute_action_playwright (action_code : option Z) : io unit :=
  match action_code with
  | None => ret tt
  | Some code =>
      try_except
        (call [Click] ;;
         sleep 50 ;;
         match KEY_CODE_TO_PLAYWRIGHT_KEY code with
         | Some key => call [Press key]
         | None => ret tt
         end)
  end.

(** The keys of the codes that [KEY_CODE_TO_PLAYWRIGHT_KEY] knows. *)
Definition hold_keys (key_codes : list Z) : list string :=
  omap KEY_CODE_TO_PLAYWRIGHT_KEY key_codes.

Definition execute_hold_actions_playwright (key_codes : list Z) (duration : Z)
    : io unit :=
  match key_codes with
  | [] => ret tt
  | _ =>
      try_except
        (call [Click] ;;
         match hold_keys key_codes with
         | [] => ret tt
         | keys =>
             for_each keys (fun key => call [KeyDown key]) ;;
             sleep duration ;;
             for_each keys (fun key => call [KeyUp key])
         end)
  end.

(** Lines 896-905: the hold codes and the instant codes of a segment. *)
Definition hold_actions (segment : list action_code) : list Z :=
  omap (fun a => match a with Some (Hold c) => Some c | _ => None end) segment.

Definition instant_actions (segment : list action_code) : list Z :=
  omap (fun a => match a with Some (Instant c) => Some c | _ => None end) segment.

(** Lines 896-922: the keys and the waiting of one segment.  (The loop
    also appends to [executed_actions] and takes screenshots.) *)
Definition run_segment (segment : list action_code) : io unit :=
  for_each (instant_actions segment)
    (fun action_code => execute_action_playwright (Some action_code)) ;;
  match hold_actions segment with
  | [] => ret tt
  | holds => execute_hold_actions_playwright holds 200
  end ;;
  match instant_actions segment, hold_actions segment with
  | [], [] => sleep 200
  | _, _ => ret tt
  end.

(** [page.evaluate] of the end-of-game script: it raises or returns what
    the page answers. *)
Definition evaluate_ended : io bool :=
  fun w =>
    if raises page (calls w)
    then (None, World (trace w) (clock w) (S (calls w)))
    else (Some (reads_ended page (calls w)), World (trace w) (clock w) (S (calls w))).

(** [try: return bool(page.evaluate(...)) / except Exception: return False] *)
Definition check_game_ended : io bool :=
  fun w =>
    match evaluate_ended w with
    | (Some ended, w') => (Some ended, w')
    | (None, w') => (Some false, w')
    end.

(** [find_canvas] as one look-up that raises when no canvas is found. *)
Definition find_canvas : io unit := call [].

(** [try: body / except Exception: handler] *)
Definition try_except_with (body handler : io unit) : io unit :=
  fun w =>
    match body w with
    | (Some _, w') => (Some tt, w')
    | (None, w') => handler w'
    end.

Definition restart_game : io unit :=
  try_except_with
    (try_except (call [Click] ;; sleep 150 ;; call [Press "r"]) ;;
     sleep 300 ;;
     try_except (call [Press "r"]) ;;
     sleep 400 ;;
     try_except (execute_action_playwright (Some 13)) ;;
     try_except (call [Press "Enter"]) ;;
     sleep 500 ;;
     game_still_ended ← check_game_ended ;
     if (game_still_ended : bool) then
       try_except
         (call [Click] ;; sleep 100 ;;
          call [KeyDown "r"] ;; sleep 50 ;; call [KeyUp "r"] ;; sleep 300 ;;
          call [KeyDown "Enter"] ;; sleep 50 ;; call [KeyUp "Enter"] ;; sleep 400)
     else mret tt)
    (try_except (call [Press "r"] ;; sleep 300 ;; call [Press "Enter"] ;; sleep 400)).

(** Lines 890-892: the loop over the plan, left at once when the call
    budget is used up. *)
Definition run_plan (budget_left : bool) (actions : list (list action_code))
    : io unit :=
  if budget_left then for_each actions run_segment else ret tt.

End WithPage.

End Scheduler.

(** ** [run_llm_eval.py]: the end of an episode *)

Module Episode.
Import Browser Scheduler.

(** An entry of [frame_history] (the picture itself left out). *)
Record frame_entry : Type :=
  { fe_episode : Z; fe_step : Z; action_index : nat; action_name : string }.

(** The variables of [run_one_game] that the end of an episode touches. *)
Record locals : Type :=
  { episode_count : Z;
    step_count : Z;
    frame_history : list frame_entry;
    last_render_frames : list frame_entry }.

(** Lines 814-818. *)
Definition new_episode (vars : locals) : locals :=
  {| episode_count := episode_count vars + 1;
     step_count := 0;
     frame_history := [];
     last_render_frames := [] |}.

Section WithPage.
Variable page : env.

(** Lines 819-842: unpause, restart, find the canvas again, wait, read
    the end flag once more (it is only logged). *)
Definition restart_sequence : io unit :=
  try_except (execute_action_playwright page (Some 27) ;; sleep 50) ;;
  restart_game page ;;
  try_except (find_canvas page ;; call page [Click]) ;;
  sleep 800 ;;
  _ ← check_game_ended page ;
  mret tt.

(** Lines 807-842.  [game_ended_before_pause] was read at line 722. *)
Definition end_of_game (game_ended_before_pause : bool) (vars : locals) : io locals :=
  game_ended ← check_game_ended page ;
  if (game_ended : bool) || game_ended_before_pause then
    let vars := new_episode vars in
    restart_sequence ;;
    mret vars
  else mret vars.

End WithPage.

End Episode.

(** ** [utils/game_utils.py]: executing a segment with Selenium *)

Module Selenium.
Import Browser Scheduler.

(** The dict literal; it has the entries of [KEY_CODE_TO_PLAYWRIGHT_KEY]. *)
Definition KEY_CODE_TO_KEY_NAME (code : Z) : option string :=
  if code =? 37 then Some "ArrowLeft"%string
  else if code =? 38 then Some "ArrowUp"%string
  else if code =? 39 then Some "ArrowRight"%string
  else if code =? 40 then Some "ArrowDown"%string
  else if code =? 32 then Some " "%string
  else if code =? 13 then Some "Enter"%string
  else if code =? 27 then Some "Escape"%string
  else if (65 <=? code) && (code <=? 90)
  then Some (String (ascii_of_N (Z.to_N (code + 32))) EmptyString)
  else None.

Section WithPage.
Variable page : env.

(** The events the script of [execute_action] dispatches on the canvas. *)
Definition dispatched (code : Z) (key : string) : list event :=
  [KeyDown key] ++
  (if (32 <=? code) && negb (code =? 127) then [KeyPress key] else []) ++
  [KeyUp key].

Definition execute_action (action_code : option Z) : io unit :=
  match action_code with
  | None => mret tt
  | Some code =>
      try_except
        (call page [] ;;                      (* driver.find_element *)
         call page [Click] ;;
         sleep 50 ;;
         match KEY_CODE_TO_KEY_NAME code with
         | Some key => call page (dispatched code key)   (* driver.execute_script *)
         | None => mret tt
         end)
  end.

(** The [while] loop of lines 148-153; [fuel] bounds its passes. *)
Fixpoint hold_loop (fuel : nat) (continuous_actions : list Z)
    (duration segment_start : Z) : io unit :=
  match fuel with
  | O => mret tt
  | S fuel' =>
      now ← time_time ;
      if now - segment_start <? duration then
        for_each continuous_actions (fun c => execute_action (Some c)) ;;
        now ← time_time ;
        let remaining_time := duration - (now - segment_start) in
        (if 0 <? remaining_time then sleep (Z.min 50 remaining_time) else mret tt) ;;
        hold_loop fuel' continuous_actions duration segment_start
      else mret tt
  end.

(** Every pass but the last sleeps at least a millisecond, so that
    [duration] passes are enough. *)
Definition execute_action_segment (action_segment : list action_code) (duration : Z)
    : io unit :=
  let instant_actions := instant_actions action_segment in
  let continuous_actions := hold_actions action_segment in
  for_each instant_actions (fun c => execute_action (Some c)) ;;
  match continuous_actions with
  | [] => sleep duration
  | _ =>
      segment_start ← time_time ;
      hold_loop (Z.to_nat duration) continuous_actions duration segment_start
  end.

End WithPage.

End Selenium.

(** ** [llm_interface/api/google_interface.py]: retrying on quota errors *)

Module Retry.
Import Py.

(** A raised exception: its class and [str(error)]. *)
Record pyexn : Type := Exn { exn_class : string; exn_str : string }.

Definition quota_patterns : list string :=
  [ "quota"; "rate limit"; "rate_limit"; "429"; "resource exhausted";
    "too many requests" ]%string.

Definition _is_quota_limit_error (error : pyexn) : bool :=
  let error_str := lower (exn_str error) in
  existsb (fun pattern => contains pattern error_str) quota_patterns.

(** What the wrapper leaves behind: the calls made to the API and the
    sleeps, in milliseconds, oldest first. *)
Record log : Type := Log { api_calls : nat; sleeps : list Z }.

Definition no_log : log := Log 0 [].

Section WithClient.
Variable response : Type.
(** The outcome of the n-th call of [client.models.generate_content]. *)
Variable generate_content : nat -> pyexn + response.

Definition RuntimeError : pyexn :=
  Exn "RuntimeError" "Failed to generate content after all retries".

(** The [for attempt in range(max_retries + 1)] loop, [attempts] being
    what is left of the range. *)
Fixpoint retry_loop (attempts : list Z) (max_retries retry_delay : Z) (l : log)
    : (pyexn + response) * log :=
  match attempts with
  | [] => (inl RuntimeError, l)
  | attempt :: rest =>
      let l1 := Log (S (api_calls l)) (sleeps l) in
      match generate_content (api_calls l) with
      | inr r => (inr r, l1)
      | inl e =>
          if _is_quota_limit_error e && (attempt <? max_retries)
          then retry_loop rest max_retries retry_delay
                 (Log (api_calls l1) (sleeps l1 ++ [retry_delay]))
          else (inl e, l1)
      end
  end.

(** [range(n)] *)
Definition range (n : Z) : list Z := map Z.of_nat (seq 0 (Z.to_nat n)).

Definition _generate_content_with_retry (max_retries retry_delay : Z) (l : log)
    : (pyexn + response) * log :=
  retry_loop (range (max_retries + 1)) max_retries retry_delay l.

(** The call with its defaults, [max_retries=1] and [retry_delay=5.0]. *)
Definition generate_with_default_retry : (pyexn + response) * log :=
  _generate_content_with_retry 1 5000 no_log.

End WithClient.

End Retry.

(** ** [token_counting.py] and the token usage of [AnthropicInterface.generate] *)

Module Tokens.
Import Py.

(** [int(base * 1.1)] and [int(base * 1.2)] are written with integers:
    the binary64 products round to the same whole numbers for every length
    below [2 ^ 40]. *)
Definition estimate_tokens (text : string) (model_name : option string) : Z :=
  let base_estimate := Z.of_nat (String.length text) / 4 in
  let fallback := Z.max 1 base_estimate in
  match model_name with
  | None => fallback
  | Some EmptyString => fallback
  | Some name =>
      if contains "gpt" (lower name) then base_estimate * 11 / 10
      else if contains "llama" (lower name) then base_estimate
      else if contains "qwen" (lower name) || contains "deepseek" (lower name)
      then base_estimate * 12 / 10
      else fallback
  end.

(** A block of [response.content]. *)
Inductive content_block : Type :=
| TextBlock (text : string)
| ThinkingBlock (content : string)
| OtherBlock (type : string).

(** [response.usage] *)
Record usage : Type := { input_tokens : Z; output_tokens : Z }.

(** The [token_usage] dict; [reasoning_tokens] is [None] when the key is
    absent. *)
Record token_usage : Type :=
  { tu_input_tokens : Z;
    tu_output_tokens : Z;
    total_tokens : Z;
    reasoning_tokens : option Z }.

(** Lines 260-267: the text blocks joined, and the content of the last
    thinking block. *)
Definition read_block (acc : string * option string) (block : content_block)
    : string * option string :=
  match block with
  | TextBlock text => (fst acc +:+ text, snd acc)
  | ThinkingBlock content => (fst acc, Some content)
  | OtherBlock _ => acc
  end.

Definition read_content (content : list content_block) : string * option string :=
  fold_left read_block content (EmptyString, None).

Definition reasoning_text (content : list content_block) : option string :=
  snd (read_content content).

(** Lines 269-281. *)
Definition generate_token_usage (model_name : string) (content : list content_block)
    (u : usage) : token_usage :=
  let plain :=
    {| tu_input_tokens := input_tokens u;
       tu_output_tokens := output_tokens u;
       total_tokens := input_tokens u + output_tokens u;
       reasoning_tokens := None |} in
  match reasoning_text content with
  | None => plain
  | Some EmptyString => plain
  | Some text =>
      let estimate := estimate_tokens text (Some model_name) in
      {| tu_input_tokens := input_tokens u;
         tu_output_tokens := output_tokens u;
         total_tokens := input_tokens u + output_tokens u + estimate;
         reasoning_tokens := Some estimate |}
  end.

(** The heuristic in the words of the specification: the length divided by
    four, times the multiplier of the model family. *)
Definition heuristic_as_specified (text : string) (model_name : string) : Z :=
  let quarter := Z.of_nat (String.length text) / 4 in
  if contains "gpt" (lower model_name) then quarter * 11 / 10
  else if contains "qwen" (lower model_name) || contains "deepseek" (lower model_name)
  then quarter * 12 / 10
  else quarter.

Definition has_thinking (content : list content_block) : bool :=
  existsb (fun b => match b with ThinkingBlock _ => true | _ => false end) content.

(** The claim about reasoning tokens as the specification states it, for a
    reading [heuristic] of "the length heuristic estimate": with a thinking
    block the response reports the estimate of its text as
    [reasoning_tokens] and adds it to the total; without one the total is
    input plus output. *)
Definition reasoning_claim (heuristic : string -> string -> Z)
    (model_name : string) (content : list content_block) (u : usage) : Prop :=
  let reported := generate_token_usage model_name content u in
  (has_thinking content = true ->
     exists text,
       reasoning_text content = Some text
       /\ reasoning_tokens reported = Some (heuristic text model_name)
       /\ total_tokens reported
          = input_tokens u + output_tokens u + heuristic text model_name)
  /\ (has_thinking content = false ->
        total_tokens reported = input_tokens u + output_tokens u).

End Tokens.

(** ** [utils/gameplay_utils.py]: the active and the archival history

    History entries are dicts, so a list holds references to them.  The heap
    maps a reference to what the dict, with all it reaches, currently holds.
    [copy.deepcopy] allocates a dict that holds the same and shares nothing
    with the original.  The program keeps the references of the entries it
    created ([created], in creation order) and can change those dicts at any
    time; the reference of a deep copy is passed to the archive and to nothing
    else. *)

Module History.

(** What an entry holds: its role and its content (a text, or the list of
    the parts of a prompt). *)
Record entry : Type := Entry { role : string; content : list string }.

Record store : Type :=
  { heap : gmap nat entry;
    next : nat;                         (* the next free reference *)
    created : list nat;                 (* the entries the program made *)
    content_history : list nat;
    full_content_history : list nat }.

Definition empty_store : store :=
  {| heap := ∅; next := 0; created := [];
     content_history := []; full_content_history := [] |}.

(** [entry = {"role": ..., "content": ...}] *)
Definition new_entry (e : entry) (σ : store) : store :=
  {| heap := <[next σ := e]> (heap σ);
     next := S (next σ);
     created := created σ ++ [next σ];
     content_history := content_history σ;
     full_content_history := full_content_history σ |}.

(** [copy.deepcopy(entry)]: the reference of the copy, and the store. *)
Definition deepcopy (r : nat) (σ : store) : nat * store :=
  (next σ,
   {| heap := match heap σ !! r with
              | Some e => <[next σ := e]> (heap σ)
              | None => heap σ
              end;
      next := S (next σ);
      created := created σ;
      content_history := content_history σ;
      full_content_history := full_content_history σ |}).

(** [history.append(entry); full_history.append(copy.deepcopy(entry))] *)
Definition append_history_entry (r : nat) (σ : store) : store :=
  let σ1 :=
    {| heap := heap σ; next := next σ; created := created σ;
       content_history := content_history σ ++ [r];
       full_content_history := full_content_history σ |} in
  let (copy, σ2) := deepcopy r σ1 in
  {| heap := heap σ2; next := next σ2; created := created σ2;
     content_history := content_history σ2;
     full_content_history := full_content_history σ2 ++ [copy] |}.

(** [content_history.clear()] *)
Definition clear_history (σ : store) : store :=
  {| heap := heap σ; next := next σ; created := created σ;
     content_history := [];
     full_content_history := full_content_history σ |}.

(** The program changes the dict behind [r] in place. *)
Definition mutate (r : nat) (e : entry) (σ : store) : store :=
  {| heap := <[r := e]> (heap σ); next := next σ; created := created σ;
     content_history := content_history σ;
     full_content_history := full_content_history σ |}.

(** What the program does to the histories and their entries: it makes an
    entry, appends the i-th entry it made, changes the i-th entry it made,
    or clears the active history. *)
Inductive op : Type :=
| New (e : entry)
| Append (i : nat)
| Mutate (i : nat) (e : entry)
| Clear.

Definition step (σ : store) (o : op) : store :=
  match o with
  | New e => new_entry e σ
  | Append i =>
      match created σ !! i with
      | Some r => append_history_entry r σ
      | None => σ
      end
  | Mutate i e =>
      match created σ !! i with
      | Some r => mutate r e σ
      | None => σ
      end
  | Clear => clear_history σ
  end.

Definition run (ops : list op) (σ : store) : store := fold_left step ops σ.

(** What the entries behind a list of references hold now. *)
Definition contents (σ : store) (refs : list nat) : list (option entry) :=
  map (fun r => heap σ !! r) refs.

(** What each appended entry held when it was appended, in append order. *)
Fixpoint appended (ops : list op) (σ : store) : list (option entry) :=
  match ops with
  | [] => []
  | o :: ops' =>
      match o with
      | Append i =>
          match created σ !! i with
          | Some r => [heap σ !! r]
          | None => []
          end
      | _ => []
      end ++ appended ops' (step σ o)
  end.

(** The references in use are below [next]; the program made none of the
    archived ones, and the entries it made exist. *)
Definition well_formed (σ : store) : Prop :=
  (forall r, (next σ <= r)%nat -> heap σ !! r = None)
  /\ (forall r, r ∈ created σ -> (r < next σ)%nat)
  /\ (forall r, r ∈ full_content_history σ -> (r < next σ)%nat /\ r ∉ created σ)
  /\ (forall r, r ∈ created σ -> is_Some (heap σ !! r)).

(** One decision cycle of [run_one_game] (lines 790-868) when [n] entries
    were made before it: the user entry is made and appended, the model
    answers, the assistant entry is made and appended, the active history
    is cleared. *)
Definition cycle (n : nat) (user assistant : entry) : list op :=
  [New user; Append n; New assistant; Append (S n); Clear].

End History.

(** ** More of Python's [str] *)

Module Str.
Import Py.

(** [c.lower()] for a character of the model: the ASCII capitals and the
    capitals of Latin-1 (192..222 but the multiplication sign, 215) have
    their small letter 32 places on.  It is [Py.lower_char] on ASCII. *)
Definition lower_char (c : ascii) : ascii :=
  let n := code c in
  if ((65 <=? n) && (n <=? 90) || (192 <=? n) && (n <=? 222) && negb (n =? 215))%N
  then ascii_of_N (n + 32) else c.

(** [s.lower()] *)
Definition lower (s : string) : string := map_chars lower_char s.

(** [s.split(sep)[0]]: the text before the leftmost [sep], or all of [s]. *)
Definition split_first (sep s : string) : string :=
  match partition sep s with
  | Some (before, _) => before
  | None => s
  end.

(** [s.split(sep)[-1]], cutting at most [fuel] times. *)
Fixpoint split_last_within (fuel : nat) (sep s : string) : string :=
  match fuel with
  | O => s
  | S fuel' =>
      match partition sep s with
      | Some (_, rest) => split_last_within fuel' sep rest
      | None => s
      end
  end.

(** [s.split(sep)[-1]] for a non-empty [sep]: the separators are found
    from the left, each search starting after the separator before, and
    what follows the last one found is returned.  Every cut removes a
    character at least, so that [len(s)] cuts are enough. *)
Definition split_last (sep s : string) : string :=
  split_last_within (String.length s) sep s.

(** [sep.join(parts)] *)
Definition join (sep : string) (parts : list string) : string :=
  String.concat sep parts.

End Str.

(** ** [run_llm_eval.py]: the command line and the names of a run *)

Module Cli.
Import Py Str.

(** The two [ValueError]s of [parse_model_string]. *)
Inductive model_string_error : Type :=
| NotProviderColonModel      (* Model string must be in format 'provider:model_name' *)
| EmptyProviderOrModel.      (* Both provider and model name must be specified *)

(** Lines 118-127. *)
Definition parse_model_string (model_string : string)
    : model_string_error + string * string :=
  match partition ":" model_string with
  | None => inl NotProviderColonModel
  | Some (part0, part1) =>
      let provider := lower (strip part0) in
      let model_name := strip part1 in
      if String.eqb provider "" || String.eqb model_name ""
      then inl EmptyProviderOrModel
      else inr (provider, model_name)
  end.

(** Line 1064. *)
Definition sanitized_model_name (model_name : string) : string :=
  replace_char " " "_" (replace_char ":" "_" (replace_char "/" "_" model_name)).

(** Lines 157-164, on [parsed.path]. *)
Definition game_name_of_games_path (path : string) : string :=
  if contains "/games/" path then
    let path_after_games := split_last "/games/" path in
    let game_name := split_first "/" path_after_games in
    if String.eqb game_name "" then "unknown_game" else game_name
  else "unknown_game".

(** Lines 133-167 with [urlparse(url).path] for argument, [None] when
    [urlparse] raises: the name in brackets of a [/variants_final/] folder,
    in lower case with hyphens for spaces, followed by what follows the
    bracket; else the folder after [/games/]; else [unknown_game]. *)
Definition parse_game_name_from_url (parsed_path : option string) : string :=
  match parsed_path with
  | None => "unknown_game"
  | Some path =>
      if contains "/variants_final/" path then
        let path_after_variants := split_last "/variants_final/" path in
        let folder_name := split_first "/" path_after_variants in
        match strip_prefix "[" folder_name with
        | Some after_bracket =>
            match partition "]" after_bracket with
            | Some (game_name_in_brackets, suffix) =>
                let game_name := replace_char " " "-" (lower game_name_in_brackets) in
                if String.eqb suffix "" then game_name else game_name +:+ suffix
            | None => game_name_of_games_path path
            end
        | None => game_name_of_games_path path
        end
      else game_name_of_games_path path
  end.

(** Line 599: the folder of a run's results. *)
Definition results_folder_name (session_id model_name game_name : string) : string :=
  session_id +:+ "_" +:+ sanitized_model_name model_name +:+ "_" +:+ game_name.

End Cli.

(** ** [run_llm_eval.py]: the names of executed actions *)

Module Names.
Import Py Str Scheduler.

(** [==] on what a segment holds: [None], a key code or a HOLD tuple. *)
Definition action_code_eqb (a b : action_code) : bool :=
  match a, b with
  | None, None => true
  | Some (Instant x), Some (Instant y) => x =? y
  | Some (Hold x), Some (Hold y) => x =? y
  | _, _ => false
  end.

(** [d[k] = v] on a dict written as its items, oldest first: an old key
    keeps its place. *)
Fixpoint dict_set {V : Type} (d : list (action_code * V)) (k : action_code) (v : V)
    : list (action_code * V) :=
  match d with
  | [] => [(k, v)]
  | (k', v') :: d' =>
      if action_code_eqb k k' then (k, v) :: d' else (k', v') :: dict_set d' k v
  end.

(** Lines 40-41: [{value: key for key, value in KEY_MAPPING.items()}],
    then [REVERSE_KEY_MAPPING[None] = "NOOP"]. *)
Definition REVERSE_KEY_MAPPING : list (action_code * string) :=
  dict_set
    (fold_left (fun d item => dict_set d (snd item) (fst item)) KEY_MAPPING [])
    None "NOOP".

Fixpoint reverse_get (d : list (action_code * string)) (k : action_code)
    : option string :=
  match d with
  | [] => None
  | (k', v) :: d' => if action_code_eqb k k' then Some v else reverse_get d' k
  end.

(** [str(action)] *)
Definition str_of_action (a : action_code) : string :=
  match a with
  | None => "None"
  | Some (Instant c) => str_of_int c
  | Some (Hold c) => "('HOLD', " +:+ str_of_int c +:+ ")"
  end.

(** [REVERSE_KEY_MAPPING.get(action, str(action))] *)
Definition name_of (a : action_code) : string :=
  match reverse_get REVERSE_KEY_MAPPING a with
  | Some name => name
  | None => str_of_action a
  end.

(** Lines 61-68. *)
Definition actions_to_names (actions : list action_code) : string :=
  match actions with
  | [] => "None"
  | _ => join ", " (map name_of actions)
  end.

(** Lines 896-918: what running a segment appends to [executed_actions],
    the key codes pressed once and then the HOLD tuples. *)
Definition executed_in_segment (segment : list action_code) : list action_code :=
  map (fun c => Some (Instant c)) (instant_actions segment)
  ++ map (fun c => Some (Hold c)) (hold_actions segment).

(** [executed_actions] after the segments of a plan. *)
Definition executed_actions (actions : list (list action_code)) : list action_code :=
  concat (map executed_in_segment actions).

(** Lines 937-942: the names of a segment in the frame history. *)
Definition segment_action_names (segment : list action_code) : list string :=
  concat
    (map (fun a =>
            match a with
            | Some (Hold c) => ["HOLD_" +:+ name_of (Some (Instant c))]
            | Some (Instant c) => [name_of (Some (Instant c))]
            | None => []
            end)
       segment).

(** Line 943. *)
Definition action_name_str (segment : list action_code) : string :=
  match segment_action_names segment with
  | [] => "NOOP"
  | action_names => join ", " action_names
  end.

End Names.

(** ** [utils/gameplay_utils.py]: the summary and the scratchpad of a response *)

Module Tags.
Import Py Str.

(** A character of the text matches a character of a pattern compiled with
    [re.IGNORECASE] when both have the same lower case. *)
Definition same_letter (p c : ascii) : bool :=
  Ascii.eqb (lower_char p) (lower_char c).

(** The pattern matches at the start of the text, case ignored: what
    follows the match. *)
Fixpoint ci_strip_prefix (pat s : string) : option string :=
  match pat, s with
  | EmptyString, _ => Some s
  | String a pat', String b s' =>
      if same_letter a b then ci_strip_prefix pat' s' else None
  | String _ _, EmptyString => None
  end.

(** The text before and after the leftmost match of [pat], case ignored. *)
Fixpoint ci_partition (pat s : string) : option (string * string) :=
  match ci_strip_prefix pat s with
  | Some rest => Some (EmptyString, rest)
  | None =>
      match s with
      | EmptyString => None
      | String c s' =>
          match ci_partition pat s' with
          | Some (before, rest) => Some (String c before, rest)
          | None => None
          end
      end
  end.

(** [re.compile(r"<tag>(.*?)</tag>", re.IGNORECASE | re.DOTALL).search(text)],
    giving group 1: the leftmost opening tag, then the text up to the first
    closing tag after it, line breaks included. *)
Definition search_tag (opening closing text : string) : option string :=
  match ci_partition opening text with
  | None => None
  | Some (_, after_open) =>
      match ci_partition closing after_open with
      | None => None
      | Some (group1, _) => Some group1
      end
  end.

(** Lines 26-33. *)
Definition extract_summary_text (text : string) : option string :=
  match text with
  | EmptyString => None
  | _ =>
      match search_tag "<summary>" "</summary>" text with
      | Some group1 => Some (strip group1)
      | None => None
      end
  end.

(** Lines 36-43. *)
Definition extract_scratchpad_text (text : string) : option string :=
  match text with
  | EmptyString => None
  | _ =>
      match search_tag "<scratchpad>" "</scratchpad>" text with
      | Some group1 => Some (strip group1)
      | None => None
      end
  end.

End Tags.

(** ** [run_llm_eval.py]: the texts of the prompt *)

Module Prompt.
Import Py Str Tags.

(** The line feed. *)
Definition LF : string := String "010"%char EmptyString.

(** Lines 680-685. *)
Definition additional_controls (game_controls_text : string) : list string :=
  let game_controls_lower := lower game_controls_text in
  (if negb (contains "r" game_controls_lower)
      || negb (contains "restart" game_controls_lower)
   then ["R - Restart the game"%string] else [])
  ++ (if negb (contains "enter" game_controls_lower)
      then ["Enter - Start the game"%string] else []).

(** Lines 680-688: the controls text shown to the model. *)
Definition with_additional_controls (game_controls_text : string) : string :=
  match additional_controls game_controls_text with
  | [] => game_controls_text
  | controls =>
      game_controls_text +:+ LF +:+ LF +:+ "Additional Controls:" +:+ LF
      +:+ join LF controls
  end.

(** Lines 739-741: the scratchpad in the prompt. *)
Definition scratchpad_block (current_scratchpad_text : option string) : string :=
  match current_scratchpad_text with
  | Some (String c s) =>
      LF +:+ LF +:+ "<scratchpad>" +:+ LF +:+ String c s +:+ LF +:+ "</scratchpad>"
  | _ => EmptyString
  end.

(** Lines 871-878: the scratchpad kept after a response. *)
Definition update_scratchpad (current_scratchpad_text : option string)
    (assistant_output_text : string) : option string :=
  match extract_scratchpad_text assistant_output_text with
  | Some (String c s) => Some (String c s)
  | _ =>
      match current_scratchpad_text with
      | None => Some assistant_output_text
      | Some _ => current_scratchpad_text
      end
  end.

End Prompt.

(** ** [run_llm_eval.py]: the bookkeeping of the game loop

    The variables that the [while] loop of [run_one_game] (lines 690-1010)
    keeps from one decision cycle to the next, and what a cycle does to
    them.  What the outside gives a cycle is an [observation]: whether the
    canvas was found, what the page said about the end of the game, what
    the model answered, and which screenshots after a segment were not
    empty.  Files are written without error; the score, the screenshot
    paths and the time stamps of a log entry are left out. *)

Module GameLoop.
Import Py Str Parsing Scheduler Episode Names Prompt.

(** What the loop reads of [interface.generate]'s result: [output], and
    [token_usage] through [.get(key, 0)]. *)
Record response : Type :=
  { output : string;
    input_tokens : Z;
    output_tokens : Z;
    total_tokens : Z;
    reasoning_tokens : Z }.

Record observation : Type :=
  { canvas_found : bool;                (* line 704: find_canvas returned *)
    game_ended_before_pause : bool;     (* line 722 *)
    generated : option response;        (* line 795; None: an exception *)
    game_ended : bool;                  (* line 808 *)
    frame_captured : nat -> bool }.     (* line 928, by segment: the bytes are not empty *)

(** An entry of [gameplay_log] (lines 966-985). *)
Record log_entry : Type :=
  { log_episode : Z;
    log_step : Z;
    actions_executed : list action_code;
    llm_output : string;
    log_input_tokens : Z;
    log_output_tokens : Z;
    log_total_tokens : Z;
    log_reasoning_tokens : option Z;
    log_cumulative_input_tokens : Z;
    log_cumulative_output_tokens : Z;
    log_cumulative_total_tokens : Z;
    log_cumulative_reasoning_tokens : option Z }.

Record game : Type :=
  { successful_api_calls : Z;
    total_actions_count : Z;
    frame_index : Z;
    vars : locals;
    cumulative_input_tokens : Z;
    cumulative_output_tokens : Z;
    cumulative_total_tokens : Z;
    cumulative_reasoning_tokens : Z;
    last_executed_actions : list action_code;
    current_scratchpad_text : option string;
    gameplay_log : list log_entry }.

(** Lines 572-577 and 690-699. *)
Definition initial : game :=
  {| successful_api_calls := 0;
     total_actions_count := 0;
     frame_index := 0;
     vars := {| episode_count := 1; step_count := 0;
                frame_history := []; last_render_frames := [] |};
     cumulative_input_tokens := 0;
     cumulative_output_tokens := 0;
     cumulative_total_tokens := 0;
     cumulative_reasoning_tokens := 0;
     last_executed_actions := [];
     current_scratchpad_text := None;
     gameplay_log := [] |}.

(** What the segment loop changes. *)
Record progress : Type :=
  { executed : list action_code;
    frames : list frame_entry;
    next_frame : Z;
    actions_count : Z }.

(** Lines 894-955: one segment.  Its actions are appended to
    [executed_actions] and counted; when the screenshot after it is not
    empty, the frame counter advances and the frame enters the history. *)
Definition run_one_segment (o : observation) (episode step : Z)
    (segment_idx : nat) (segment : list action_code) (p : progress) : progress :=
  let executed_actions := executed p ++ executed_in_segment segment in
  let total := actions_count p + Z.of_nat (length (executed_in_segment segment)) in
  if frame_captured o segment_idx then
    {| executed := executed_actions;
       frames := frames p ++ [ {| fe_episode := episode; fe_step := step;
                                  action_index := segment_idx;
                                  action_name := action_name_str segment |} ];
       next_frame := next_frame p + 1;
       actions_count := total |}
  else
    {| executed := executed_actions; frames := frames p;
       next_frame := next_frame p; actions_count := total |}.

(** [enumerate(actions)] *)
Definition enumerate {A : Type} (l : list A) : list (nat * A) :=
  combine (seq 0 (length l)) l.

(** Lines 890-955: the loop over the segments; [budget_used] is the test
    of line 891, which no segment changes. *)
Fixpoint run_segments (budget_used : bool) (o : observation) (episode step : Z)
    (segments : list (nat * list action_code)) (p : progress) : progress :=
  match segments with
  | [] => p
  | (segment_idx, segment) :: rest =>
      if budget_used then p
      else run_segments budget_used o episode step rest
             (run_one_segment o episode step segment_idx segment p)
  end.

(** [x if x > 0 else None] *)
Definition positive_or_none (x : Z) : option Z := if 0 <? x then Some x else None.

(** One pass of the [while] loop: [Some] of the variables at the next
    test of the loop, [None] when an exception ends the loop. *)
Definition cycle (max_seconds : Z) (o : observation) (g : game) : option game :=
  if negb (canvas_found o) then Some g        (* lines 703-707: sleep, continue *)
  else
    match generated o with
    | None => None
    | Some r =>
        let successful_api_calls := successful_api_calls g + 1 in
        let vars :=
          if game_ended o || game_ended_before_pause o
          then new_episode (vars g) else vars g in
        let actions := parse_actions (output r) in
        let p :=
          run_segments (max_seconds <=? successful_api_calls) o
            (episode_count vars) (step_count vars) (enumerate actions)
            {| executed := []; frames := frame_history vars;
               next_frame := frame_index g;
               actions_count := total_actions_count g |} in
        let log_entry :=
          {| log_episode := episode_count vars;
             log_step := step_count vars;
             actions_executed := executed p;
             llm_output := output r;
             log_input_tokens := input_tokens r;
             log_output_tokens := output_tokens r;
             log_total_tokens := total_tokens r;
             log_reasoning_tokens := positive_or_none (reasoning_tokens r);
             log_cumulative_input_tokens := cumulative_input_tokens g;
             log_cumulative_output_tokens := cumulative_output_tokens g;
             log_cumulative_total_tokens := cumulative_total_tokens g;
             log_cumulative_reasoning_tokens :=
               positive_or_none (cumulative_reasoning_tokens g) |} in
        Some
          {| successful_api_calls := successful_api_calls;
             total_actions_count := actions_count p;
             frame_index := next_frame p;
             vars :=
               {| episode_count := episode_count vars;
                  step_count := step_count vars + 1;
                  frame_history := frames p;
                  last_render_frames :=
                    List.filter
                      (fun frame_entry =>
                         (fe_step frame_entry =? step_count vars)
                         && (fe_episode frame_entry =? episode_count vars))
                      (frames p) |};
             cumulative_input_tokens := cumulative_input_tokens g;
             cumulative_output_tokens := cumulative_output_tokens g;
             cumulative_total_tokens := cumulative_total_tokens g;
             cumulative_reasoning_tokens := cumulative_reasoning_tokens g;
             last_executed_actions := executed p;
             current_scratchpad_text :=
               update_scratchpad (current_scratchpad_text g) (output r);
             gameplay_log := gameplay_log g ++ [log_entry] |}
    end.

(** The [while successful_api_calls < args.max_seconds] loop over the
    observations of its passes: the variables when the loop has ended or
    the observations are used up. *)
Fixpoint run_one_game_loop (max_seconds : Z) (observations : list observation)
    (g : game) : game :=
  match observations with
  | [] => g
  | o :: rest =>
      if successful_api_calls g <? max_seconds then
        match cycle max_seconds o g with
        | Some g' => run_one_game_loop max_seconds rest g'
        | None => g
        end
      else g
  end.

(** The key of a log entry and of a frame: episode and step. *)
Definition log_key (e : log_entry) : Z * Z := (log_episode e, log_step e).

(** [(episode, step)] comes before the cycle [(episode_count, step_count)]. *)
Definition before_cycle (episode step : Z) (v : locals) : Prop :=
  episode < episode_count v \/ (episode = episode_count v /\ step < step_count v).

(** What the loop keeps about its budget of calls. *)
Definition budget_kept (max_seconds : Z) (g : game) : Prop :=
  Z.of_nat (length (gameplay_log g)) = successful_api_calls g
  /\ successful_api_calls g <= Z.max 0 max_seconds
  /\ forall (i : nat) e,
       gameplay_log g !! i = Some e ->
       actions_executed e
       = if Z.of_nat i + 1 <? max_seconds
         then executed_actions (parse_actions (llm_output e))
         else [].

(** What the loop keeps about the keys of its log. *)
Definition log_ordered (g : game) : Prop :=
  Forall (fun e => before_cycle (log_episode e) (log_step e) (vars g)) (gameplay_log g)
  /\ List.NoDup (map log_key (gameplay_log g)).

(** What the loop keeps about the cumulative counts of its log. *)
Definition cumulative_counts_unused (g : game) : Prop :=
  (cumulative_input_tokens g = 0 /\ cumulative_output_tokens g = 0
   /\ cumulative_total_tokens g = 0 /\ cumulative_reasoning_tokens g = 0)
  /\ Forall (fun e => log_cumulative_input_tokens e = 0
                      /\ log_cumulative_output_tokens e = 0
                      /\ log_cumulative_total_tokens e = 0
                      /\ log_cumulative_reasoning_tokens e = None)
       (gameplay_log g).

(** What the loop keeps about its frames. *)
Definition frames_ordered (g : game) : Prop :=
  Forall (fun f => before_cycle (fe_episode f) (fe_step f) (vars g))
    (frame_history (vars g))
  /\ exists older,
       frame_history (vars g) = older ++ last_render_frames (vars g)
       /\ (length (last_render_frames (vars g)) <= 5)%nat
       /\ Forall (fun f => fe_episode f = episode_count (vars g)
                           /\ fe_step f = step_count (vars g) - 1)
            (last_render_frames (vars g))
       /\ Forall (fun f => ~ (fe_episode f = episode_count (vars g)
                              /\ fe_step f = step_count (vars g) - 1))
            older.

End GameLoop.

(** ** The time a run of browser calls takes *)

Module Timing.
Import Browser.

(** [m] returns in every world, and the time it sleeps lies between
    [lo] and [hi] milliseconds. *)
Definition sleeps_between (lo hi : Z) {A : Type} (m : io A) : Prop :=
  forall w,
    is_Some (fst (m w))
    /\ exists evs,
         trace (snd (m w)) = trace w ++ evs
         /\ clock (snd (m w)) = clock w + slept evs
         /\ lo <= slept evs <= hi.

(** [m] returns or raises, and sleeps [hi] milliseconds at most. *)
Definition sleeps_at_most (hi : Z) {A : Type} (m : io A) : Prop :=
  forall w,
    exists evs,
      trace (snd (m w)) = trace w ++ evs
      /\ clock (snd (m w)) = clock w + slept evs
      /\ 0 <= slept evs <= hi.

End Timing.

(** ** [utils/llm_interface_utils/model_utils.py]: what is known of a model *)

Module ModelInfo.
Import Py.

(** A value of [MODEL_INFO]: a dict with these keys, some of them absent. *)
Record model_info : Type :=
  { type : string;
    family : option string;
    provider : option string;
    supports_thinking_flag : bool;
    thinking_format : option string;
    context_length : Z;
    recommended_device : option string;
    thinking_budget_default : option Z;
    thinking_budget_max : option Z }.

Definition local_model (family : string) (thinks : bool) (format : option string)
    (context : Z) : model_info :=
  {| type := "local"; family := Some family; provider := None;
     supports_thinking_flag := thinks; thinking_format := format;
     context_length := context; recommended_device := Some "cuda"%string;
     thinking_budget_default := None; thinking_budget_max := None |}.

Definition api_model (provider : string) (thinks : bool) (format : option string)
    (context : Z) : model_info :=
  {| type := "api"; family := None; provider := Some provider;
     supports_thinking_flag := thinks; thinking_format := format;
     context_length := context; recommended_device := None;
     thinking_budget_default := None; thinking_budget_max := None |}.

Definition gemini_model (context budget_default budget_max : Z) : model_info :=
  {| type := "api"; family := None; provider := Some "google"%string;
     supports_thinking_flag := true; thinking_format := Some "thinking"%string;
     context_length := context; recommended_device := None;
     thinking_budget_default := Some budget_default;
     thinking_budget_max := Some budget_max |}.

Definition MODEL_INFO : list (string * model_info) :=
  [ ("meta-llama/Llama-3.2-1B-Instruct", local_model "llama" false None 131072);
    ("meta-llama/Llama-3.2-3B-Instruct", local_model "llama" false None 131072);
    ("deepseek-ai/DeepSeek-R1-Distill-Qwen-1.5B",
     local_model "deepseek" true (Some "<think>") 32768);
    ("Qwen/Qwen2-7B-Instruct", local_model "qwen" false None 32768);
    ("gpt-5-mini-2025-08-07", api_model "openai" true (Some "reasoning") 128000);
    ("gpt-5-mini", api_model "openai" true (Some "reasoning") 128000);
    ("gpt-5-mini-reasoning", api_model "openai" true (Some "reasoning") 128000);
    ("gpt-4o-mini", api_model "openai" true (Some "reasoning") 128000);
    ("gpt-4o-2024-11-20", api_model "openai" true (Some "reasoning") 128000);
    ("claude-sonnet-4-20250514", api_model "anthropic" true (Some "thinking") 200000);
    ("claude-3-7-sonnet-20250219", api_model "anthropic" true (Some "thinking") 200000);
    ("gemini-2.5-flash", gemini_model 1000000 4000 24576);
    ("gemini-2.5-pro", gemini_model 2000000 (-1) 24576);
    ("grok-4-0709", api_model "xai" false None 256000);
    ("grok-4-1-fast-reasoning", api_model "xai" false None 256000);
    ("grok-2-1212", api_model "xai" false None 131072);
    ("grok-2-vision-1212", api_model "xai" false None 131072);
    ("grok-beta", api_model "xai" false None 131072);
    ("Qwen/Qwen2.5-72B-Instruct", api_model "togetherai" false None 32768);
    ("Qwen/Qwen2.5-32B-Instruct", api_model "togetherai" false None 32768);
    ("meta-llama/Llama-3.1-70B-Instruct", api_model "togetherai" false None 131072);
    ("meta-llama/Llama-3.1-8B-Instruct", api_model "togetherai" false None 131072);
    ("Qwen/Qwen3-235B", api_model "togetherai" false None 131072);
    ("meta-llama/Llama-4-Maverick", api_model "togetherai" false None 131072);
    ("THUDM/GLM-4.5", api_model "togetherai" false None 131072) ]%string.

(** Lines 233-239: the info of a model that [MODEL_INFO] does not know. *)
Definition default_info : model_info :=
  {| type := "unknown"; family := Some "unknown"%string; provider := None;
     supports_thinking_flag := false; thinking_format := None;
     context_length := 4096; recommended_device := Some "cuda"%string;
     thinking_budget_default := None; thinking_budget_max := None |}.

(** Lines 218-241.  (No value of [MODEL_INFO] is an empty dict.) *)
Definition get_model_info (model_name : string) : model_info :=
  match dict_get MODEL_INFO model_name with
  | Some info => info
  | None => default_info
  end.

Definition supports_thinking (model_name : string) : bool :=
  supports_thinking_flag (get_model_info model_name).

Definition get_thinking_format (model_name : string) : option string :=
  thinking_format (get_model_info model_name).

Definition get_recommended_device (model_name : string) : string :=
  match recommended_device (get_model_info model_name) with
  | Some device => device
  | None => "cuda"
  end.

Definition is_local_model (model_name : string) : bool :=
  String.eqb (type (get_model_info model_name)) "local".

Definition is_api_model (model_name : string) : bool :=
  String.eqb (type (get_model_info model_name)) "api".

Definition get_model_provider (model_name : string) : option string :=
  provider (get_model_info model_name).

Definition validate_model_name (model_name : string) : bool :=
  match dict_get MODEL_INFO model_name with Some _ => true | None => false end.

End ModelInfo.

(** ** [utils/llm_interface_utils/config_utils.py]: generation parameters *)

Module Config.
Import Py Str Json.

(** The keys of [get_model_defaults]'s dict; the floats are those of the
    decimal literals. *)
Record defaults : Type :=
  { temperature : pyfloat; top_p : pyfloat; max_tokens : Z; do_sample : bool }.

(** The float of a literal with one or two decimals. *)
Definition tenths (n : N) : pyfloat := FDec false n (-1).
Definition hundredths (n : N) : pyfloat := FDec false n (-2).

(** [defaults.update({...})]: [do_sample] stays. *)
Definition update (d : defaults) (temperature top_p : pyfloat) (max_tokens : Z)
    : defaults :=
  {| temperature := temperature; top_p := top_p; max_tokens := max_tokens;
     do_sample := do_sample d |}.

(** Lines 105-184. *)
Definition get_model_defaults (model_name : string) : defaults :=
  let defaults :=
    {| temperature := tenths 7; top_p := tenths 9; max_tokens := 512;
       do_sample := true |} in
  let name := lower model_name in
  if contains "llama" name then update defaults (tenths 6) (tenths 9) 512
  else if contains "qwen" name then update defaults (tenths 7) (tenths 8) 512
  else if contains "deepseek" name then update defaults (tenths 7) (hundredths 95) 1024
  else if contains "gpt" name then update defaults (tenths 10) (tenths 10) 512
  else if contains "claude" name then update defaults (tenths 10) (tenths 10) 512
  else if contains "gemini" name then update defaults (tenths 9) (tenths 10) 512
  else if contains "qwen" name
          && (contains "together" name || contains "Qwen3" model_name)
  then update defaults (tenths 7) (tenths 8) 2048
  else if contains "llama" name
          && (contains "together" name || contains "Maverick" model_name)
  then update defaults (tenths 6) (tenths 9) 2048
  else if contains "glm" name then update defaults (tenths 7) (tenths 9) 2048
  else if contains "grok" name then update defaults (tenths 7) (tenths 9) 2048
  else defaults.

(** Lines 72-78: what [validate_generation_params] keeps of a
    [max_tokens] that is not [None], a Python value: an [int] (a [bool] is
    one) that is at least 1, through [int()]. *)
Definition validated_max_tokens (max_tokens : value) : option Z :=
  match max_tokens with
  | JInt n => if n <? 1 then None else Some n
  | JBool true => Some 1
  | _ => None
  end.

End Config.

(** ** [llm_interface/api/anthropic_interface.py]: the request *)

Module Anthropic.
Import Py Str Json ModelInfo Config.

(** A content part of the harness: a dict of which these keys are read;
    their values are strings. *)
Record part : Type :=
  { part_type : option string;
    part_text : option string;
    part_data : option string;
    part_mime_type : option string;
    part_path : option string }.

(** A content block of the Anthropic API: a text, or an image as base64
    data with its media type. *)
Inductive block : Type :=
| BlockText (text : string)
| BlockImage (media_type data : string).

(** [d.get(key, default)] for a string. *)
Definition get_or (field : option string) (default : string) : string :=
  match field with Some s => s | None => default end.

Section WithFiles.
(** [_encode_file_to_base64(path)] for a path that exists: the
    base64 text, or [None] for a file that cannot be read; [None] also for
    a path that does not exist. *)
Variable encode_file : string -> option string.

(** Lines 79-115: the blocks of one part. *)
Definition process_part (p : part) : list block :=
  let part_type := get_or (part_type p) "" in
  if String.eqb part_type "text" || String.eqb part_type "input_text" then
    match get_or (part_text p) "" with
    | EmptyString => []
    | text_value => [BlockText text_value]
    end
  else if String.eqb part_type "image_base64" then
    let mime_type := get_or (part_mime_type p) "image/png" in
    match part_data p with
    | None | Some EmptyString => []
    | Some base64_data =>
        let base64_data :=
          match strip_prefix "data:" base64_data with
          | Some _ =>
              match partition "," base64_data with
              | Some (_, after_comma) => after_comma
              | None => base64_data
              end
          | None => base64_data
          end in
        [BlockImage mime_type base64_data]
    end
  else if String.eqb part_type "image_path" then
    let mime_type := get_or (part_mime_type p) "image/png" in
    match part_path p with
    | None | Some EmptyString => []
    | Some file_path =>
        match encode_file file_path with
        | None | Some EmptyString => []
        | Some base64_data => [BlockImage mime_type base64_data]
        end
    end
  else [].

(** Lines 70-121: [content] is a string or a list of parts. *)
Definition _process_message_content (content : string + list part) : list block :=
  match content with
  | inl text => [BlockText text]
  | inr parts =>
      match concat (map process_part parts) with
      | [] => [BlockText EmptyString]
      | processed_content => processed_content
      end
  end.

(** A message: [role] (absent: [user]) and [content] (absent: the empty
    string). *)
Record message : Type :=
  { role : option string; content : option (string + list part) }.

(** Lines 189-194: the system prompt of a system message. *)
Definition system_text (content : string + list part) : string :=
  match content with
  | inl text => text
  | inr parts =>
      Str.join " "
        (map (fun p => get_or (part_text p) "")
           (List.filter
              (fun p => match part_type p with
                        | Some t => String.eqb t "text"
                        | None => false
                        end) parts))
  end.

(** [msg.get('role', 'user')] and [msg.get('content', '')] *)
Definition message_role (msg : message) : string := get_or (role msg) "user".

Definition message_content (msg : message) : string + list part :=
  match content msg with Some c => c | None => inl EmptyString end.

Definition is_system (msg : message) : bool :=
  String.eqb (message_role msg) "system".

(** Lines 183-205: one pass of the loop over the messages, the messages
    for the API and the extracted system prompt threaded. *)
Definition read_message (acc : list (string * list block) * option string)
    (msg : message) : list (string * list block) * option string :=
  let role := message_role msg in
  let content := message_content msg in
  if String.eqb role "system" then (fst acc, Some (system_text content))
  else
    match _process_message_content content with
    | [] => acc
    | processed_content => (fst acc ++ [(role, processed_content)], snd acc)
    end.

(** Lines 180-209: the messages for the API, and the system prompt. *)
Definition read_messages (messages : list message) (system_prompt : option string)
    : list (string * list block) * option string :=
  let (anthropic_messages, extracted_system_prompt) :=
    fold_left read_message messages ([], system_prompt) in
  (anthropic_messages,
   match extracted_system_prompt with
   | Some (String c s) => Some (String c s)
   | _ => system_prompt
   end).

End WithFiles.

(** The keyword arguments of [client.messages.create] besides the model
    and the messages; [None] is an absent key. *)
Record api_params : Type :=
  { api_max_tokens : Z;
    api_system : option string;
    api_reasoning_effort : option string;
    api_temperature : option pyfloat;
    api_top_p : option pyfloat }.

(** Lines 48-50: [self.enable_thinking] after [__init__]. *)
Definition enable_thinking_of (model_name : string) (enable_thinking : bool) : bool :=
  if enable_thinking && negb (supports_thinking model_name) then false
  else enable_thinking.

(** Lines 160-171 and 233-254: [max_tokens] is the argument of [generate],
    [None] or a Python value. *)
Definition build_api_params (model_name : string) (enable_thinking : bool)
    (system_prompt : option string) (temperature top_p : option pyfloat)
    (max_tokens : option value) : api_params :=
  let defaults := get_model_defaults model_name in
  let final_max_tokens :=
    match max_tokens with
    | None => Config.max_tokens defaults
    | Some v =>
        match validated_max_tokens v with
        | Some n => n
        | None => Config.max_tokens defaults
        end
    end in
  let system :=
    match system_prompt with
    | Some (String c s) => Some (String c s)
    | _ => None
    end in
  if enable_thinking_of model_name enable_thinking && supports_thinking model_name then
    {| api_max_tokens := final_max_tokens; api_system := system;
       api_reasoning_effort := Some "medium"%string;
       api_temperature := None; api_top_p := None |}
  else
    match temperature with
    | Some t =>
        {| api_max_tokens := final_max_tokens; api_system := system;
           api_reasoning_effort := None;
           api_temperature := Some t; api_top_p := None |}
    | None =>
        {| api_max_tokens := final_max_tokens; api_system := system;
           api_reasoning_effort := None;
           api_temperature := None; api_top_p := top_p |}
    end.

End Anthropic.

(** * Properties *)

(** ** Facts about Python strings *)

Module PyFacts.
Import Py.

Lemma append_empty (s : string) : EmptyString +:+ s = s.
Proof. reflexivity. Qed.

Lemma append_cons (c : ascii) (s t : string) : String c s +:+ t = String c (s +:+ t).
Proof. reflexivity. Qed.

Lemma strip_prefix_app (p s rest : string) :
  strip_prefix p s = Some rest <-> s = p +:+ rest.
Proof.
  revert s; induction p as [|a p IH]; intros s; simpl.
  - rewrite append_empty. split; intros H; congruence.
  - rewrite append_cons.
    destruct s as [|b s]; [split; intros H; discriminate|].
    destruct (Ascii.eqb_spec a b) as [->|Hne].
    + rewrite IH. split; intros H; congruence.
    + split; intros H; [discriminate | congruence].
Qed.

Lemma partition_app (pat s before rest : string) :
  partition pat s = Some (before, rest) -> s = before +:+ pat +:+ rest.
Proof.
  revert before; induction s as [|c s IH]; intros before; simpl.
  - destruct (strip_prefix pat EmptyString) as [r|] eqn:E; [|discriminate].
    intros [= <- <-]. now apply strip_prefix_app in E.
  - destruct (strip_prefix pat (String c s)) as [r|] eqn:E.
    + intros [= <- <-]. now apply strip_prefix_app in E.
    + destruct (partition pat s) as [[b r]|]; [|discriminate].
      intros [= <- <-]. rewrite append_cons. f_equal. now apply IH.
Qed.

Lemma partition_complete (pat before rest : string) :
  partition pat (before +:+ pat +:+ rest) <> None.
Proof.
  induction before as [|c before IH].
  - rewrite append_empty.
    pose proof (proj2 (strip_prefix_app pat (pat +:+ rest) rest) eq_refl) as E.
    destruct pat, rest; simpl in *; rewrite ?E; discriminate.
  - rewrite append_cons. simpl.
    destruct (strip_prefix pat (String c (before +:+ pat +:+ rest))); [discriminate|].
    destruct (partition pat (before +:+ pat +:+ rest)) as [[b r]|]; [discriminate|].
    contradiction.
Qed.

(** [pat in s] holds exactly when [s] is some text, [pat], some text. *)
Lemma contains_spec (pat s : string) :
  contains pat s = true <-> exists before rest, s = before +:+ pat +:+ rest.
Proof.
  unfold contains. split.
  - destruct (partition pat s) as [[b r]|] eqn:E; [|discriminate].
    intros _. exists b, r. now apply partition_app.
  - intros (b & r & ->).
    pose proof (partition_complete pat b r).
    destruct (partition pat (b +:+ pat +:+ r)); congruence.
Qed.

Lemma append_assoc (a b c : string) : (a +:+ b) +:+ c = a +:+ b +:+ c.
Proof.
  induction a as [|x a IH]; [reflexivity|].
  rewrite !append_cons. now rewrite IH.
Qed.

Lemma append_length (a b : string) : len (a +:+ b) = (len a + len b)%nat.
Proof.
  induction a as [|x a IH]; [reflexivity|].
  rewrite append_cons. cbn. now rewrite IH.
Qed.

(** Two ways of cutting a text: the shorter head is a head of the longer. *)
Lemma append_split (a u b v : string) :
  a +:+ u = b +:+ v -> (len a <= len b)%nat ->
  exists d, b = a +:+ d /\ u = d +:+ v.
Proof.
  revert b; induction a as [|x a IH]; intros b H L.
  - exists b. now rewrite append_empty in *.
  - destruct b as [|y b]; [cbn in L; lia|].
    rewrite !append_cons in H. injection H as -> H.
    destruct (IH b H) as (d & -> & ->); [cbn in L; lia|].
    exists d. now rewrite append_cons.
Qed.

(** [partition] finds the leftmost occurrence. *)
Lemma partition_leftmost (pat s before rest a r : string) :
  partition pat s = Some (before, rest) ->
  s = a +:+ pat +:+ r ->
  (len before <= len a)%nat.
Proof.
  revert before a; induction s as [|c s IH]; intros before a; cbn [partition].
  - destruct (strip_prefix pat EmptyString); [|discriminate].
    intros [= <- _] _. cbn. lia.
  - destruct (strip_prefix pat (String c s)) as [r0|] eqn:E.
    + intros [= <- _] _. cbn. lia.
    + destruct (partition pat s) as [[b0 r0]|] eqn:P; [|discriminate].
      intros [= <- <-] H. destruct a as [|x a].
      * rewrite append_empty in H.
        pose proof (proj2 (strip_prefix_app pat (String c s) r) H). congruence.
      * rewrite append_cons in H. injection H as _ H.
        cbn. apply le_n_S. now apply (IH b0 a).
Qed.

End PyFacts.

(** ** The JSON decoder has fuel enough *)

Module JsonFacts.
Import Py Json.


Lemma skip_ws_length (s : string) : (len (skip_ws s) <= len s)%nat.
Proof.
  induction s as [|c s IH]; cbn; [lia|].
  destruct (is_ws c); cbn; lia.
Qed.

Lemma strip_prefix_length (p s r : string) :
  strip_prefix p s = Some r -> len s = (len p + len r)%nat.
Proof.
  revert s; induction p as [|a p IH]; intros s; cbn.
  - now intros [= ->].
  - destruct s as [|b s]; [discriminate|].
    destruct (Ascii.eqb a b); [|discriminate].
    intros H. cbn. now rewrite (IH s H).
Qed.

Lemma cons_char_length (c : N) (o : option (Unicode.str * string)) (b : Unicode.str)
    (r : string) (n : nat) :
  cons_char c o = Some (b, r) ->
  (forall b' r', o = Some (b', r') -> (len r' < n)%nat) ->
  (len r < n)%nat.
Proof.
  destruct o as [[b' r']|]; cbn; [|discriminate].
  intros [= <- <-] H. now apply (H b').
Qed.

Lemma scanstring_length_bounded (n : nat) (s : string) (b : Unicode.str) (r : string) :
  (len s <= n)%nat -> scanstring s = Some (b, r) -> (len r < len s)%nat.
Proof.
  revert s b r. induction n as [|n IH]; intros s b r Hn.
  { destruct s; [discriminate | cbn in Hn; lia]. }
  destruct s as [|c rest]; cbn [scanstring]; [discriminate|].
  cbn [String.length] in *.
  destruct (Ascii.eqb c dquote); [intros [= <- <-]; lia|].
  destruct (Ascii.eqb c "\"%char).
  - destruct rest as [|e rest1]; [discriminate|].
    destruct (Ascii.eqb e "u"%char).
    + destruct rest1 as [|h1 [|h2 [|h3 [|h4 rest2]]]]; try discriminate.
      destruct (decode_uXXXX h1 h2 h3 h4) as [uni|]; [|discriminate].
      assert (Hsingle : cons_char uni (scanstring rest2) = Some (b, r) ->
                        (len r < S (S (S (S (S (S (len rest2)))))))%nat).
      { intros H. eapply cons_char_length in H; [apply Nat.lt_lt_succ_r, H|].
        intros b' r' H'. apply IH in H'; cbn [String.length] in *; lia. }
      destruct (is_high_surrogate uni); [|exact Hsingle].
      destruct rest2 as [|k [|u rest3]]; try exact Hsingle.
      destruct (Ascii.eqb k "\"%char && Ascii.eqb u "u"%char); [|exact Hsingle].
      destruct rest3 as [|k1 [|k2 [|k3 [|k4 rest4]]]]; try discriminate.
      destruct (decode_uXXXX k1 k2 k3 k4) as [uni2|]; [|discriminate].
      destruct (is_low_surrogate uni2); [|exact Hsingle].
      intros H. eapply cons_char_length in H; [apply Nat.lt_lt_succ_r, H|].
      intros b' r' H'. apply IH in H'; cbn [String.length] in *; lia.
    + destruct (unescape e); [|discriminate].
      intros H. eapply cons_char_length in H; [apply Nat.lt_lt_succ_r, H|].
      intros b' r' H'. apply IH in H'; cbn [String.length] in *; lia.
  - destruct (code c <? 32)%N; [discriminate|].
    intros H. eapply cons_char_length in H; [apply Nat.lt_lt_succ_r, H|].
    intros b' r' H'. apply IH in H'; cbn [String.length] in *; lia.
Qed.

Lemma scanstring_length (s : string) (b : Unicode.str) (r : string) :
  scanstring s = Some (b, r) -> (len r < len s)%nat.
Proof. now apply (scanstring_length_bounded (len s)). Qed.

Lemma span_digits_length (s ds r : string) :
  span_digits s = (ds, r) -> len s = (len ds + len r)%nat.
Proof.
  revert ds r; induction s as [|c s IH]; intros ds r; cbn.
  - now intros [= <- <-].
  - destruct (is_digit c); [|now intros [= <- <-]].
    destruct (span_digits s) as [ds' r'] eqn:E. intros [= <- <-].
    cbn. now rewrite (IH ds' r' eq_refl).
Qed.

Lemma match_integer_length (s : string) (neg : bool) (ds r : string) :
  match_integer s = Some (neg, ds, r) -> (len r < len s)%nat.
Proof.
  unfold match_integer.
  assert (H : forall s1 (neg' : bool),
            match s1 with
            | String c r' =>
                if Ascii.eqb c "0"%char then Some (neg', String c EmptyString, r')
                else if is_digit c then
                  let (ds', rest) := span_digits r' in Some (neg', String c ds', rest)
                else None
            | EmptyString => None
            end = Some (neg, ds, r) -> (len r < len s1)%nat).
  { intros [|c r'] neg'; [discriminate|].
    destruct (Ascii.eqb c "0"%char); [intros [= _ _ <-]; cbn; lia|].
    destruct (is_digit c); [|discriminate].
    destruct (span_digits r') as [ds' rest] eqn:E. intros [= _ _ <-].
    apply span_digits_length in E. cbn. lia. }
  destruct s as [|c s']; [discriminate|].
  destruct (Ascii.eqb c "-"%char); intros E.
  - apply (H s' true) in E. cbn. lia.
  - apply (H (String c s') false) in E. exact E.
Qed.

Lemma match_frac_length (s ds r : string) :
  match_frac s = Some (ds, r) -> (len r < len s)%nat.
Proof.
  destruct s as [|c s']; cbn; [discriminate|].
  destruct (Ascii.eqb c "."%char); [|discriminate].
  destruct (span_digits s') as [ds' rest] eqn:E.
  apply span_digits_length in E.
  destruct ds'; [discriminate|]. intros [= <- <-]. cbn in *. lia.
Qed.

Lemma match_exp_length (s : string) (e : Z) (r : string) :
  match_exp s = Some (e, r) -> (len r < len s)%nat.
Proof.
  destruct s as [|c s']; cbn; [discriminate|].
  destruct (Ascii.eqb c "e"%char || Ascii.eqb c "E"%char); [|discriminate].
  set (sign := match s' with
               | String sg r2 =>
                   if Ascii.eqb sg "-"%char then (true, r2)
                   else if Ascii.eqb sg "+"%char then (false, r2)
                   else (false, s')
               | EmptyString => (false, s')
               end).
  assert (Hs : (len (snd sign) <= len s')%nat).
  { subst sign. destruct s' as [|sg r2]; cbn; [lia|].
    destruct (Ascii.eqb sg "-"%char); cbn; [lia|].
    destruct (Ascii.eqb sg "+"%char); cbn; lia. }
  destruct sign as [negative r1]. cbn in Hs.
  destruct (span_digits r1) as [ds rest] eqn:E.
  apply span_digits_length in E.
  destruct ds; [discriminate|]. intros [= _ <-]. cbn in *. lia.
Qed.

Lemma match_number_length (s : string) (v : value) (r : string) :
  match_number s = Some (v, r) -> (len r < len s)%nat.
Proof.
  unfold match_number.
  destruct (match_integer s) as [[[neg ds] rest]|] eqn:Ei; [|discriminate].
  apply match_integer_length in Ei.
  destruct (match_frac rest) as [[fd r1]|] eqn:Ef.
  - apply match_frac_length in Ef.
    destruct (match_exp r1) as [[e r2]|] eqn:Ee.
    + apply match_exp_length in Ee. intros [= _ <-]. lia.
    + intros [= _ <-]. lia.
  - destruct (match_exp rest) as [[e r2]|] eqn:Ee.
    + apply match_exp_length in Ee. intros [= _ <-]. lia.
    + intros [= _ <-]. lia.
Qed.


Lemma scan_atom_consumes : consumes scan_atom.
Proof.
  intros s v r. unfold scan_atom.
  destruct (strip_prefix "null" s) as [r0|] eqn:E0.
  { intros [= _ <-]. apply strip_prefix_length in E0. cbn in E0. lia. }
  destruct (strip_prefix "true" s) as [r1|] eqn:E1.
  { intros [= _ <-]. apply strip_prefix_length in E1. cbn in E1. lia. }
  destruct (strip_prefix "false" s) as [r2|] eqn:E2.
  { intros [= _ <-]. apply strip_prefix_length in E2. cbn in E2. lia. }
  destruct (match_number s) as [[v' r']|] eqn:En.
  { intros [= _ <-]. now apply match_number_length in En. }
  destruct (strip_prefix "NaN" s) as [r3|] eqn:E3.
  { intros [= _ <-]. apply strip_prefix_length in E3. cbn in E3. lia. }
  destruct (strip_prefix "Infinity" s) as [r4|] eqn:E4.
  { intros [= _ <-]. apply strip_prefix_length in E4. cbn in E4. lia. }
  destruct (strip_prefix "-Infinity" s) as [r5|] eqn:E5; [|discriminate].
  intros [= _ <-]. apply strip_prefix_length in E5. cbn in E5. lia.
Qed.

Lemma json_array_consumes items : consumes items -> consumes (json_array items).
Proof.
  intros Hi rest v r. unfold json_array.
  pose proof (skip_ws_length rest) as Hw.
  destruct (skip_ws rest) as [|c1 r1]; [discriminate|].
  destruct (Ascii.eqb c1 "]"%char); [intros [= _ <-]; cbn in *; lia|].
  destruct (items (String c1 r1)) as [[vs r']|] eqn:E; [|discriminate].
  intros [= _ <-]. apply Hi in E. lia.
Qed.

Lemma json_object_consumes pairs : consumes pairs -> consumes (json_object pairs).
Proof.
  intros Hp rest v r. unfold json_object.
  pose proof (skip_ws_length rest) as Hw.
  destruct (skip_ws rest) as [|c1 r1]; [discriminate|].
  destruct (Ascii.eqb c1 "}"%char); [intros [= _ <-]; cbn in *; lia|].
  destruct (Ascii.eqb c1 dquote); [|discriminate].
  destruct (pairs r1) as [[ps r']|] eqn:E; [|discriminate].
  intros [= _ <-]. apply Hp in E. cbn in *. lia.
Qed.

Lemma scan_step_consumes items pairs :
  consumes items -> consumes pairs -> consumes (scan_step items pairs).
Proof.
  intros Hi Hp s v r. unfold scan_step.
  destruct s as [|c rest]; [discriminate|].
  destruct (Ascii.eqb c dquote).
  { destruct (scanstring rest) as [[body r']|] eqn:E; [|discriminate].
    intros [= _ <-]. apply scanstring_length in E. cbn. lia. }
  destruct (Ascii.eqb c "{"%char).
  { intros H. apply (json_object_consumes pairs Hp) in H. cbn. lia. }
  destruct (Ascii.eqb c "["%char).
  { intros H. apply (json_array_consumes items Hi) in H. cbn. lia. }
  apply scan_atom_consumes.
Qed.

Lemma array_step_consumes scan items :
  consumes scan -> consumes items -> consumes (array_step scan items).
Proof.
  intros Hs Hi s vs r. unfold array_step.
  destruct (scan s) as [[v r0]|] eqn:E; [|discriminate]. apply Hs in E.
  pose proof (skip_ws_length r0) as Hw.
  destruct (skip_ws r0) as [|c r1]; [discriminate|]. cbn in Hw.
  destruct (Ascii.eqb c "]"%char); [intros [= _ <-]; lia|].
  destruct (Ascii.eqb c ","%char); [|discriminate].
  pose proof (skip_ws_length r1) as Hw1.
  destruct (items (skip_ws r1)) as [[vs' r2]|] eqn:E2; [|discriminate].
  intros [= _ <-]. apply Hi in E2. lia.
Qed.

Lemma object_step_consumes scan pairs :
  consumes scan -> consumes pairs -> consumes (object_step scan pairs).
Proof.
  intros Hs Hp s ps r. unfold object_step.
  destruct (scanstring s) as [[key r0]|] eqn:E; [|discriminate].
  apply scanstring_length in E.
  pose proof (skip_ws_length r0) as Hw.
  destruct (skip_ws r0) as [|colon r1]; [discriminate|]. cbn in Hw.
  destruct (Ascii.eqb colon ":"%char); [|discriminate].
  pose proof (skip_ws_length r1) as Hw1.
  destruct (scan (skip_ws r1)) as [[v r2]|] eqn:E2; [|discriminate]. apply Hs in E2.
  pose proof (skip_ws_length r2) as Hw2.
  destruct (skip_ws r2) as [|c r3]; [discriminate|]. cbn in Hw2.
  destruct (Ascii.eqb c "}"%char); [intros [= _ <-]; lia|].
  destruct (Ascii.eqb c ","%char); [|discriminate].
  pose proof (skip_ws_length r3) as Hw3.
  destruct (skip_ws r3) as [|q r4]; [discriminate|]. cbn in Hw3.
  destruct (Ascii.eqb q dquote); [|discriminate].
  destruct (pairs r4) as [[ps' r5]|] eqn:E5; [|discriminate].
  intros [= _ <-]. apply Hp in E5. lia.
Qed.

Lemma scanners_consume (fuel : nat) :
  consumes (scan_once fuel) /\ consumes (array_items fuel) /\ consumes (object_pairs fuel).
Proof.
  induction fuel as [|fuel (Hs & Hi & Hp)].
  - repeat split; intros s a r; discriminate.
  - split; [|split]; cbn [scan_once array_items object_pairs].
    + now apply scan_step_consumes.
    + now apply array_step_consumes.
    + now apply object_step_consumes.
Qed.
(** The steps only use their scanners on shorter texts. *)
Lemma json_array_ext items items' (rest : string) :
  (forall s', (len s' <= len rest)%nat -> items s' = items' s') ->
  json_array items rest = json_array items' rest.
Proof.
  intros H. unfold json_array. pose proof (skip_ws_length rest) as Hw.
  destruct (skip_ws rest) as [|c1 r1]; [reflexivity|].
  now rewrite (H (String c1 r1)) by exact Hw.
Qed.

Lemma json_object_ext pairs pairs' (rest : string) :
  (forall s', (len s' < len rest)%nat -> pairs s' = pairs' s') ->
  json_object pairs rest = json_object pairs' rest.
Proof.
  intros H. unfold json_object. pose proof (skip_ws_length rest) as Hw.
  destruct (skip_ws rest) as [|c1 r1]; [reflexivity|]. cbn in Hw.
  now rewrite (H r1) by lia.
Qed.

Lemma scan_step_ext items items' pairs pairs' (s : string) :
  (forall s', (len s' < len s)%nat -> items s' = items' s') ->
  (forall s', (len s' < len s)%nat -> pairs s' = pairs' s') ->
  scan_step items pairs s = scan_step items' pairs' s.
Proof.
  intros Hi Hp. unfold scan_step. destruct s as [|c rest]; [reflexivity|].
  cbn [String.length] in *.
  rewrite (json_object_ext pairs pairs' rest) by (intros; apply Hp; lia).
  rewrite (json_array_ext items items' rest) by (intros; apply Hi; lia).
  reflexivity.
Qed.

Lemma array_step_ext scan scan' items items' (s : string) :
  consumes scan ->
  scan s = scan' s ->
  (forall s', (len s' + 2 <= len s)%nat -> items s' = items' s') ->
  array_step scan items s = array_step scan' items' s.
Proof.
  intros Hc Hs Hi. unfold array_step. rewrite <- Hs.
  destruct (scan s) as [[v r]|] eqn:E; [|reflexivity]. apply Hc in E.
  pose proof (skip_ws_length r) as Hw.
  destruct (skip_ws r) as [|c r1]; [reflexivity|]. cbn in Hw.
  pose proof (skip_ws_length r1) as Hw1.
  now rewrite (Hi (skip_ws r1)) by lia.
Qed.

Lemma object_step_ext scan scan' pairs pairs' (s : string) :
  consumes scan ->
  (forall s', (len s' + 2 <= len s)%nat -> scan s' = scan' s') ->
  (forall s', (len s' + 2 <= len s)%nat -> pairs s' = pairs' s') ->
  object_step scan pairs s = object_step scan' pairs' s.
Proof.
  intros Hc Hs Hp. unfold object_step.
  destruct (scanstring s) as [[key r]|] eqn:E; [|reflexivity].
  apply scanstring_length in E.
  pose proof (skip_ws_length r) as Hw.
  destruct (skip_ws r) as [|colon r1]; [reflexivity|]. cbn in Hw.
  pose proof (skip_ws_length r1) as Hw1.
  rewrite <- (Hs (skip_ws r1)) by lia.
  destruct (scan (skip_ws r1)) as [[v r2]|] eqn:E2; [|reflexivity]. apply Hc in E2.
  pose proof (skip_ws_length r2) as Hw2.
  destruct (skip_ws r2) as [|c r3]; [reflexivity|]. cbn in Hw2.
  pose proof (skip_ws_length r3) as Hw3.
  destruct (skip_ws r3) as [|q r4]; [reflexivity|]. cbn in Hw3.
  now rewrite (Hp r4) by lia.
Qed.

(** One more unit of fuel changes nothing once the fuel exceeds twice the
    length of the text. *)
Lemma scanners_fuel_step (fuel : nat) :
  (forall s, (2 * len s + 1 <= fuel)%nat -> scan_once fuel s = scan_once (S fuel) s)
  /\ (forall s, (2 * len s + 2 <= fuel)%nat -> array_items fuel s = array_items (S fuel) s)
  /\ (forall s, (2 * len s + 2 <= fuel)%nat ->
        object_pairs fuel s = object_pairs (S fuel) s).
Proof.
  induction fuel as [|fuel (Hs & Hi & Hp)].
  - repeat split; intros s H; lia.
  - destruct (scanners_consume fuel) as (Cs & _ & _).
    split; [|split]; intros s H.
    + change (scan_step (array_items fuel) (object_pairs fuel) s
              = scan_step (array_items (S fuel)) (object_pairs (S fuel)) s).
      apply scan_step_ext; intros s' H'; [apply Hi | apply Hp]; lia.
    + change (array_step (scan_once fuel) (array_items fuel) s
              = array_step (scan_once (S fuel)) (array_items (S fuel)) s).
      apply array_step_ext; [exact Cs | apply Hs; lia |].
      intros s' H'. apply Hi. lia.
    + change (object_step (scan_once fuel) (object_pairs fuel) s
              = object_step (scan_once (S fuel)) (object_pairs (S fuel)) s).
      apply object_step_ext; [exact Cs | |]; intros s' H'; [apply Hs | apply Hp]; lia.
Qed.

(** [scan_once] with fuel above twice the length of the text does not depend
    on the fuel: no value is lost for lack of fuel. *)
Lemma scan_once_fuel (fuel more : nat) (s : string) :
  (2 * len s + 1 <= fuel)%nat -> scan_once (fuel + more) s = scan_once fuel s.
Proof.
  intros H. induction more as [|more IH].
  - now rewrite Nat.add_0_r.
  - rewrite Nat.add_succ_r, <- IH.
    symmetry. apply (proj1 (scanners_fuel_step (fuel + more))). lia.
Qed.

(** [loads] gives what any larger fuel gives. *)
Lemma loads_fuel (more : nat) (s : string) :
  loads_with (2 * len s + 2 + more) s = loads s.
Proof.
  unfold loads, loads_with. rewrite scan_once_fuel; [reflexivity|].
  pose proof (skip_ws_length s). lia.
Qed.

End JsonFacts.

(** ** The action plan of a response *)

Module ParsingFacts.
Import Py PyFacts Json Parsing.

(** The match of [<keys>(.*?)</keys>]: the text holds the group between the
    two tags. *)
Lemma search_keys_some (response_text group1 : string) :
  search_keys response_text = Some group1 ->
  exists before after,
    response_text = before +:+ "<keys>" +:+ group1 +:+ "</keys>" +:+ after.
Proof.
  unfold search_keys.
  destruct (partition "<keys>" response_text) as [[before r0]|] eqn:P; [|discriminate].
  destruct (partition "</keys>" r0) as [[g after]|] eqn:Q; [|discriminate].
  intros [= <-]. exists before, after.
  apply partition_app in P. apply partition_app in Q. now rewrite P, Q.
Qed.

(** There is no match exactly when the text holds no opening tag with a
    closing tag after it. *)
Lemma search_keys_none (response_text : string) :
  search_keys response_text = None
  <-> forall before inner after,
        response_text <> before +:+ "<keys>" +:+ inner +:+ "</keys>" +:+ after.
Proof.
  split.
  - unfold search_keys. intros H before inner after E.
    destruct (partition "<keys>" response_text) as [[b0 r0]|] eqn:P.
    + pose proof (partition_leftmost _ _ _ _ _ _ P E) as L.
      apply partition_app in P. rewrite P in E.
      destruct (append_split _ _ _ _ E L) as (d & _ & E1).
      assert (L1 : (len "<keys>" <= len (d +:+ "<keys>"))%nat)
        by (rewrite append_length; lia).
      rewrite <- append_assoc in E1.
      destruct (append_split _ _ _ _ E1 L1) as (d' & _ & E2).
      rewrite <- append_assoc in E2.
      pose proof (partition_complete "</keys>" (d' +:+ inner) after) as C.
      rewrite <- E2 in C.
      destruct (partition "</keys>" r0) as [[g a]|]; [discriminate | contradiction].
    + rewrite E in P. now apply (partition_complete "<keys>" before) in P.
  - intros H. destruct (search_keys response_text) as [g|] eqn:E; [|reflexivity].
    destruct (search_keys_some _ _ E) as (b & a & E'). now apply H in E'.
Qed.

Lemma parse_action_name_app (acc : list action_code) (item : value) :
  parse_action_name acc item = acc ++ parse_action_name [] item.
Proof.
  unfold parse_action_name.
  destruct (key_mapping_get _); [reflexivity|].
  destruct (Unicode.eqb _ _); [reflexivity|].
  now rewrite app_nil_r.
Qed.

(** The inner loop appends, item by item, what each item stands for. *)
Lemma fold_parse_action_name (items : list value) (acc : list action_code) :
  fold_left parse_action_name items acc
  = acc ++ concat (map (parse_action_name []) items).
Proof.
  revert acc; induction items as [|item items IH]; intros acc; simpl.
  - now rewrite app_nil_r.
  - rewrite IH, (parse_action_name_app acc item). now rewrite <- app_assoc.
Qed.

Lemma parse_segment_app (a b : list value) :
  parse_segment (JArr (a ++ b)) = parse_segment (JArr a) ++ parse_segment (JArr b).
Proof.
  unfold parse_segment. rewrite !fold_parse_action_name. simpl.
  now rewrite map_app, concat_app.
Qed.

Lemma pad_or_truncate_length (segments : list value) :
  length (pad_or_truncate segments) = 5%nat.
Proof.
  unfold pad_or_truncate.
  destruct (Nat.eqb_spec (length segments) 5) as [E|E]; [exact E|].
  destruct (Nat.ltb_spec (length segments) 5) as [L|L].
  - rewrite length_app, repeat_length. lia.
  - rewrite length_firstn. lia.
Qed.

(** X1.  The plan has five segments or none, and it has none exactly when
    the response has a keys block that decodes to something that is not a
    list. *)
Lemma parse_actions_length (response_text : string) :
  (length (parse_actions response_text) = 5%nat \/ parse_actions response_text = [])
  /\ (parse_actions response_text = []
      <-> exists group1 v,
            search_keys response_text = Some group1
            /\ loads (actions_str group1) = Some v
            /\ forall items, v <> JArr items).
Proof.
  unfold parse_actions.
  destruct (search_keys response_text) as [group1|] eqn:Hs.
  2:{ split; [now left|]. split; [discriminate|]. now intros (g & v & [=] & _). }
  destruct (loads (actions_str group1)) as [v|] eqn:E.
  2:{ split; [now left|]. split; [discriminate|].
      intros (g & v & [= <-] & Hv & _). congruence. }
  destruct v as [| | | | |segments|].
  6:{ set (plan := map parse_segment (pad_or_truncate segments)).
      assert (Hlen : length plan = 5%nat)
        by (subst plan; rewrite length_map; apply pad_or_truncate_length).
      split; [now left|]. split.
      - intros Hnil. rewrite Hnil in Hlen. discriminate.
      - intros (g & w & [= <-] & Hw & Hnot). rewrite E in Hw.
        injection Hw as <-. now destruct (Hnot segments). }
  all: split; [now right|]; split; [|reflexivity]; intros _;
    exists group1; eexists; split; [reflexivity|]; split; [exact E|];
    intros items; discriminate.
Qed.

(** C1 (evaluation of the code where the claim fails).  The claim says that
    [parse_actions] returns five segments for every input, also when the
    keys block decodes to a value that is not a list.  On the response
    [<keys>{}</keys>] the block decodes to a dict and [parse_actions]
    returns the empty list, although its docstring promises a list of five
    lists and every other failure path returns five NOOP segments. *)
Theorem parse_actions_non_list_block :
  parse_actions "<keys>{}</keys>" = []
  /\ loads (actions_str "{}") = Some (JObj [])
  /\ length (parse_actions "<keys>{}</keys>") <> 5%nat.
Proof. vm_compute. repeat split. discriminate. Qed.

(** C2 (counterexample).  The claim says that the example response yields
    [[UP],[LEFT,RIGHT],[],[Hold(SPACE)],[R]], its NOOP segment being empty.
    The code does not return that plan. *)
Lemma parse_actions_example_noop_not_empty :
  parse_actions example_response
  <> [ [Some (Instant 38)]; [Some (Instant 37); Some (Instant 39)]; [];
       [Some (Hold 32)]; [Some (Instant 82)] ].
Proof. vm_compute. discriminate. Qed.

(** C2 (amended).  The example response yields
    [[38],[37,39],[None],[("HOLD",32)],[82]]: the NOOP segment holds the
    one element [None].  In general a ["NOOP"] token (as [None] written as
    JSON [null]) inside a segment adds the element [None] at its place in
    the parsed segment, and the other tokens keep theirs. *)
Theorem parse_actions_example_noop_is_none :
  parse_actions example_response
  = [ [Some (Instant 38)]; [Some (Instant 37); Some (Instant 39)]; [None];
      [Some (Hold 32)]; [Some (Instant 82)] ]
  /\ (forall before after : list value,
        parse_segment (JArr (before ++ JStr (Unicode.of_string "NOOP") :: after))
        = parse_segment (JArr before) ++ None :: parse_segment (JArr after))
  /\ (forall before after : list value,
        parse_segment (JArr (before ++ JNull :: after))
        = parse_segment (JArr before) ++ None :: parse_segment (JArr after)).
Proof.
  split; [vm_compute; reflexivity|].
  split; intros before after.
  - rewrite parse_segment_app.
    change (JStr (Unicode.of_string "NOOP") :: after)
      with ([JStr (Unicode.of_string "NOOP")] ++ after).
    now rewrite (parse_segment_app [JStr (Unicode.of_string "NOOP")] after).
  - rewrite parse_segment_app.
    change (JNull :: after) with ([JNull] ++ after).
    now rewrite (parse_segment_app [JNull] after).
Qed.

(** C7.  [parse_actions] is a total function, and it fails open: when the
    response has no keys block (no opening tag with a closing tag after it,
    which is when the search finds no match), and when the block (stripped,
    its single quotes turned into double quotes where the code does so)
    does not decode as JSON, the result is five segments that each hold one
    NOOP. *)
Theorem parse_actions_fails_open (response_text : string) :
  ((forall before inner after,
      response_text <> before +:+ "<keys>" +:+ inner +:+ "</keys>" +:+ after) ->
     parse_actions response_text = repeat [None] 5)
  /\ (search_keys response_text = None ->
        parse_actions response_text = repeat [None] 5)
  /\ (forall group1,
        search_keys response_text = Some group1 ->
        loads (actions_str group1) = None ->
        parse_actions response_text = repeat [None] 5).
Proof.
  unfold parse_actions. split; [|split].
  - intros H%search_keys_none. now rewrite H.
  - now intros ->.
  - intros group1 -> E. now rewrite E.
Qed.

Lemma parse_actions_fails_open_witness :
  parse_actions "no tags here" = repeat [None] 5
  /\ parse_actions "<keys>[['UP'], ['LEFT'</keys>" = repeat [None] 5.
Proof.
  split.
  - apply (proj1 (proj2 (parse_actions_fails_open "no tags here"))). reflexivity.
  - apply (proj2 (proj2 (parse_actions_fails_open "<keys>[['UP'], ['LEFT'</keys>"))
             "[['UP'], ['LEFT'"); vm_compute; reflexivity.
Defined.

(** C8.  When the keys block decodes to a list of [n] segments: for
    [n < 5] the plan is the first [n] segments parsed, followed by
    [5 - n] segments that are the parse of the pad [["NOOP"]], namely
    [[None]]; for [n > 5] the plan is the parse of the first five
    segments, in order; for [n = 5] it is the parse of the five. *)
Theorem parse_actions_pads_and_truncates
    (response_text group1 : string) (segments : list value) :
  search_keys response_text = Some group1 ->
  loads (actions_str group1) = Some (JArr segments) ->
  ((length segments < 5)%nat ->
     parse_actions response_text
     = map parse_segment
         (segments ++ repeat (JArr [JStr (Unicode.of_string "NOOP")]) (5 - length segments))
     /\ parse_actions response_text
        = map parse_segment segments ++ repeat [None] (5 - length segments))
  /\ ((5 < length segments)%nat ->
        parse_actions response_text = map parse_segment (firstn 5 segments))
  /\ (length segments = 5%nat ->
        parse_actions response_text = map parse_segment segments).
Proof.
  intros Hs Hl. unfold parse_actions, pad_or_truncate. rewrite Hs, Hl.
  repeat split.
  - destruct (Nat.eqb_spec (length segments) 5); [lia|].
    destruct (Nat.ltb_spec (length segments) 5); [reflexivity | lia].
  - destruct (Nat.eqb_spec (length segments) 5); [lia|].
    destruct (Nat.ltb_spec (length segments) 5); [| lia].
    rewrite map_app. f_equal.
    induction (5 - length segments)%nat as [|k IH]; [reflexivity|].
    simpl. now rewrite IH.
  - intros H. destruct (Nat.eqb_spec (length segments) 5); [lia|].
    destruct (Nat.ltb_spec (length segments) 5); [lia | reflexivity].
  - intros H. now destruct (Nat.eqb_spec (length segments) 5).
Qed.

Lemma parse_actions_pads_and_truncates_witness :
  parse_actions (text "<keys>[[`UP`]]</keys>")
  = [ [Some (Instant 38)]; [None]; [None]; [None]; [None] ]
  /\ parse_actions (text "<keys>[[`A`],[`B`],[`C`],[`D`],[`E`],[`F`]]</keys>")
     = [ [Some (Instant 65)]; [Some (Instant 66)]; [Some (Instant 67)];
         [Some (Instant 68)]; [Some (Instant 69)] ]
  /\ parse_actions (text "<keys>[[`\u0131`]]</keys>")
     = [ [Some (Instant 73)]; [None]; [None]; [None]; [None] ].
Proof.
  split; [|split].
  - destruct (parse_actions_pads_and_truncates
                (text "<keys>[[`UP`]]</keys>") (text "[[`UP`]]")
                [JArr [JStr (Unicode.of_string "UP")]] eq_refl eq_refl) as [Hpad _].
    rewrite (proj2 (Hpad ltac:(simpl; lia))). reflexivity.
  - destruct (parse_actions_pads_and_truncates
                (text "<keys>[[`A`],[`B`],[`C`],[`D`],[`E`],[`F`]]</keys>")
                (text "[[`A`],[`B`],[`C`],[`D`],[`E`],[`F`]]")
                (map (fun name => JArr [JStr (Unicode.of_string name)])
                   ["A"; "B"; "C"; "D"; "E"; "F"]%string)
                eq_refl eq_refl) as (_ & Htrunc & _).
    rewrite (Htrunc ltac:(simpl; lia)). reflexivity.
  - destruct (parse_actions_pads_and_truncates
                (text "<keys>[[`\u0131`]]</keys>") (text "[[`\u0131`]]")
                [JArr [JStr [305%N]]] eq_refl eq_refl) as [Hpad _].
    rewrite (proj2 (Hpad ltac:(simpl; lia))). reflexivity.
Defined.

End ParsingFacts.

(** ** Executing a plan *)

Module SchedulerFacts.
Import Browser Scheduler.

Lemma bind_run {A B : Type} (m : io A) (k : A -> io B) (w : world) :
  (m ≫= k) w
  = match m w with
    | (Some a, w') => k a w'
    | (None, w') => (None, w')
    end.
Proof. reflexivity. Qed.

Lemma slept_app (a b : list event) : slept (a ++ b) = slept a + slept b.
Proof.
  induction a as [|e a IH]; simpl; [lia|].
  destruct e; lia.
Qed.

Lemma forallb_is_tap_app (a b : list event) :
  forallb is_tap a = true -> forallb is_tap b = true -> forallb is_tap (a ++ b) = true.
Proof. intros Ha Hb. rewrite forallb_app, Ha, Hb. reflexivity. Qed.

Section WithPage.
Variable page : env.

(** An instant action leaves clicks, presses and at most one sleep of
    50 ms, and never raises. *)
Lemma execute_action_playwright_taps (code : Z) (w : world) :
  exists evs,
    trace (exec (execute_action_playwright page (Some code)) w) = trace w ++ evs
    /\ fst (execute_action_playwright page (Some code) w) = Some tt
    /\ forallb is_tap evs = true
    /\ 0 <= slept evs <= 50.
Proof.
  unfold execute_action_playwright, exec, try_except.
  rewrite bind_run. unfold call at 1.
  destruct (raises page (calls w)).
  - exists []. simpl. rewrite app_nil_r. repeat split; lia.
  - rewrite bind_run. unfold sleep at 1. cbn [trace clock calls].
    destruct (KEY_CODE_TO_PLAYWRIGHT_KEY code) as [key|].
    + unfold call. cbn [trace clock calls].
      destruct (raises page (S (calls w))); cbn [snd fst trace].
      * exists [Click; Sleep 50]. rewrite <- app_assoc. repeat split; simpl; lia.
      * exists [Click; Sleep 50; Press key]. rewrite <- !app_assoc.
        repeat split; simpl; lia.
    + exists [Click; Sleep 50]. cbn. rewrite <- app_assoc. repeat split; simpl; lia.
Qed.

Lemma instants_taps (codes : list Z) (w : world) :
  exists evs,
    trace (exec (for_each codes (fun c => execute_action_playwright page (Some c))) w)
    = trace w ++ evs
    /\ fst (for_each codes (fun c => execute_action_playwright page (Some c)) w)
       = Some tt
    /\ forallb is_tap evs = true
    /\ 0 <= slept evs <= 50 * Z.of_nat (length codes).
Proof.
  revert w; induction codes as [|c codes IH]; intros w.
  - exists []. unfold exec. cbn. rewrite app_nil_r. repeat split; lia.
  - destruct (execute_action_playwright_taps c w) as (e1 & T1 & R1 & F1 & S1).
    unfold exec in *. cbn [for_each]. rewrite bind_run.
    destruct (execute_action_playwright page (Some c) w) as [r w1].
    cbn [fst snd] in *. subst r.
    destruct (IH w1) as (e2 & T2 & R2 & F2 & S2). unfold exec in *.
    exists (e1 ++ e2). rewrite T2, T1, <- app_assoc.
    repeat split; [exact R2 | now apply forallb_is_tap_app | |];
      rewrite slept_app; cbn [length]; lia.
Qed.

(** Calls that leave one event each: the events left are those of the
    first [n] items, and all of them when no call raised. *)
Lemma for_each_call (f : string -> event) (keys : list string) (w : world) :
  exists n,
    trace (exec (for_each keys (fun k => call page [f k])) w)
    = trace w ++ firstn n (map f keys)
    /\ clock (exec (for_each keys (fun k => call page [f k])) w) = clock w
    /\ (n <= length keys)%nat
    /\ (fst (for_each keys (fun k => call page [f k]) w) = Some tt ->
        n = length keys).
Proof.
  revert w; induction keys as [|k keys IH]; intros w.
  - exists 0%nat. unfold exec; cbn. rewrite app_nil_r. auto.
  - cbn [for_each]. unfold exec. rewrite bind_run. unfold call at 1 3 5.
    destruct (raises page (calls w)); cbn [fst snd trace clock].
    + exists 0%nat. cbn. rewrite app_nil_r. repeat split; [lia | discriminate].
    + destruct (IH (World (trace w ++ [f k]) (clock w) (S (calls w))))
        as (n & T & C & L & R).
      unfold exec in *. cbn [trace clock] in *.
      exists (S n). cbn [map firstn length]. rewrite T, <- app_assoc.
      repeat split; [exact C | lia |]. intros H. now rewrite (R H).
Qed.

(** Whatever calls raise, holding keys leaves a beginning of
    [hold_script]: the click, key-downs, the sleep, key-ups. *)
Lemma execute_hold_actions_playwright_prefix (key_codes : list Z) (duration : Z)
    (w : world) :
  exists n,
    trace (exec (execute_hold_actions_playwright page key_codes duration) w)
    = trace w ++ firstn n (hold_script (hold_keys key_codes) duration).
Proof.
  unfold execute_hold_actions_playwright.
  destruct key_codes as [|c cs].
  { exists 0%nat. unfold exec; cbn. now rewrite app_nil_r. }
  set (keys := hold_keys (c :: cs)). clearbody keys.
  unfold exec, try_except. cbn [snd]. rewrite bind_run. unfold call at 1.
  destruct (raises page (calls w)); cbn [snd trace].
  { exists 0%nat. cbn. now rewrite app_nil_r. }
  destruct keys as [|k ks].
  { exists 1%nat. reflexivity. }
  set (w1 := World (trace w ++ [Click]) (clock w) (S (calls w))).
  rewrite bind_run.
  destruct (for_each_call KeyDown (k :: ks) w1) as (n1 & T1 & _ & L1 & R1).
  unfold exec in *.
  destruct (for_each (k :: ks) (fun key => call page [KeyDown key]) w1)
    as [[[]|] w2]; cbn [fst snd] in *.
  - specialize (R1 eq_refl). subst n1.
    rewrite bind_run. unfold sleep at 1.
    set (w3 := World (trace w2 ++ [Sleep duration]) (clock w2 + duration) (calls w2)).
    destruct (for_each_call KeyUp (k :: ks) w3) as (n2 & T2 & _ & _ & _).
    unfold exec in *. rewrite T2. subst w3. cbn [trace]. rewrite T1.
    subst w1. cbn [trace].
    exists (S (length (k :: ks) + S n2)).
    unfold hold_script. rewrite <- !app_assoc. f_equal.
    cbn [app firstn]. f_equal.
    rewrite firstn_app, length_map.
    rewrite (firstn_all2 (map KeyDown (k :: ks)) (n := length (k :: ks)))
      by (rewrite length_map; lia).
    rewrite (firstn_all2 (map KeyDown (k :: ks)) (n := length (k :: ks) + S n2))
      by (rewrite length_map; lia).
    replace (length (k :: ks) + S n2 - length (k :: ks))%nat with (S n2) by lia.
    reflexivity.
  - exists (S n1). rewrite T1. subst w1. cbn [trace].
    unfold hold_script. rewrite <- app_assoc. f_equal.
    cbn [app firstn]. f_equal.
    rewrite firstn_app, length_map.
    replace (n1 - length (k :: ks))%nat with 0%nat by lia.
    cbn [firstn]. now rewrite app_nil_r.
Qed.


(** The events of one segment of [run_one_game]: the taps of its instant
    actions, then a beginning of the hold script of its hold actions,
    then the idle sleep of a segment that has neither. *)
Lemma run_segment_events (segment : list action_code) (w : world) :
  exists (taps idle : list event) (n : nat),
    trace (exec (run_segment page segment) w)
    = trace w ++ taps
        ++ firstn n (hold_script (hold_keys (hold_actions segment)) 200) ++ idle
    /\ forallb is_tap taps = true
    /\ 0 <= slept taps <= 50 * Z.of_nat (length (instant_actions segment))
    /\ (hold_actions segment = [] -> n = 0%nat)
    /\ idle = match instant_actions segment, hold_actions segment with
              | [], [] => [Sleep 200]
              | _, _ => []
              end.
Proof.
  unfold run_segment, exec. rewrite bind_run.
  destruct (instants_taps (instant_actions segment) w) as (taps & T & R & F & S).
  unfold exec in T.
  destruct (for_each (instant_actions segment) _ w) as [r w1].
  cbn [fst snd] in *. subst r. rewrite bind_run.
  destruct (hold_actions segment) as [|h hs] eqn:H.
  - cbn [mret io_ret ret].
    exists taps, (match instant_actions segment with [] => [Sleep 200] | _ => [] end),
      0%nat.
    cbn [firstn app].
    split; [|split; [exact F|split; [lia|split; [reflexivity|]]]].
    + destruct (instant_actions segment); cbn; rewrite T;
        [now rewrite app_assoc | now rewrite app_nil_r].
    + now destruct (instant_actions segment).
  - destruct (execute_hold_actions_playwright_prefix (h :: hs) 200 w1) as (n & P).
    unfold exec in P.
    assert (Some_tt : fst (execute_hold_actions_playwright page (h :: hs) 200 w1)
                      = Some tt) by reflexivity.
    destruct (execute_hold_actions_playwright page (h :: hs) 200 w1) as [r w2].
    cbn [fst snd] in *. subst r.
    exists taps, [], n.
    split; [|split; [exact F|split; [lia|split; [discriminate|]]]].
    + destruct (instant_actions segment); cbn; rewrite P, T, app_nil_r;
        now rewrite app_assoc.
    + now destruct (instant_actions segment).
Qed.

End WithPage.

(** Taps are neither key-downs nor key-ups. *)
Lemma downs_before_ups_taps (taps rest : list event) :
  forallb is_tap taps = true ->
  downs_before_ups (taps ++ rest) = downs_before_ups rest.
Proof.
  induction taps as [|e taps IH]; [reflexivity|].
  cbn [forallb app]. intros [He Ht]%andb_true_iff.
  cbn [downs_before_ups]. destruct e; try discriminate; now apply IH.
Qed.

Lemma downs_before_ups_no_down (tr : list event) :
  forallb (fun e => negb (is_key_down e)) tr = true -> downs_before_ups tr = true.
Proof.
  induction tr as [|e tr IH]; [reflexivity|].
  cbn [forallb downs_before_ups]. intros [He Ht]%andb_true_iff.
  destruct (is_key_up e); [exact Ht | now apply IH].
Qed.

Lemma downs_before_ups_split (a b : list event) :
  forallb (fun e => negb (is_key_up e)) a = true ->
  forallb (fun e => negb (is_key_down e)) b = true ->
  downs_before_ups (a ++ b) = true.
Proof.
  induction a as [|e a IH]; cbn [app forallb]; intros Ha Hb.
  - now apply downs_before_ups_no_down.
  - apply andb_true_iff in Ha as [He Ha]. cbn [downs_before_ups].
    destruct (is_key_up e); [discriminate | now apply IH].
Qed.

Lemma forallb_firstn {A : Type} (p : A -> bool) (n : nat) (l : list A) :
  forallb p l = true -> forallb p (firstn n l) = true.
Proof.
  revert n; induction l as [|x l IH]; intros [|n]; cbn; try reflexivity.
  intros [Hx Hl]%andb_true_iff. rewrite Hx. now apply IH.
Qed.

(** In any beginning of a hold script, followed by taps, every key-down
    comes before every key-up. *)
Lemma downs_before_ups_hold_script (keys : list string) (duration : Z) (n : nat)
    (idle : list event) :
  forallb is_tap idle = true ->
  downs_before_ups (firstn n (hold_script keys duration) ++ idle) = true.
Proof.
  intros Hidle. unfold hold_script.
  change (Click :: map KeyDown keys ++ Sleep duration :: map KeyUp keys)
    with ((Click :: map KeyDown keys) ++ (Sleep duration :: map KeyUp keys)).
  rewrite firstn_app, <- app_assoc.
  apply downs_before_ups_split.
  - apply forallb_firstn. cbn [forallb]. apply forallb_forall.
    intros e [k [<- _]]%in_map_iff. reflexivity.
  - rewrite forallb_app. apply andb_true_iff. split.
    + apply forallb_firstn. cbn [forallb]. apply forallb_forall.
      intros e [k [<- _]]%in_map_iff. reflexivity.
    + apply forallb_forall. intros e He.
      rewrite forallb_forall in Hidle. specialize (Hidle e He).
      now destruct e.
Qed.

(** On a page where no call raises, the loops over the keys run to their
    end. *)
Lemma for_each_call_calm (f : string -> event) (keys : list string) (w : world) :
  for_each keys (fun k => call calm [f k]) w
  = (Some tt, World (trace w ++ map f keys) (clock w) (length keys + calls w)).
Proof.
  revert w; induction keys as [|k keys IH]; intros [tr cl ca].
  - cbn. now rewrite app_nil_r.
  - cbn [for_each]. rewrite bind_run. unfold call at 1. cbn [raises calm trace clock calls].
    rewrite IH. cbn [trace clock calls map length]. rewrite <- app_assoc.
    f_equal. f_equal. lia.
Qed.

End SchedulerFacts.

(** *** The segment loop of [run_one_game]: how long a segment sleeps *)

Module SegmentTime.
Import Browser Scheduler SchedulerFacts.

(** X4.  A segment with instant codes and no hold code sleeps the focus delays of
    its key presses and nothing more, whatever the page does. *)
Lemma run_segment_instant_only (page : env) (segment : list action_code) (w : world) :
  hold_actions segment = [] ->
  instant_actions segment <> [] ->
  slept (trace (exec (run_segment page segment) w))
  <= slept (trace w) + 50 * Z.of_nat (length (instant_actions segment)).
Proof.
  intros Hh Hi.
  destruct (run_segment_events page segment w) as (taps & idle & n & T & _ & S & N & I).
  rewrite T, (N Hh), I, Hh. cbn [firstn app].
  destruct (instant_actions segment); [contradiction|].
  rewrite app_nil_r, slept_app. lia.
Qed.

Lemma run_segment_instant_only_witness :
  slept (trace (exec (run_segment calm [Some (Instant 38); None]) start)) <= 0 + 50 * 1.
Proof.
  apply (run_segment_instant_only calm [Some (Instant 38); None] start).
  - reflexivity.
  - discriminate.
Defined.

(** A segment without codes sleeps the 200 ms. *)
Lemma run_segment_idle (page : env) (segment : list action_code) (w : world) :
  instant_actions segment = [] ->
  hold_actions segment = [] ->
  trace (exec (run_segment page segment) w) = trace w ++ [Sleep 200].
Proof.
  intros Hi Hh. unfold run_segment, exec. rewrite Hi, Hh. reflexivity.
Qed.

End SegmentTime.

(** *** [execute_action_segment]: a segment takes its duration *)

Module SeleniumFacts.
Import Browser Scheduler SchedulerFacts Selenium.

Section WithPage.
Variable page : env.

(** [execute_action] never raises and never turns the clock back. *)
Lemma execute_action_clock (action_code : option Z) (w : world) :
  fst (execute_action page action_code w) = Some tt
  /\ clock w <= clock (exec (execute_action page action_code) w).
Proof.
  destruct action_code as [code|]; [|split; [reflexivity | unfold exec; cbn; lia]].
  unfold execute_action, exec, try_except. cbn [fst snd]. split; [reflexivity|].
  rewrite bind_run. unfold call at 1.
  destruct (raises page (calls w)); cbn [snd clock]; [lia|].
  rewrite bind_run. unfold call at 1. cbn [calls trace clock].
  destruct (raises page (S (calls w))); cbn [snd clock]; [lia|].
  rewrite bind_run. unfold sleep at 1. cbn [calls trace clock].
  destruct (KEY_CODE_TO_KEY_NAME code) as [key|]; [|cbn; lia].
  unfold call. cbn [calls trace clock].
  destruct (raises page (S (S (calls w)))); cbn [snd clock]; lia.
Qed.

Lemma for_each_execute_action_clock (codes : list Z) (w : world) :
  fst (for_each codes (fun c => execute_action page (Some c)) w) = Some tt
  /\ clock w <= clock (exec (for_each codes (fun c => execute_action page (Some c))) w).
Proof.
  revert w; induction codes as [|c codes IH]; intros w.
  - split; [reflexivity | unfold exec; cbn; lia].
  - cbn [for_each]. unfold exec. rewrite bind_run.
    destruct (execute_action_clock (Some c) w) as [R C]. unfold exec in C.
    destruct (execute_action page (Some c) w) as [r w1]. cbn [fst snd] in *. subst r.
    destruct (IH w1) as [R1 C1]. unfold exec in C1. split; [exact R1 | lia].
Qed.

(** The loop is left when the duration has passed, and not because its fuel
    has run out: fuel for the milliseconds that are left is enough. *)
Lemma hold_loop_elapsed (fuel : nat) (continuous_actions : list Z)
    (duration segment_start : Z) (w : world) :
  duration - (clock w - segment_start) <= Z.of_nat fuel ->
  fst (hold_loop page fuel continuous_actions duration segment_start w) = Some tt
  /\ duration
     <= clock (exec (hold_loop page fuel continuous_actions duration segment_start) w)
        - segment_start.
Proof.
  revert w; induction fuel as [|fuel IH]; intros w Hfuel.
  - split; [reflexivity|]. unfold exec; cbn. lia.
  - cbn [hold_loop]. unfold exec. rewrite bind_run. unfold time_time.
    cbv beta iota.
    destruct (Z.ltb_spec (clock w - segment_start) duration) as [Hlt|Hge];
      [|split; [reflexivity | cbn; lia]].
    rewrite bind_run.
    destruct (for_each_execute_action_clock continuous_actions w) as [R C].
    unfold exec in C.
    destruct (for_each continuous_actions _ w) as [r w1]. cbn [fst snd] in *. subst r.
    rewrite bind_run. cbv beta iota. rewrite bind_run.
    destruct (Z.ltb_spec 0 (duration - (clock w1 - segment_start))) as [Hrem|Hrem].
    + unfold sleep at 1. apply IH. cbn [clock]. lia.
    + cbn [mret io_ret ret]. apply IH. lia.
Qed.

(** X2.  Whatever the page does, [execute_action_segment] returns, and when it
    does the clock has advanced by the duration of the segment at least: a
    segment with only instant actions, or with none, sleeps the duration
    after them. *)
Lemma execute_action_segment_takes_duration (action_segment : list action_code)
    (duration : Z) (w : world) :
  fst (execute_action_segment page action_segment duration w) = Some tt
  /\ clock w + duration
     <= clock (exec (execute_action_segment page action_segment duration) w).
Proof.
  unfold execute_action_segment, exec. rewrite bind_run.
  destruct (for_each_execute_action_clock (instant_actions action_segment) w) as [R C].
  unfold exec in C.
  destruct (for_each (instant_actions action_segment) _ w) as [r w1].
  cbn [fst snd] in *. subst r.
  destruct (hold_actions action_segment) as [|h hs].
  - unfold sleep. cbn [fst snd clock]. split; [reflexivity | lia].
  - rewrite bind_run. unfold time_time. cbv beta iota.
    destruct (hold_loop_elapsed (Z.to_nat duration) (h :: hs) duration (clock w1) w1)
      as [R1 C1]; [lia|].
    unfold exec in C1. split; [exact R1 | lia].
Qed.

End WithPage.
End SeleniumFacts.

Module SchedulerClaims.
Import Browser Scheduler SchedulerFacts.

Lemma execute_hold_actions_playwright_calm (key_codes : list Z) (duration : Z)
    (w : world) :
  hold_keys key_codes <> [] ->
  trace (exec (execute_hold_actions_playwright calm key_codes duration) w)
  = trace w ++ hold_script (hold_keys key_codes) duration.
Proof.
  intros Hkeys. unfold execute_hold_actions_playwright.
  destruct key_codes as [|c cs]; [now destruct Hkeys|].
  set (keys := hold_keys (c :: cs)) in *. clearbody keys.
  destruct keys as [|k ks]; [now destruct Hkeys|].
  unfold exec, try_except. cbn [snd]. rewrite bind_run. unfold call at 1.
  cbn [raises calm]. rewrite bind_run, for_each_call_calm.
  rewrite bind_run. unfold sleep at 1. rewrite for_each_call_calm.
  cbn [snd trace]. unfold hold_script. now rewrite <- !app_assoc.
Qed.

(** C3 (evaluation of the code where the claim fails).  The claim says that
    every segment of a plan, one with only instant key codes included,
    takes at least the 0.2 s of a segment because the rest of the time is
    slept.  In [run_one_game] a segment with the one instant code of [UP]
    sleeps 50 ms, the focus delay of its key press, and nothing else: the
    plan of the response [[["UP"],["NOOP"],["NOOP"],["NOOP"],["NOOP"]]]
    sleeps 850 ms and a plan of five instant keys 250 ms, not 1000 ms.
    [execute_action_segment] of [game_utils.py] sleeps the whole duration
    after the instant actions of such a segment. *)
Theorem run_one_game_instant_segment_sleeps_50 :
  slept (trace (exec (run_segment calm [Some (Instant 38)]) start)) = 50
  /\ slept (trace (exec (run_plan calm true
       (Parsing.parse_actions
          (Py.text "<keys>[[`UP`],[`NOOP`],[`NOOP`],[`NOOP`],[`NOOP`]]</keys>"))) start))
     = 850
  /\ slept (trace (exec (run_plan calm true
       (Parsing.parse_actions
          (Py.text "<keys>[[`UP`],[`DOWN`],[`LEFT`],[`RIGHT`],[`R`]]</keys>"))) start))
     = 250
  /\ slept (trace (exec (Selenium.execute_action_segment calm [Some (Instant 38)] 200)
                     start)) = 250.
Proof. vm_compute. repeat split. Qed.

(** C4 (counterexample).  The claim covers every execution of a segment
    with hold codes.  [execute_action_segment] of [game_utils.py], given
    the one hold code of [HOLD_SPACE] and 0.2 s, dispatches key-down,
    key-press and key-up of the space key in every pass of its loop: the
    key comes up 50 ms into the segment and goes down again. *)
Lemma selenium_hold_released_and_pressed_again :
  trace (exec (Selenium.execute_action_segment calm [Some (Hold 32)] 200) start)
  = [ Click; Sleep 50; KeyDown " "; KeyPress " "; KeyUp " "; Sleep 50;
      Click; Sleep 50; KeyDown " "; KeyPress " "; KeyUp " "; Sleep 50 ]
  /\ downs_before_ups
       (trace (exec (Selenium.execute_action_segment calm [Some (Hold 32)] 200) start))
     = false.
Proof. vm_compute. split; reflexivity. Qed.

(** C4 (amended).  In [run_one_game], whatever browser calls raise, the
    events of a segment are the taps of its instant actions (clicks, 50 ms
    sleeps, presses), then a beginning of the hold script of its hold keys
    (one click, the key-down of every hold key, one sleep of 200 ms, the
    key-up of every hold key), then the 200 ms sleep of a segment without
    actions; so every key-down of the segment comes before every key-up of
    it.  When no call raises, [execute_hold_actions_playwright] leaves the
    whole script: all key-downs, the sleep of the duration, all key-ups. *)
Theorem playwright_hold_keys_down_then_up :
  (forall (page : env) (segment : list action_code) (w : world),
     exists (taps idle : list event) (n : nat),
       let held := firstn n (hold_script (hold_keys (hold_actions segment)) 200) in
       trace (exec (run_segment page segment) w) = trace w ++ taps ++ held ++ idle
       /\ forallb is_tap taps = true
       /\ forallb is_tap idle = true
       /\ downs_before_ups (taps ++ held ++ idle) = true)
  /\ (forall (key_codes : list Z) (duration : Z) (w : world),
        hold_keys key_codes <> [] ->
        trace (exec (execute_hold_actions_playwright calm key_codes duration) w)
        = trace w ++ Click :: map KeyDown (hold_keys key_codes)
            ++ Sleep duration :: map KeyUp (hold_keys key_codes)).
Proof.
  split.
  - intros page segment w.
    destruct (run_segment_events page segment w) as (taps & idle & n & T & F & _ & _ & I).
    exists taps, idle, n. cbn zeta.
    assert (Fi : forallb is_tap idle = true).
    { subst idle. destruct (instant_actions segment), (hold_actions segment); reflexivity. }
    split; [exact T|]. split; [exact F|]. split; [exact Fi|].
    rewrite downs_before_ups_taps by exact F.
    now apply downs_before_ups_hold_script.
  - intros key_codes duration w H.
    now apply execute_hold_actions_playwright_calm.
Qed.

Lemma playwright_hold_keys_down_then_up_witness :
  trace (exec (execute_hold_actions_playwright calm [32; 37] 200) start)
  = [ Click; KeyDown " "; KeyDown "ArrowLeft"; Sleep 200;
      KeyUp " "; KeyUp "ArrowLeft" ].
Proof.
  apply (proj2 playwright_hold_keys_down_then_up [32; 37] 200 start).
  vm_compute. discriminate.
Defined.

End SchedulerClaims.

(** ** Retrying *)

Module RetryFacts.
Import Py Retry.

Lemma is_quota_limit_error_spec (error : pyexn) :
  _is_quota_limit_error error = true
  <-> exists pattern,
        In pattern quota_patterns
        /\ exists before rest, lower (exn_str error) = before +:+ pattern +:+ rest.
Proof.
  unfold _is_quota_limit_error. rewrite existsb_exists.
  split; intros (pattern & Hin & H); exists pattern; split; try exact Hin;
    now apply PyFacts.contains_spec.
Qed.

Section WithClient.
Variable response : Type.
Variable generate_content : nat -> pyexn + response.

Lemma first_call_returns (r : response) :
  generate_content 0%nat = inr r ->
  generate_with_default_retry response generate_content = (inr r, Log 1 []).
Proof.
  intros H. unfold generate_with_default_retry, _generate_content_with_retry.
  change (range (1 + 1)) with [0; 1]. cbn [retry_loop no_log api_calls].
  now rewrite H.
Qed.

Lemma retry_then_result (e : pyexn) (r : response) :
  generate_content 0%nat = inl e ->
  _is_quota_limit_error e = true ->
  generate_content 1%nat = inr r ->
  generate_with_default_retry response generate_content = (inr r, Log 2 [5000]).
Proof.
  intros H0 Hq H1. unfold generate_with_default_retry, _generate_content_with_retry.
  change (range (1 + 1)) with [0; 1]. cbn [retry_loop no_log api_calls sleeps].
  rewrite H0, Hq. cbn [andb Z.ltb Z.compare app]. now rewrite H1.
Qed.

Lemma retry_then_error (e1 e2 : pyexn) :
  generate_content 0%nat = inl e1 ->
  _is_quota_limit_error e1 = true ->
  generate_content 1%nat = inl e2 ->
  generate_with_default_retry response generate_content = (inl e2, Log 2 [5000]).
Proof.
  intros H0 Hq H1. unfold generate_with_default_retry, _generate_content_with_retry.
  change (range (1 + 1)) with [0; 1]. cbn [retry_loop no_log api_calls sleeps].
  rewrite H0, Hq. cbn [andb Z.ltb Z.compare app]. rewrite H1.
  now rewrite andb_false_r.
Qed.

Lemma other_error_raised_at_once (e : pyexn) :
  generate_content 0%nat = inl e ->
  _is_quota_limit_error e = false ->
  generate_with_default_retry response generate_content = (inl e, Log 1 []).
Proof.
  intros H0 Hq. unfold generate_with_default_retry, _generate_content_with_retry.
  change (range (1 + 1)) with [0; 1]. cbn [retry_loop no_log api_calls sleeps].
  now rewrite H0, Hq.
Qed.

(** X3.  With the defaults the API is called once or twice, and a second call
    comes after one sleep of 5 s: there is at most one retry. *)
Lemma default_retry_bounded :
  let run := generate_with_default_retry response generate_content in
  (api_calls (snd run) = 1%nat /\ sleeps (snd run) = [])
  \/ (api_calls (snd run) = 2%nat /\ sleeps (snd run) = [5000]).
Proof.
  cbn zeta. unfold generate_with_default_retry, _generate_content_with_retry.
  change (range (1 + 1)) with [0; 1]. cbn [retry_loop no_log api_calls sleeps].
  destruct (generate_content 0%nat) as [e|r]; [|now left].
  destruct (_is_quota_limit_error e); cbn [andb Z.ltb Z.compare app]; [|now left].
  destruct (generate_content 1%nat) as [e'|r']; [|now right].
  rewrite andb_false_r. now right.
Qed.

End WithClient.

(** C5.  An error is a quota error exactly when its message, in lower
    case, contains one of the six patterns.  With the defaults
    ([max_retries=1], [retry_delay=5.0]): a quota error followed by a
    result gives that result after two calls and one sleep of 5 s; a quota
    error followed by another error raises the second error as it is,
    after two calls (one retry) and one sleep of 5 s; an error that is no
    quota error is raised as it is after one call and no sleep. *)
Theorem retry_once_on_quota_error :
  (forall error : pyexn,
     _is_quota_limit_error error = true
     <-> exists pattern,
           In pattern [ "quota"; "rate limit"; "rate_limit"; "429";
                        "resource exhausted"; "too many requests" ]%string
           /\ exists before rest, lower (exn_str error) = before +:+ pattern +:+ rest)
  /\ (forall (response : Type) (api : nat -> pyexn + response) e r,
        api 0%nat = inl e -> _is_quota_limit_error e = true -> api 1%nat = inr r ->
        generate_with_default_retry response api = (inr r, Log 2 [5000]))
  /\ (forall (response : Type) (api : nat -> pyexn + response) e1 e2,
        api 0%nat = inl e1 -> _is_quota_limit_error e1 = true -> api 1%nat = inl e2 ->
        generate_with_default_retry response api = (inl e2, Log 2 [5000]))
  /\ (forall (response : Type) (api : nat -> pyexn + response) e,
        api 0%nat = inl e -> _is_quota_limit_error e = false ->
        generate_with_default_retry response api = (inl e, Log 1 [])).
Proof.
  split; [exact is_quota_limit_error_spec|].
  split; [exact retry_then_result|].
  split; [exact retry_then_error | exact other_error_raised_at_once].
Qed.

Lemma retry_once_on_quota_error_witness :
  generate_with_default_retry string
    (fun n => match n with
              | O => inl (Exn "ClientError" "429 Rate Limit exceeded")
              | _ => inr "done"%string
              end)
  = (inr "done"%string, Log 2 [5000])
  /\ generate_with_default_retry string
       (fun n => match n with
                 | O => inl (Exn "ClientError" "429 rate limit")
                 | _ => inl (Exn "ClientError" "Quota exceeded again")
                 end)
     = (inl (Exn "ClientError" "Quota exceeded again"), Log 2 [5000])
  /\ generate_with_default_retry string
       (fun _ => inl (Exn "ValueError" "invalid argument"))
     = (inl (Exn "ValueError" "invalid argument"), Log 1 []).
Proof.
  destruct retry_once_on_quota_error as (_ & Hok & Herr & Hother).
  split; [|split].
  - eapply Hok; reflexivity.
  - eapply Herr; reflexivity.
  - eapply Hother; reflexivity.
Defined.

End RetryFacts.

(** ** The end of an episode *)

Module EpisodeFacts.
Import Browser Scheduler Episode.

Lemma check_game_ended_total (page : env) (w : world) :
  exists ended,
    check_game_ended page w
    = (Some ended, World (trace w) (clock w) (S (calls w))).
Proof.
  unfold check_game_ended, evaluate_ended.
  destruct (raises page (calls w)); eauto.
Qed.

Lemma restart_game_returns (page : env) (w : world) :
  fst (restart_game page w) = Some tt.
Proof.
  unfold restart_game, try_except_with.
  match goal with |- context [match ?b w with _ => _ end] => destruct (b w) as [[[]|] w'] end;
    reflexivity.
Qed.

Lemma restart_sequence_returns (page : env) (w : world) :
  fst (restart_sequence page w) = Some tt.
Proof.
  unfold restart_sequence.
  rewrite SchedulerFacts.bind_run. unfold try_except at 1. cbn [fst snd].
  rewrite SchedulerFacts.bind_run.
  match goal with |- context [restart_game page ?w0] =>
    pose proof (restart_game_returns page w0) as R;
    destruct (restart_game page w0) as [r w1]; cbn [fst] in R; subst r
  end.
  rewrite SchedulerFacts.bind_run. unfold try_except at 1.
  rewrite SchedulerFacts.bind_run. unfold sleep at 1.
  rewrite SchedulerFacts.bind_run.
  match goal with |- context [check_game_ended page ?w0] =>
    destruct (check_game_ended_total page w0) as (b & ->)
  end.
  reflexivity.
Qed.

(** C6.  [check_game_ended] reads the flag and leaves no event.  When the
    flag read after the model call or the one read before the pause was
    set, the block returns the variables of a new episode: the episode
    count is one more, the step count is 0, the frame history and the last
    render frames are empty; and the keys of the restart (unpause, [R],
    [Enter]) are issued by [restart_sequence], which starts from the world
    as the check left it and does not touch the variables.  When neither
    flag was set, variables and page stay as they were. *)
Theorem end_of_game_starts_new_episode
    (page : env) (game_ended_before_pause : bool) (vars : locals) (w : world) :
  exists (game_ended : bool) (w1 : world),
    check_game_ended page w = (Some game_ended, w1)
    /\ trace w1 = trace w
    /\ (game_ended || game_ended_before_pause = true ->
          end_of_game page game_ended_before_pause vars w
          = (Some (new_episode vars), exec (restart_sequence page) w1)
          /\ episode_count (new_episode vars) = episode_count vars + 1
          /\ step_count (new_episode vars) = 0
          /\ frame_history (new_episode vars) = []
          /\ last_render_frames (new_episode vars) = [])
    /\ (game_ended || game_ended_before_pause = false ->
          end_of_game page game_ended_before_pause vars w = (Some vars, w1)).
Proof.
  destruct (check_game_ended_total page w) as (ended & E).
  exists ended, (World (trace w) (clock w) (S (calls w))).
  split; [exact E|]. split; [reflexivity|].
  unfold end_of_game. rewrite SchedulerFacts.bind_run, E. split; intros H; rewrite H.
  - split; [|repeat split].
    rewrite SchedulerFacts.bind_run. unfold exec.
    pose proof (restart_sequence_returns page
                  (World (trace w) (clock w) (S (calls w)))) as R.
    destruct (restart_sequence page _) as [r w2]. cbn in *. now subst r.
  - reflexivity.
Qed.

End EpisodeFacts.

Module EpisodeWitness.
Import Browser Scheduler Episode.

Lemma end_of_game_starts_new_episode_witness :
  fst (end_of_game calm true
         {| episode_count := 3; step_count := 7;
            frame_history := [ {| fe_episode := 3; fe_step := 6; action_index := 0;
                                  action_name := "UP" |} ];
            last_render_frames := [] |} start)
  = Some {| episode_count := 4; step_count := 0;
            frame_history := []; last_render_frames := [] |}.
Proof.
  destruct (EpisodeFacts.end_of_game_starts_new_episode calm true
              {| episode_count := 3; step_count := 7;
                 frame_history := [ {| fe_episode := 3; fe_step := 6; action_index := 0;
                                       action_name := "UP" |} ];
                 last_render_frames := [] |} start)
    as (ended & w1 & _ & _ & Hended & _).
  rewrite (proj1 (Hended (orb_true_r ended))). reflexivity.
Defined.

End EpisodeWitness.

(** ** Token usage *)

Module TokensFacts.
Import Py Tokens.

Lemma read_content_snoc (content : list content_block) (b : content_block) :
  read_content (content ++ [b]) = read_block (read_content content) b.
Proof. unfold read_content. now rewrite fold_left_app. Qed.

Lemma fold_read_block_no_thinking (content : list content_block)
    (acc : string * option string) :
  has_thinking content = false ->
  snd (fold_left read_block content acc) = snd acc.
Proof.
  revert acc; induction content as [|b content IH]; intros acc; [reflexivity|].
  cbn [has_thinking existsb fold_left].
  intros [Hb Hc]%orb_false_iff. rewrite IH by exact Hc.
  now destruct b.
Qed.

(** Without a thinking block there is no reasoning text. *)
Lemma reasoning_text_none (content : list content_block) :
  has_thinking content = false -> reasoning_text content = None.
Proof.
  intros H. unfold reasoning_text, read_content.
  now rewrite fold_read_block_no_thinking.
Qed.

(** The reasoning text is the content of the last thinking block. *)
Lemma reasoning_text_last (before after : list content_block) (text : string) :
  has_thinking after = false ->
  reasoning_text (before ++ ThinkingBlock text :: after) = Some text.
Proof.
  intros H. unfold reasoning_text, read_content.
  rewrite fold_left_app. cbn [fold_left].
  now rewrite fold_read_block_no_thinking.
Qed.

(** C9 (counterexample).  For a Claude model and a thinking block of three
    characters the reported [reasoning_tokens] is 1, where a quarter of the
    length times the family's multiplier is 0; and for a thinking block
    with empty content no [reasoning_tokens] is reported at all, whatever
    the estimate of the empty text is. *)
Lemma reasoning_claim_fails :
  ~ reasoning_claim heuristic_as_specified "claude-sonnet-4"
      [ThinkingBlock "abc"; TextBlock "ok"]
      {| input_tokens := 10; output_tokens := 20 |}
  /\ ~ reasoning_claim (fun text name => estimate_tokens text (Some name))
         "claude-sonnet-4" [ThinkingBlock ""; TextBlock "ok"]
         {| input_tokens := 10; output_tokens := 20 |}.
Proof.
  split; intros [H _]; destruct (H eq_refl) as (text & Ht & Hr & _);
    vm_compute in Ht; injection Ht as <-; vm_compute in Hr; discriminate.
Qed.

(** C9 (amended).  The reasoning text is the content of the last thinking
    block.  When it is not empty, [reasoning_tokens] is
    [estimate_tokens] of it and [total_tokens] is input plus output plus
    that estimate; the estimate is a quarter of the length (rounded down),
    times 1.1 for a [gpt] model name, as it is for [llama], times 1.2 for
    [qwen] and [deepseek], and for every other model name, those of Claude
    models included, a quarter of the length but at least 1.  When there is
    no thinking block, or the last one is empty, no [reasoning_tokens] is
    reported and [total_tokens] is input plus output. *)
Theorem anthropic_reasoning_tokens
    (model_name : string) (content : list content_block) (u : usage) :
  let reported := generate_token_usage model_name content u in
  (has_thinking content = false ->
     reasoning_tokens reported = None
     /\ total_tokens reported = input_tokens u + output_tokens u)
  /\ (forall before after text,
        content = before ++ ThinkingBlock text :: after ->
        has_thinking after = false ->
        (text = EmptyString ->
           reasoning_tokens reported = None
           /\ total_tokens reported = input_tokens u + output_tokens u)
        /\ (text <> EmptyString ->
              reasoning_tokens reported = Some (estimate_tokens text (Some model_name))
              /\ total_tokens reported
                 = input_tokens u + output_tokens u
                   + estimate_tokens text (Some model_name)))
  /\ (forall text,
        let quarter := Z.of_nat (String.length text) / 4 in
        estimate_tokens text (Some model_name)
        = if String.eqb model_name EmptyString then Z.max 1 quarter
          else if contains "gpt" (lower model_name) then quarter * 11 / 10
          else if contains "llama" (lower model_name) then quarter
          else if contains "qwen" (lower model_name)
                  || contains "deepseek" (lower model_name)
          then quarter * 12 / 10
          else Z.max 1 quarter).
Proof.
  cbn zeta. split; [|split].
  - intros H. unfold generate_token_usage.
    now rewrite (reasoning_text_none content H).
  - intros before after text -> H. unfold generate_token_usage.
    rewrite (reasoning_text_last before after text H).
    split; [now intros -> | now destruct text].
  - intros text. unfold estimate_tokens. now destruct model_name.
Qed.

Lemma anthropic_reasoning_tokens_witness :
  generate_token_usage "claude-sonnet-4" [TextBlock "ok"]
    {| input_tokens := 10; output_tokens := 20 |}
  = {| tu_input_tokens := 10; tu_output_tokens := 20; total_tokens := 30;
       reasoning_tokens := None |}
  /\ reasoning_tokens
       (generate_token_usage "claude-sonnet-4"
          [ThinkingBlock "first"; TextBlock "ok"; ThinkingBlock "abc"]
          {| input_tokens := 10; output_tokens := 20 |})
     = Some 1.
Proof.
  split.
  - pose proof (proj1 (anthropic_reasoning_tokens "claude-sonnet-4" [TextBlock "ok"]
                         {| input_tokens := 10; output_tokens := 20 |}) eq_refl)
      as [Hr Ht].
    reflexivity.
  - destruct (proj1 (proj2 (anthropic_reasoning_tokens "claude-sonnet-4"
                [ThinkingBlock "first"; TextBlock "ok"; ThinkingBlock "abc"]
                {| input_tokens := 10; output_tokens := 20 |}))
                [ThinkingBlock "first"; TextBlock "ok"] [] "abc" eq_refl eq_refl)
      as [_ Hfull].
    rewrite (proj1 (Hfull ltac:(discriminate))). reflexivity.
Defined.

End TokensFacts.

(** ** The archive of the conversation *)

Module HistoryFacts.
Import History.

Lemma well_formed_empty : well_formed empty_store.
Proof.
  split; [|split; [|split]]; cbn.
  - intros r _. apply lookup_empty.
  - intros r H. now apply elem_of_nil in H.
  - intros r H. now apply elem_of_nil in H.
  - intros r H. now apply elem_of_nil in H.
Qed.

Lemma well_formed_step (σ : store) (o : op) :
  well_formed σ -> well_formed (step σ o).
Proof.
  intros (Hfree & Hcreated & Harchive & Hlive).
  destruct o as [e|i|i e|]; cbn [step].
  - split; [|split; [|split]]; cbn.
    + intros r Hr. rewrite lookup_insert_ne by lia. apply Hfree. lia.
    + intros r [Hr| ->%list_elem_of_singleton]%elem_of_app; [|lia].
      specialize (Hcreated r Hr). lia.
    + intros r Hr. destruct (Harchive r Hr) as [Hlt Hnot]. split; [lia|].
      intros [Hc| ->%list_elem_of_singleton]%elem_of_app; [contradiction | lia].
    + intros r [Hr| ->%list_elem_of_singleton]%elem_of_app.
      * specialize (Hcreated r Hr). rewrite lookup_insert_ne by lia. now apply Hlive.
      * rewrite lookup_insert_eq. eauto.
  - destruct (created σ !! i) as [r|] eqn:Hi; [|now split; [|split; [|split]]].
    apply list_elem_of_lookup_2 in Hi.
    unfold append_history_entry, deepcopy. split; [|split; [|split]]; cbn.
    + intros r' Hr'. destruct (heap σ !! r).
      * rewrite lookup_insert_ne by lia. apply Hfree. lia.
      * apply Hfree. lia.
    + intros r' Hr'. specialize (Hcreated r' Hr'). lia.
    + intros r' [Hr'| ->%list_elem_of_singleton]%elem_of_app.
      * destruct (Harchive r' Hr'). split; [lia | assumption].
      * split; [lia|]. intros Hc. specialize (Hcreated _ Hc). lia.
    + intros r' Hr'. specialize (Hcreated r' Hr'). destruct (heap σ !! r).
      * rewrite lookup_insert_ne by lia. now apply Hlive.
      * now apply Hlive.
  - destruct (created σ !! i) as [r|] eqn:Hi; [|now split; [|split; [|split]]].
    apply list_elem_of_lookup_2 in Hi. pose proof (Hcreated r Hi).
    split; [|split; [|split]]; cbn.
    + intros r' Hr'. rewrite lookup_insert_ne by lia. now apply Hfree.
    + exact Hcreated.
    + exact Harchive.
    + intros r' Hr'. destruct (decide (r = r')) as [->|Hne].
      * rewrite lookup_insert_eq. eauto.
      * rewrite lookup_insert_ne by exact Hne. now apply Hlive.
  - split; [|split; [|split]]; cbn; assumption.
Qed.

Lemma well_formed_run (ops : list op) (σ : store) :
  well_formed σ -> well_formed (run ops σ).
Proof.
  revert σ; induction ops as [|o ops IH]; intros σ H; [exact H|].
  apply IH. now apply well_formed_step.
Qed.

(** What the archive holds does not depend on a dict it has no reference
    of. *)
Lemma contents_insert_other (h : gmap nat entry) (k : nat) (e : entry)
    (refs : list nat) :
  k ∉ refs ->
  map (fun r => <[k := e]> h !! r) refs = map (fun r => h !! r) refs.
Proof.
  intros Hk. apply map_ext_in. intros r Hr%list_elem_of_In.
  apply lookup_insert_ne. intros ->. contradiction.
Qed.

(** One step adds to the archive what it appends, as it is at that time,
    and leaves the rest of the archive as it was. *)
Lemma contents_step (σ : store) (o : op) :
  well_formed σ ->
  contents (step σ o) (full_content_history (step σ o))
  = contents σ (full_content_history σ) ++ appended [o] σ.
Proof.
  intros (Hfree & Hcreated & Harchive & _).
  assert (Hnext : next σ ∉ full_content_history σ).
  { intros H. destruct (Harchive _ H). lia. }
  unfold contents. destruct o as [e|i|i e|]; cbn [step appended].
  - cbn. rewrite !app_nil_r. now apply contents_insert_other.
  - destruct (created σ !! i) as [r|] eqn:Hi; cbn; [|now rewrite !app_nil_r].
    rewrite map_app. cbn. destruct (heap σ !! r) as [e|] eqn:Hr.
    + rewrite lookup_insert_eq. f_equal. now apply contents_insert_other.
    + now rewrite Hfree by lia.
  - destruct (created σ !! i) as [r|] eqn:Hi; cbn; [|now rewrite !app_nil_r].
    rewrite app_nil_r. apply contents_insert_other.
    apply list_elem_of_lookup_2 in Hi. intros H. now destruct (Harchive _ H).
  - cbn. now rewrite app_nil_r.
Qed.

Lemma appended_cons (o : op) (ops : list op) (σ : store) :
  appended (o :: ops) σ = appended [o] σ ++ appended ops (step σ o).
Proof. cbn [appended]. now rewrite app_nil_r. Qed.

(** The archive holds, in append order, what every appended entry held
    when it was appended. *)
Lemma archive_run (ops : list op) (σ : store) :
  well_formed σ ->
  contents (run ops σ) (full_content_history (run ops σ))
  = contents σ (full_content_history σ) ++ appended ops σ.
Proof.
  revert σ; induction ops as [|o ops IH]; intros σ H.
  - cbn. now rewrite app_nil_r.
  - cbn [run fold_left]. fold (run ops (step σ o)).
    rewrite IH by (apply well_formed_step; exact H).
    rewrite contents_step by exact H.
    now rewrite (appended_cons o ops σ), app_assoc.
Qed.

(** The archive only grows. *)
Lemma archive_grows (ops : list op) (σ : store) :
  exists later,
    full_content_history (run ops σ) = full_content_history σ ++ later.
Proof.
  revert σ; induction ops as [|o ops IH]; intros σ.
  - exists []. cbn. now rewrite app_nil_r.
  - cbn [run fold_left]. fold (run ops (step σ o)).
    destruct (IH (step σ o)) as (later & ->).
    destruct o as [e|i|i e|]; cbn [step]; try (now exists later).
    + destruct (created σ !! i) as [r|]; [|now exists later].
      unfold append_history_entry. cbn. exists (next σ :: later).
      now rewrite <- app_assoc.
    + destruct (created σ !! i) as [r|]; now exists later.
Qed.

(** What was archived stays as it is, whatever the program does next. *)
Lemma archive_kept (ops : list op) (σ : store) :
  well_formed σ ->
  contents (run ops σ) (full_content_history σ)
  = contents σ (full_content_history σ).
Proof.
  intros H. pose proof (archive_run ops σ H) as R.
  destruct (archive_grows ops σ) as (later & G). rewrite G in R.
  unfold contents in *. rewrite map_app in R.
  apply app_inj_1 in R as [R _]; [exact R|].
  now rewrite !length_map.
Qed.

Lemma lookup_snoc (l : list nat) (x : nat) : (l ++ [x]) !! length l = Some x.
Proof. rewrite lookup_app_r by lia. now rewrite Nat.sub_diag. Qed.

(** A cycle archives the user entry and the assistant entry. *)
Lemma appended_cycle (σ : store) (user assistant : entry) :
  appended (cycle (length (created σ)) user assistant) σ = [Some user; Some assistant].
Proof.
  unfold cycle, appended.
  change (step σ (New user)) with (new_entry user σ).
  assert (E1 : created (new_entry user σ) !! length (created σ) = Some (next σ))
    by apply lookup_snoc.
  assert (H1 : heap (new_entry user σ) !! next σ = Some user)
    by apply lookup_insert_eq.
  rewrite E1, H1.
  set (σ1 := new_entry user σ) in *.
  assert (S1 : step σ1 (Append (length (created σ))) = append_history_entry (next σ) σ1)
    by (cbn [step]; now rewrite E1).
  rewrite S1.
  set (σ2 := append_history_entry (next σ) σ1) in *.
  change (step σ2 (New assistant)) with (new_entry assistant σ2).
  assert (E2 : created (new_entry assistant σ2) !! S (length (created σ))
               = Some (next σ2)).
  { cbn [new_entry created].
    replace (S (length (created σ))) with (length (created σ2)).
    - apply lookup_snoc.
    - subst σ2 σ1. cbn. rewrite length_app. cbn. lia. }
  assert (H2 : heap (new_entry assistant σ2) !! next σ2 = Some assistant)
    by apply lookup_insert_eq.
  rewrite E2, H2. reflexivity.
Qed.

Lemma content_history_cycle (σ : store) (n : nat) (user assistant : entry) :
  content_history (run (cycle n user assistant) σ) = [].
Proof. reflexivity. Qed.

(** C10.  After any sequence of operations of the program (making
    entries, appending them, changing them in place, clearing the active
    history), started with both histories empty: the archive holds, in
    append order, what every appended entry held when it was appended.
    Appending puts the entry itself on the active history and a fresh copy,
    which the program has no reference of, on the archive.  Clearing
    empties the active history and leaves the archive and the heap alone.
    Whatever follows, the archive keeps its entries, unchanged, at the
    front.  A decision cycle ends with an empty active history and the
    user and assistant entries added to the archive. *)
Theorem archive_keeps_every_entry (ops : list op) :
  let σ := run ops empty_store in
  contents σ (full_content_history σ) = appended ops empty_store
  /\ (forall i r,
        created σ !! i = Some r ->
        exists copy e,
          heap σ !! r = Some e
          /\ content_history (step σ (Append i)) = content_history σ ++ [r]
          /\ full_content_history (step σ (Append i))
             = full_content_history σ ++ [copy]
          /\ copy <> r
          /\ (copy ∉ created (step σ (Append i)))
          /\ heap (step σ (Append i)) !! copy = Some e)
  /\ (content_history (step σ Clear) = []
      /\ full_content_history (step σ Clear) = full_content_history σ
      /\ heap (step σ Clear) = heap σ)
  /\ (forall more,
        (exists later,
           full_content_history (run more σ) = full_content_history σ ++ later)
        /\ contents (run more σ) (full_content_history σ)
           = contents σ (full_content_history σ))
  /\ (forall user assistant,
        let σ' := run (cycle (length (created σ)) user assistant) σ in
        content_history σ' = []
        /\ contents σ' (full_content_history σ')
           = contents σ (full_content_history σ) ++ [Some user; Some assistant]).
Proof.
  cbn zeta.
  pose proof (well_formed_run ops empty_store well_formed_empty) as W.
  set (σ := run ops empty_store) in *.
  split; [|split; [|split; [|split]]].
  - unfold σ. now rewrite archive_run by exact well_formed_empty.
  - intros i r Hi. destruct W as (Hfree & Hcreated & _ & Hlive).
    pose proof (list_elem_of_lookup_2 _ _ _ Hi) as Hr.
    destruct (Hlive r Hr) as [e He]. pose proof (Hcreated r Hr) as Hlt.
    exists (next σ), e. cbn [step]. rewrite Hi.
    unfold append_history_entry, deepcopy. cbn. rewrite He.
    split; [reflexivity|]. split; [reflexivity|]. split; [reflexivity|].
    split; [lia|]. split; [|apply lookup_insert_eq].
    intros Hc. specialize (Hcreated _ Hc). lia.
  - repeat split.
  - intros more. split; [apply archive_grows | now apply archive_kept].
  - intros user assistant. split; [reflexivity|].
    rewrite archive_run by exact W. now rewrite appended_cycle.
Qed.

Lemma archive_keeps_every_entry_witness :
  exists copy e,
    heap (run [New (Entry "user" ["prompt"])] empty_store) !! 0%nat = Some e
    /\ content_history
         (step (run [New (Entry "user" ["prompt"])] empty_store) (Append 0)) = [0%nat]
    /\ full_content_history
         (step (run [New (Entry "user" ["prompt"])] empty_store) (Append 0)) = [copy]
    /\ copy <> 0%nat
    /\ (copy ∉ created
                  (step (run [New (Entry "user" ["prompt"])] empty_store) (Append 0)))
    /\ heap (step (run [New (Entry "user" ["prompt"])] empty_store) (Append 0)) !! copy
       = Some e.
Proof.
  exact (proj1 (proj2 (archive_keeps_every_entry [New (Entry "user" ["prompt"])]))
           0%nat 0%nat eq_refl).
Defined.

End HistoryFacts.

(** ** Retrying, for every retry budget *)

Module RetryBudget.
Import Py Retry.

Section WithClient.
Variable response : Type.
Variable generate_content : nat -> pyexn + response.

(** The loop over what is left of [range(max_retries + 1)]: it stops at
    the k-th call from here, after k quota errors and k sleeps. *)
Lemma retry_loop_calls (n : nat) :
  forall (a : nat) (max_retries retry_delay : Z) (l : log),
    (0 < n)%nat -> Z.of_nat (a + n) = max_retries + 1 ->
    let run := retry_loop response generate_content (map Z.of_nat (seq a n))
                 max_retries retry_delay l in
    exists k : nat,
      (k < n)%nat
      /\ api_calls (snd run) = (api_calls l + S k)%nat
      /\ sleeps (snd run) = sleeps l ++ repeat retry_delay k
      /\ fst run = generate_content (api_calls l + k)%nat
      /\ (forall i, (i < k)%nat ->
            exists e, generate_content (api_calls l + i)%nat = inl e
                      /\ _is_quota_limit_error e = true)
      /\ (forall e, fst run = inl e -> _is_quota_limit_error e = true -> S k = n).
Proof.
  induction n as [|n IH]; intros a max_retries retry_delay l Hn Hsum; [lia|].
  cbn [seq map retry_loop].
  destruct (generate_content (api_calls l)) as [e|r] eqn:Hcall.
  - destruct (_is_quota_limit_error e) eqn:Hq; cbn [andb].
    + destruct (Z.ltb_spec (Z.of_nat a) max_retries) as [Hlt|Hge].
      * destruct (IH (S a) max_retries retry_delay
                    (Log (S (api_calls l)) (sleeps l ++ [retry_delay])))
          as (k & Hk & Hcalls & Hsleeps & Hres & Hearlier & Hlast); [lia|lia|].
        cbn [api_calls sleeps] in *.
        exists (S k). split; [lia|]. split; [rewrite Hcalls; lia|].
        split; [rewrite Hsleeps, <- app_assoc; reflexivity|].
        split; [rewrite Hres; f_equal; lia|].
        split.
        -- intros [|i] Hi.
           ++ exists e. now rewrite Nat.add_0_r.
           ++ destruct (Hearlier i) as (e' & He' & Hq'); [lia|].
              exists e'. split; [|exact Hq'].
              rewrite <- He'. f_equal. lia.
        -- intros e' He' Hq'. rewrite (Hlast e' He' Hq'). reflexivity.
      * exists 0%nat. cbn [fst snd api_calls sleeps repeat].
        split; [lia|]. split; [lia|]. split; [now rewrite app_nil_r|].
        split; [now rewrite Nat.add_0_r|]. split; [intros i Hi; lia|].
        intros _ _ _. lia.
    + exists 0%nat. cbn [fst snd api_calls sleeps repeat].
      split; [lia|]. split; [lia|]. split; [now rewrite app_nil_r|].
      split; [now rewrite Nat.add_0_r|]. split; [intros i Hi; lia|].
      intros e' [= <-] Hq'. congruence.
  - exists 0%nat. cbn [fst snd api_calls sleeps repeat].
    split; [lia|]. split; [lia|]. split; [now rewrite app_nil_r|].
    split; [now rewrite Nat.add_0_r|]. split; [intros i Hi; lia|].
    intros e' [=].
Qed.

End WithClient.

(** X5.  [_generate_content_with_retry] for any retry budget.  With
    [max_retries >= 0] the wrapper makes [k + 1] calls for some
    [k <= max_retries]: the first [k] raised quota errors, each followed
    by one sleep of [retry_delay]; what it returns or raises is the outcome
    of the last call, and it raises a quota error only when the budget is
    used up ([k = max_retries]).  The [RuntimeError] after the loop is
    reached only with a negative [max_retries], and then without any call. *)
Theorem retry_budget (response : Type) (generate_content : nat -> pyexn + response)
    (max_retries retry_delay : Z) (l : log) :
  let run := _generate_content_with_retry response generate_content
               max_retries retry_delay l in
  (0 <= max_retries ->
   exists k : nat,
     Z.of_nat k <= max_retries
     /\ api_calls (snd run) = (api_calls l + S k)%nat
     /\ sleeps (snd run) = sleeps l ++ repeat retry_delay k
     /\ fst run = generate_content (api_calls l + k)%nat
     /\ (forall i, (i < k)%nat ->
           exists e, generate_content (api_calls l + i)%nat = inl e
                     /\ _is_quota_limit_error e = true)
     /\ (forall e, fst run = inl e -> _is_quota_limit_error e = true ->
           Z.of_nat k = max_retries))
  /\ (max_retries < 0 -> run = (inl (RuntimeError), l)).
Proof.
  cbn zeta. unfold _generate_content_with_retry, range. split.
  - intros Hpos.
    destruct (retry_loop_calls response generate_content
                (Z.to_nat (max_retries + 1)) 0 max_retries retry_delay l)
      as (k & Hk & Hcalls & Hsleeps & Hres & Hearlier & Hlast); [lia|lia|].
    exists k. split; [lia|]. split; [exact Hcalls|]. split; [exact Hsleeps|].
    split; [exact Hres|]. split; [exact Hearlier|].
    intros e He Hq. specialize (Hlast e He Hq). lia.
  - intros Hneg. replace (Z.to_nat (max_retries + 1)) with 0%nat by lia.
    reflexivity.
Qed.

Lemma retry_budget_witness :
  (exists k : nat,
     Z.of_nat k <= 3
     /\ api_calls (snd (_generate_content_with_retry string
                          (fun n => if (n <? 2)%nat
                                    then inl (Exn "ClientError" "429 quota")
                                    else inr "done"%string) 3 5000 no_log))
        = (0 + S k)%nat)
  /\ _generate_content_with_retry string (fun _ => inr "done"%string) (-1) 5000 no_log
     = (inl RuntimeError, no_log).
Proof.
  pose proof (retry_budget string
                (fun n => if (n <? 2)%nat then inl (Exn "ClientError" "429 quota")
                          else inr "done"%string) 3 5000 no_log) as [Hpos _].
  pose proof (retry_budget string (fun _ => inr "done"%string) (-1) 5000 no_log)
    as [_ Hneg].
  split.
  - destruct (Hpos ltac:(lia)) as (k & Hk & Hcalls & _). exists k. split; [exact Hk|exact Hcalls].
  - apply Hneg. lia.
Defined.

End RetryBudget.

(** ** The length heuristic *)

Module TokenEstimate.
Import Py Tokens.

Lemma estimate_tokens_cases (text : string) (model_name : option string) :
  let base := Z.of_nat (String.length text) / 4 in
  estimate_tokens text model_name = Z.max 1 base
  \/ estimate_tokens text model_name = base * 11 / 10
  \/ estimate_tokens text model_name = base
  \/ estimate_tokens text model_name = base * 12 / 10.
Proof.
  cbn zeta. unfold estimate_tokens.
  destruct model_name as [[|c name]|]; [now left| |now left].
  destruct (contains "gpt" _); [now right; left|].
  destruct (contains "llama" _); [now right; right; left|].
  destruct (_ || _); [now right; right; right|now left].
Qed.

(** X6.  [estimate_tokens] lies between a quarter of the length, rounded down,
    and three tenths of it, apart from the floor of one token that names
    outside the model families get; and it is zero only for a text of
    fewer than four characters under a name of a family ([gpt], [llama],
    [qwen], [deepseek]). *)
Theorem estimate_tokens_bounds (text : string) (model_name : option string) :
  let n := Z.of_nat (String.length text) in
  n / 4 <= estimate_tokens text model_name <= Z.max 1 (3 * n / 10)
  /\ (estimate_tokens text model_name = 0 ->
        n < 4
        /\ exists name, model_name = Some name
             /\ (contains "gpt" (lower name) || contains "llama" (lower name)
                 || contains "qwen" (lower name) || contains "deepseek" (lower name))
                = true).
Proof.
  cbn zeta. split.
  - pose proof (estimate_tokens_cases text model_name) as H. cbn zeta in H.
    pose proof (Nat2Z.is_nonneg (String.length text)) as Hn.
    destruct H as [H|[H|[H|H]]]; rewrite H; clear H;
      Z.to_euclidean_division_equations; lia.
  - unfold estimate_tokens.
    pose proof (Nat2Z.is_nonneg (String.length text)) as Hn.
    destruct model_name as [[|c name]|].
    + intros H. exfalso. Z.to_euclidean_division_equations; lia.
    + destruct (contains "gpt" _) eqn:Hg.
      { intros H. split; [Z.to_euclidean_division_equations; lia|].
        eexists; split; [reflexivity|]. now rewrite Hg. }
      destruct (contains "llama" _) eqn:Hl.
      { intros H. split; [Z.to_euclidean_division_equations; lia|].
        eexists; split; [reflexivity|]. rewrite Hl. now rewrite orb_true_r. }
      destruct (contains "qwen" _ || contains "deepseek" _) eqn:Hq.
      { intros H. split; [Z.to_euclidean_division_equations; lia|].
        eexists; split; [reflexivity|].
        rewrite Hg, Hl. cbn [orb]. exact Hq. }
      intros H. exfalso. Z.to_euclidean_division_equations; lia.
    + intros H. exfalso. Z.to_euclidean_division_equations; lia.
Qed.

(** X7.  A longer text never gets a smaller estimate, whatever the model. *)
Theorem estimate_tokens_monotone (text1 text2 : string) (model_name : option string) :
  (String.length text1 <= String.length text2)%nat ->
  estimate_tokens text1 model_name <= estimate_tokens text2 model_name.
Proof.
  intros Hlen. unfold estimate_tokens.
  assert (Hbase : Z.of_nat (String.length text1) / 4
                  <= Z.of_nat (String.length text2) / 4)
    by (apply Z.div_le_mono; lia).
  set (b1 := Z.of_nat (String.length text1) / 4) in *.
  set (b2 := Z.of_nat (String.length text2) / 4) in *.
  destruct model_name as [[|c name]|]; [lia| |lia].
  destruct (contains "gpt" _); [apply Z.div_le_mono; lia|].
  destruct (contains "llama" _); [exact Hbase|].
  destruct (_ || _); [apply Z.div_le_mono; lia|lia].
Qed.

Lemma estimate_tokens_monotone_witness :
  estimate_tokens "abcd" (Some "gpt-4o"%string)
  <= estimate_tokens "abcdefghijkl" (Some "gpt-4o"%string).
Proof.
  apply (estimate_tokens_monotone "abcd" "abcdefghijkl" (Some "gpt-4o"%string)).
  cbn. lia.
Defined.

End TokenEstimate.

(** ** More facts about Python strings *)

Module StrFacts.
Import Py Str PyFacts.

(** *** Characters *)

Lemma chars_app (a b : string) :
  list_ascii_of_string (a +:+ b) = list_ascii_of_string a ++ list_ascii_of_string b.
Proof.
  induction a as [|x a IH]; [reflexivity|].
  rewrite append_cons. cbn. now rewrite IH.
Qed.

Lemma chars_map_chars (f : ascii -> ascii) (s : string) :
  list_ascii_of_string (map_chars f s) = map f (list_ascii_of_string s).
Proof. induction s as [|x s IH]; [reflexivity|]. cbn. now rewrite IH. Qed.

Lemma map_chars_length (f : ascii -> ascii) (s : string) :
  len (map_chars f s) = len s.
Proof. induction s as [|x s IH]; [reflexivity|]. cbn. now rewrite IH. Qed.

Lemma map_chars_app (f : ascii -> ascii) (a b : string) :
  map_chars f (a +:+ b) = map_chars f a +:+ map_chars f b.
Proof.
  induction a as [|x a IH]; [reflexivity|].
  rewrite append_cons. cbn [map_chars]. now rewrite append_cons, IH.
Qed.

Lemma append_empty_r (s : string) : s +:+ EmptyString = s.
Proof. induction s as [|x s IH]; [reflexivity|]. now rewrite append_cons, IH. Qed.

(** [c in s] for a one-character [c]. *)
Lemma contains_char (c : ascii) (s : string) :
  contains (String c EmptyString) s = true <-> In c (list_ascii_of_string s).
Proof.
  rewrite contains_spec. split.
  - intros (b & r & ->). rewrite chars_app, append_cons, append_empty.
    apply in_or_app. right. now left.
  - induction s as [|x s IH]; [intros []|].
    intros [->|Hin].
    + exists EmptyString, s. reflexivity.
    + destruct (IH Hin) as (b & r & ->). exists (String x b), r. reflexivity.
Qed.

Lemma not_contains_char (c : ascii) (s : string) :
  contains (String c EmptyString) s = false <-> ~ In c (list_ascii_of_string s).
Proof.
  rewrite <- contains_char. destruct (contains _ s); split; intros H; congruence.
Qed.

(** A text that does not contain [pat] has no part that does. *)
Lemma not_contains_app (pat a b : string) :
  contains pat (a +:+ b) = false -> contains pat a = false /\ contains pat b = false.
Proof.
  intros H. split.
  - destruct (contains pat a) eqn:E; [|reflexivity].
    apply contains_spec in E as (x & y & ->).
    rewrite <- H. symmetry. apply contains_spec. exists x, (y +:+ b).
    now rewrite !append_assoc.
  - destruct (contains pat b) eqn:E; [|reflexivity].
    apply contains_spec in E as (x & y & ->).
    rewrite <- H. symmetry. apply contains_spec. exists (a +:+ x), y.
    now rewrite !append_assoc.
Qed.

Lemma append_inj_length (a b c d : string) :
  a +:+ b = c +:+ d -> len a = len c -> a = c /\ b = d.
Proof.
  revert c; induction a as [|x a IH]; intros [|y c] H L; try discriminate L.
  - now rewrite !append_empty in H.
  - rewrite !append_cons in H. injection H as -> H. injection L as L.
    destruct (IH c H L) as [-> ->]. now split.
Qed.

(** *** [partition] *)

Lemma partition_none (pat s : string) :
  partition pat s = None <-> contains pat s = false.
Proof. unfold contains. destruct (partition pat s); split; congruence. Qed.

(** The text before the leftmost occurrence holds no occurrence, and none
    begins in it. *)
Lemma partition_before (pat s before rest x y : string) :
  partition pat s = Some (before, rest) -> pat <> EmptyString ->
  before +:+ pat = x +:+ pat +:+ y -> x = before /\ y = EmptyString.
Proof.
  intros Hp Hne Heq.
  pose proof (partition_app _ _ _ _ Hp) as Hs.
  assert (Hs' : s = x +:+ pat +:+ (y +:+ rest)).
  { rewrite Hs, <- !append_assoc, Heq, !append_assoc. reflexivity. }
  pose proof (partition_leftmost _ _ _ _ _ _ Hp Hs') as Hle.
  destruct (append_split before pat x (pat +:+ y) Heq Hle) as (d & -> & Hd).
  assert (Hlen : len (before +:+ pat) = len ((before +:+ d) +:+ pat +:+ y))
    by now rewrite Heq.
  rewrite !append_length in Hlen.
  assert (d = EmptyString) as -> by (destruct d; [reflexivity|cbn in Hlen; lia]).
  assert (y = EmptyString) as -> by (destruct y; [reflexivity|cbn in Hlen; lia]).
  now rewrite append_empty_r.
Qed.

(** Where no occurrence begins before [a], the leftmost one is at [a]. *)
Lemma partition_at (pat a r : string) :
  (forall x y z, a +:+ pat = x +:+ pat +:+ y -> a = x +:+ z -> z = EmptyString) ->
  partition pat (a +:+ pat +:+ r) = Some (a, r).
Proof.
  intros Hfirst.
  destruct (partition pat (a +:+ pat +:+ r)) as [[b r']|] eqn:Hp;
    [|now apply partition_complete in Hp].
  pose proof (partition_app _ _ _ _ Hp) as Hs.
  pose proof (partition_leftmost _ _ _ _ _ _ Hp eq_refl) as Hle.
  symmetry in Hs.
  destruct (append_split b (pat +:+ r') a (pat +:+ r) Hs Hle) as (d & -> & Hd).
  destruct d as [|c d].
  - rewrite append_empty in Hd. rewrite append_empty_r.
    f_equal. f_equal.
    assert (Hl : len pat = len pat) by reflexivity.
    now destruct (append_inj_length pat r' pat r Hd Hl).
  - exfalso.
    assert (Hlen : (len pat <= len (String c d +:+ pat))%nat)
      by (rewrite append_length; lia).
    destruct (append_split pat r' (String c d +:+ pat) r) as (e & He & _);
      [now rewrite append_assoc|exact Hlen|].
    specialize (Hfirst b e (String c d)).
    discriminate Hfirst; [|reflexivity].
    now rewrite append_assoc, He.
Qed.

(** For a one-character pattern. *)
Lemma partition_char_at (c : ascii) (a r : string) :
  contains (String c EmptyString) a = false ->
  partition (String c EmptyString) (a +:+ String c EmptyString +:+ r) = Some (a, r).
Proof.
  intros Hno. apply partition_at. intros x y z Heq ->.
  destruct z as [|c' z]; [reflexivity|exfalso].
  apply not_contains_app in Hno as [_ Hno].
  rewrite append_assoc in Heq.
  apply append_inj_length in Heq as [_ Heq]; [|reflexivity].
  rewrite !append_cons, append_empty in Heq. injection Heq as -> _.
  apply not_contains_char in Hno. apply Hno. now left.
Qed.

(** *** [split] *)

Lemma split_first_spec (sep s : string) :
  exists rest, s = split_first sep s +:+ rest.
Proof.
  unfold split_first. destruct (partition sep s) as [[b r]|] eqn:Hp.
  - exists (sep +:+ r). now apply partition_app.
  - exists EmptyString. now rewrite append_empty_r.
Qed.

Lemma split_first_char (c : ascii) (s : string) :
  contains (String c EmptyString) (split_first (String c EmptyString) s) = false.
Proof.
  unfold split_first. destruct (partition _ s) as [[b r]|] eqn:Hp.
  - destruct (contains _ b) eqn:E; [exfalso|reflexivity].
    apply contains_spec in E as (x & y & ->).
    destruct (partition_before _ _ _ _ x (y +:+ String c EmptyString) Hp) as [_ Hy];
      [discriminate|now rewrite !append_assoc|].
    destruct y; discriminate Hy.
  - now apply partition_none.
Qed.

Lemma partition_shorter (pat s before rest : string) :
  partition pat s = Some (before, rest) -> pat <> EmptyString ->
  (len rest < len s)%nat.
Proof.
  intros Hp Hne. apply partition_app in Hp as ->.
  rewrite !append_length. destruct pat; [contradiction|cbn; lia].
Qed.

Lemma split_last_within_enough (sep : string) (fuel : nat) :
  sep <> EmptyString ->
  forall (s : string) (fuel' : nat),
    (len s <= fuel)%nat -> (len s <= fuel')%nat ->
    split_last_within fuel sep s = split_last_within fuel' sep s.
Proof.
  intros Hne.
  assert (Hempty : forall f, split_last_within f sep EmptyString = EmptyString).
  { intros [|f]; [reflexivity|]. cbn [split_last_within].
    destruct (partition sep EmptyString) as [[b r]|] eqn:Hp; [|reflexivity].
    apply partition_shorter in Hp; [cbn in Hp; lia|exact Hne]. }
  induction fuel as [|fuel IH]; intros s fuel' H H'.
  - destruct s; [|cbn in H; lia]. now rewrite !Hempty.
  - destruct fuel' as [|fuel'].
    + destruct s; [|cbn in H'; lia]. now rewrite !Hempty.
    + cbn [split_last_within].
      destruct (partition sep s) as [[b r]|] eqn:Hp; [|reflexivity].
      apply partition_shorter in Hp; [|exact Hne].
      apply IH; lia.
Qed.

(** The unfolding of [split(sep)[-1]]. *)
Lemma split_last_cut (sep s before rest : string) :
  sep <> EmptyString ->
  partition sep s = Some (before, rest) -> split_last sep s = split_last sep rest.
Proof.
  intros Hne Hp. unfold split_last.
  pose proof (partition_shorter _ _ _ _ Hp Hne) as Hlt.
  destruct (len s) as [|n] eqn:Hn; [lia|].
  cbn [split_last_within]. rewrite Hp.
  apply split_last_within_enough; [exact Hne|lia|lia].
Qed.

Lemma split_last_whole (sep s : string) :
  contains sep s = false -> split_last sep s = s.
Proof.
  intros Hno. apply partition_none in Hno. unfold split_last.
  destruct (len s); cbn [split_last_within]; [reflexivity|]. now rewrite Hno.
Qed.

(** What [split(sep)[-1]] returns is an end of the text and holds no
    separator. *)
Lemma split_last_spec (sep s : string) :
  sep <> EmptyString ->
  (exists before, s = before +:+ split_last sep s)
  /\ contains sep (split_last sep s) = false.
Proof.
  intros Hne.
  remember (len s) as n eqn:Hn.
  revert s Hn. induction n as [n IH] using lt_wf_ind. intros s ->.
  destruct (partition sep s) as [[b r]|] eqn:Hp.
  - rewrite (split_last_cut _ _ _ _ Hne Hp).
    pose proof (partition_shorter _ _ _ _ Hp Hne) as Hlt.
    destruct (IH (len r) Hlt r eq_refl) as [(b' & Hb') Hno].
    split; [|exact Hno].
    exists (b +:+ sep +:+ b').
    rewrite (partition_app _ _ _ _ Hp) at 1. rewrite Hb' at 1.
    now rewrite !append_assoc.
  - apply partition_none in Hp. rewrite (split_last_whole _ _ Hp).
    split; [now exists EmptyString|exact Hp].
Qed.

(** *** [strip] and [lower] *)

Lemma lstrip_spec (s : string) :
  exists ws, s = ws +:+ lstrip s
    /\ forallb is_space (list_ascii_of_string ws) = true
    /\ match lstrip s with
       | String c _ => is_space c = false
       | EmptyString => True
       end.
Proof.
  induction s as [|c s (ws & Hs & Hws & Hhead)].
  - exists EmptyString. now split.
  - cbn [lstrip]. destruct (is_space c) eqn:Hc.
    + exists (String c ws). rewrite append_cons, <- Hs. split; [reflexivity|].
      split; [cbn [list_ascii_of_string forallb]; now rewrite Hc, Hws|exact Hhead].
    + exists EmptyString. split; [reflexivity|]. split; [reflexivity|exact Hc].
Qed.

Lemma lstrip_fixed (s : string) :
  match s with String c _ => is_space c = false | EmptyString => True end ->
  lstrip s = s.
Proof. destruct s as [|c s]; [reflexivity|]. cbn. now intros ->. Qed.

Lemma rstrip_head (c : ascii) (s : string) :
  is_space c = false -> exists r, rstrip (String c s) = String c r.
Proof.
  intros Hc. cbn [rstrip]. destruct (rstrip s).
  - rewrite Hc. now exists EmptyString.
  - now eexists.
Qed.

Lemma rstrip_idem (s : string) : rstrip (rstrip s) = rstrip s.
Proof.
  induction s as [|c s IH]; [reflexivity|].
  cbn [rstrip]. destruct (rstrip s) as [|d r] eqn:Hr.
  - destruct (is_space c) eqn:Hc; [reflexivity|]. cbn. now rewrite Hc.
  - cbn [rstrip] in *. now rewrite IH.
Qed.

Lemma rstrip_spec (s : string) :
  exists ws, s = rstrip s +:+ ws /\ forallb is_space (list_ascii_of_string ws) = true.
Proof.
  induction s as [|c s (ws & Hs & Hws)].
  - now exists EmptyString.
  - cbn [rstrip]. destruct (rstrip s) as [|d r] eqn:Hr.
    + destruct (is_space c) eqn:Hc.
      * rewrite append_empty in Hs. subst ws. exists (String c s).
        split; [reflexivity|]. cbn [list_ascii_of_string forallb]. now rewrite Hc, Hws.
      * rewrite append_empty in Hs. subst ws. exists s.
        rewrite append_cons, append_empty. now split.
    + exists ws. rewrite append_cons, <- Hs. now split.
Qed.

(** What [strip] returns is a part of the text. *)
Lemma strip_spec (s : string) :
  exists before after, s = before +:+ strip s +:+ after.
Proof.
  unfold strip.
  destruct (lstrip_spec s) as (ws & Hs & _).
  destruct (rstrip_spec (lstrip s)) as (ws' & Hs' & _).
  exists ws, ws'. rewrite <- Hs'. exact Hs.
Qed.

Lemma strip_idem (s : string) : strip (strip s) = strip s.
Proof.
  unfold strip.
  destruct (lstrip_spec s) as (_ & _ & _ & Hhead).
  assert (H : lstrip (rstrip (lstrip s)) = rstrip (lstrip s)).
  { apply lstrip_fixed. destruct (lstrip s) as [|c t]; [exact I|].
    destruct (rstrip_head c t Hhead) as (r & ->). exact Hhead. }
  rewrite H. apply rstrip_idem.
Qed.

Lemma lower_char_space (c : ascii) : is_space (lower_char c) = is_space c.
Proof. destruct c as [[] [] [] [] [] [] [] []]; reflexivity. Qed.

Lemma lower_char_idem (c : ascii) : lower_char (lower_char c) = lower_char c.
Proof. destruct c as [[] [] [] [] [] [] [] []]; reflexivity. Qed.

Lemma lower_idem (s : string) : lower (lower s) = lower s.
Proof.
  induction s as [|c s IH]; [reflexivity|].
  cbn. rewrite lower_char_idem. f_equal. exact IH.
Qed.

Lemma lstrip_lower (s : string) : lstrip (lower s) = lower (lstrip s).
Proof.
  induction s as [|c s IH]; [reflexivity|].
  cbn. rewrite lower_char_space. destruct (is_space c); [exact IH|reflexivity].
Qed.

Lemma rstrip_lower (s : string) : rstrip (lower s) = lower (rstrip s).
Proof.
  induction s as [|c s IH]; [reflexivity|].
  cbn [lower map_chars rstrip]. fold (lower s). rewrite IH.
  destruct (rstrip s); cbn; [|reflexivity].
  rewrite lower_char_space. now destruct (is_space c).
Qed.

Lemma strip_lower (s : string) : strip (lower s) = lower (strip s).
Proof. unfold strip. now rewrite lstrip_lower, rstrip_lower. Qed.

End StrFacts.

(** ** The command line and the names of a run *)

Module CliFacts.
Import Py Str PyFacts StrFacts Cli.

Lemma chars_strip (c : ascii) (s : string) :
  In c (list_ascii_of_string (strip s)) -> In c (list_ascii_of_string s).
Proof.
  destruct (strip_spec s) as (b & a & Hs). intros Hin.
  rewrite Hs, !chars_app. apply in_or_app. right. apply in_or_app. now left.
Qed.

Lemma lower_char_colon (c : ascii) : lower_char c = ":"%char -> c = ":"%char.
Proof.
  destruct c as [[] [] [] [] [] [] [] []]; vm_compute; intros H;
    first [discriminate H | reflexivity].
Qed.

Lemma lower_char_slash (c : ascii) : lower_char c = "/"%char -> c = "/"%char.
Proof.
  destruct c as [[] [] [] [] [] [] [] []]; vm_compute; intros H;
    first [discriminate H | reflexivity].
Qed.

Lemma lower_strip_no_colon (s : string) :
  contains ":" s = false -> contains ":" (lower (strip s)) = false.
Proof.
  rewrite !not_contains_char. intros Hno Hin. apply Hno.
  unfold lower in Hin. rewrite chars_map_chars in Hin.
  apply in_map_iff in Hin as (c & Hc & Hin).
  apply lower_char_colon in Hc as ->. now apply chars_strip.
Qed.

Lemma partition_colon (model_string part0 part1 : string) :
  partition ":" model_string = Some (part0, part1)
  <-> model_string = part0 +:+ ":" +:+ part1 /\ contains ":" part0 = false.
Proof.
  split.
  - intros Hp. split; [now apply partition_app|].
    pose proof (split_first_char ":" model_string) as H.
    unfold split_first in H. now rewrite Hp in H.
  - intros [-> Hno]. now apply partition_char_at.
Qed.

(** X8.  [parse_model_string] cuts at the first colon.  It raises its first
    [ValueError] exactly when the text has no colon; it returns a pair
    exactly when the provider, stripped and in lower case, and the model
    name, stripped, are both non-empty, and these are what it returns: a
    colon in the model name is kept. *)
Theorem parse_model_string_spec (model_string : string) :
  (parse_model_string model_string = inl NotProviderColonModel
   <-> contains ":" model_string = false)
  /\ (forall provider model_name,
        parse_model_string model_string = inr (provider, model_name)
        <-> exists part0 part1,
              model_string = part0 +:+ ":" +:+ part1
              /\ contains ":" part0 = false
              /\ provider = lower (strip part0)
              /\ model_name = strip part1
              /\ provider <> EmptyString /\ model_name <> EmptyString).
Proof.
  unfold parse_model_string. split.
  - rewrite <- partition_none.
    destruct (partition ":" model_string) as [[part0 part1]|]; [|now split].
    destruct (_ || _); split; discriminate.
  - intros provider model_name. split.
    + destruct (partition ":" model_string) as [[part0 part1]|] eqn:Hp; [|discriminate].
      apply partition_colon in Hp as [Hs Hno].
      destruct (String.eqb_spec (lower (strip part0)) "") as [|Hp0]; [discriminate|].
      destruct (String.eqb_spec (strip part1) "") as [|Hp1]; [discriminate|].
      cbn [orb]. intros [= <- <-]. now exists part0, part1.
    + intros (part0 & part1 & Hs & Hno & -> & -> & Hp0 & Hp1).
      rewrite (proj2 (partition_colon _ _ _) (conj Hs Hno)).
      destruct (String.eqb_spec (lower (strip part0)) ""); [contradiction|].
      destruct (String.eqb_spec (strip part1) ""); [contradiction|].
      reflexivity.
Qed.

(** X9.  What [parse_model_string] returns is in normal form: joined with a
    colon and parsed again it gives the same pair.  The provider has no
    colon, and neither part has white space around it. *)
Theorem parse_model_string_round_trip (model_string provider model_name : string) :
  parse_model_string model_string = inr (provider, model_name) ->
  parse_model_string (provider +:+ ":" +:+ model_name) = inr (provider, model_name)
  /\ contains ":" provider = false
  /\ lower provider = provider
  /\ strip provider = provider
  /\ strip model_name = model_name.
Proof.
  intros H.
  apply (proj2 (parse_model_string_spec model_string)) in H
    as (part0 & part1 & _ & Hno & -> & -> & Hp0 & Hp1).
  assert (Hcolon : contains ":" (lower (strip part0)) = false)
    by now apply lower_strip_no_colon.
  assert (Hlow : lower (lower (strip part0)) = lower (strip part0))
    by apply lower_idem.
  assert (Hstrip : strip (lower (strip part0)) = lower (strip part0))
    by now rewrite strip_lower, strip_idem.
  assert (Hstrip' : strip (strip part1) = strip part1) by apply strip_idem.
  split; [|now repeat split].
  apply (proj2 (parse_model_string_spec _)).
  exists (lower (strip part0)), (strip part1).
  rewrite Hstrip, Hlow, Hstrip'. now repeat split.
Qed.

Lemma parse_model_string_round_trip_witness :
  parse_model_string "openai:gpt-4o" = inr ("openai", "gpt-4o")%string
  /\ contains ":" "openai" = false.
Proof.
  destruct (parse_model_string_round_trip " OpenAI : gpt-4o " "openai" "gpt-4o")
    as (H & Hc & _); [reflexivity|].
  split; [exact H|exact Hc].
Defined.

Lemma replace_char_chars (a b c : ascii) (s : string) :
  In c (list_ascii_of_string (replace_char a b s)) ->
  c <> a \/ a = b.
Proof.
  unfold replace_char. rewrite chars_map_chars. intros Hin.
  apply in_map_iff in Hin as (x & Hx & _).
  destruct (Ascii.eqb_spec x a) as [Heq|Hne].
  - subst x c. destruct (Ascii.eqb_spec a b) as [Hab|Hab]; [now right|left; congruence].
  - subst c. now left.
Qed.

Lemma replace_char_keeps_out (a b c : ascii) (s : string) :
  c <> b ->
  contains (String c EmptyString) s = false ->
  contains (String c EmptyString) (replace_char a b s) = false.
Proof.
  rewrite !not_contains_char. intros Hcb Hno Hin. apply Hno.
  unfold replace_char in Hin. rewrite chars_map_chars in Hin.
  apply in_map_iff in Hin as (x & Hx & Hin).
  destruct (Ascii.eqb_spec x a); [congruence|now subst x].
Qed.

Lemma replace_char_removes (a b : ascii) (s : string) :
  a <> b -> contains (String a EmptyString) (replace_char a b s) = false.
Proof.
  intros Hab. apply not_contains_char. intros Hin.
  apply replace_char_chars in Hin as [H|H]; contradiction.
Qed.

Lemma sanitized_model_name_no_slash (model_name : string) :
  contains "/" (sanitized_model_name model_name) = false.
Proof.
  unfold sanitized_model_name.
  apply replace_char_keeps_out; [discriminate|].
  apply replace_char_keeps_out; [discriminate|].
  apply replace_char_removes. discriminate.
Qed.

(** X10.  The model name in the folder of a run has the length of the model
    name and holds no slash, no colon and no blank. *)
Theorem sanitized_model_name_spec (model_name : string) :
  len (sanitized_model_name model_name) = len model_name
  /\ contains "/" (sanitized_model_name model_name) = false
  /\ contains ":" (sanitized_model_name model_name) = false
  /\ contains " " (sanitized_model_name model_name) = false.
Proof.
  split; [|split; [apply sanitized_model_name_no_slash|split]].
  - unfold sanitized_model_name, replace_char. now rewrite !map_chars_length.
  - unfold sanitized_model_name.
    apply replace_char_keeps_out; [discriminate|].
    apply replace_char_removes. discriminate.
  - unfold sanitized_model_name. apply replace_char_removes. discriminate.
Qed.

End CliFacts.

(** ** The game name of a URL *)

Module GameNameFacts.
Import Py Str PyFacts StrFacts Cli CliFacts.

Lemma contains_char_app (c : ascii) (a b : string) :
  contains (String c EmptyString) a = false ->
  contains (String c EmptyString) b = false ->
  contains (String c EmptyString) (a +:+ b) = false.
Proof.
  rewrite !not_contains_char, chars_app. intros Ha Hb Hin.
  apply in_app_or in Hin as [H|H]; [now apply Ha|now apply Hb].
Qed.

Lemma lower_no_slash (s : string) :
  contains "/" s = false -> contains "/" (lower s) = false.
Proof.
  rewrite !not_contains_char. intros Hno Hin. apply Hno.
  unfold lower in Hin. rewrite chars_map_chars in Hin.
  apply in_map_iff in Hin as (c & Hc & Hin).
  now apply lower_char_slash in Hc as ->.
Qed.

Lemma game_name_of_games_path_no_slash (path : string) :
  contains "/" (game_name_of_games_path path) = false.
Proof.
  unfold game_name_of_games_path.
  destruct (contains "/games/" path); [|reflexivity].
  destruct (String.eqb _ ""); [reflexivity|apply split_first_char].
Qed.

(** The game name read off a URL holds no slash. *)
Lemma parse_game_name_from_url_no_slash (parsed_path : option string) :
  contains "/" (parse_game_name_from_url parsed_path) = false.
Proof.
  destruct parsed_path as [path|]; [|reflexivity].
  unfold parse_game_name_from_url.
  destruct (contains "/variants_final/" path);
    [|apply game_name_of_games_path_no_slash].
  pose proof (split_first_char "/" (split_last "/variants_final/" path)) as Hfolder.
  destruct (strip_prefix "[" _) as [after_bracket|] eqn:Hb;
    [|apply game_name_of_games_path_no_slash].
  apply strip_prefix_app in Hb. rewrite Hb in Hfolder.
  apply not_contains_app in Hfolder as [_ Hafter].
  destruct (partition "]" after_bracket) as [[inside suffix]|] eqn:Hp;
    [|apply game_name_of_games_path_no_slash].
  apply partition_app in Hp. rewrite Hp in Hafter.
  apply not_contains_app in Hafter as [Hinside Hsuffix].
  apply not_contains_app in Hsuffix as [_ Hsuffix].
  assert (Hname : contains "/" (replace_char " " "-" (lower inside)) = false).
  { apply replace_char_keeps_out; [discriminate|]. now apply lower_no_slash. }
  destruct (String.eqb suffix ""); [exact Hname|].
  now apply contains_char_app.
Qed.

(** X11.  The folder of a run's results is one path component when the game
    name was read off the URL: with a session id without slash it holds no
    slash, whatever the model name and the URL are. *)
Theorem results_folder_name_one_component
    (session_id model_name : string) (parsed_path : option string) :
  contains "/" session_id = false ->
  contains "/"
    (results_folder_name session_id model_name (parse_game_name_from_url parsed_path))
  = false.
Proof.
  intros Hsession. unfold results_folder_name.
  apply contains_char_app; [exact Hsession|].
  apply contains_char_app; [reflexivity|].
  apply contains_char_app; [apply sanitized_model_name_no_slash|].
  apply contains_char_app; [reflexivity|].
  apply parse_game_name_from_url_no_slash.
Qed.

Lemma results_folder_name_one_component_witness :
  contains "/"
    (results_folder_name "20250101_120000_000001" "meta-llama/Llama-3.1-8B"
       (parse_game_name_from_url (Some "/games/a/b/../../x"%string)))
  = false.
Proof.
  apply (results_folder_name_one_component "20250101_120000_000001"
           "meta-llama/Llama-3.1-8B" (Some "/games/a/b/../../x"%string)).
  reflexivity.
Defined.

Lemma snoc_view (s : string) :
  s <> EmptyString -> exists s0 e, s = s0 +:+ String e EmptyString.
Proof.
  induction s as [|c s IH]; [contradiction|]. intros _.
  destruct s as [|d s].
  - now exists EmptyString, c.
  - destruct IH as (s0 & e & Hs); [discriminate|].
    exists (String c s0), e. now rewrite append_cons, <- Hs.
Qed.

Lemma snoc_inj (a b : string) (c e : ascii) :
  a +:+ String c EmptyString = b +:+ String e EmptyString -> a = b /\ c = e.
Proof.
  intros H.
  assert (Hlen : len a = len b).
  { pose proof (f_equal String.length H) as L.
    rewrite !append_length in L. cbn in L. lia. }
  destruct (append_inj_length _ _ _ _ H Hlen) as [-> [= ->]]. now split.
Qed.

(** An occurrence is the leftmost one when none begins before it: none
    is found in the text before it followed by the pattern without its
    last character. *)
Lemma partition_at_guard (p' : string) (c : ascii) (a r : string) :
  contains (p' +:+ String c EmptyString) (a +:+ p') = false ->
  partition (p' +:+ String c EmptyString) (a +:+ (p' +:+ String c EmptyString) +:+ r)
  = Some (a, r).
Proof.
  intros Hno. apply partition_at. intros x y z Heq ->.
  destruct z as [|d z]; [reflexivity|exfalso].
  assert (Hy : y <> EmptyString).
  { intros ->. pose proof (f_equal String.length Heq) as L.
    rewrite !append_length in L. cbn in L. lia. }
  destruct (snoc_view y Hy) as (y0 & e & ->).
  assert (Heq' : ((x +:+ String d z) +:+ p') +:+ String c EmptyString
                 = (x +:+ (p' +:+ String c EmptyString) +:+ y0) +:+ String e EmptyString).
  { rewrite !append_assoc in *. exact Heq. }
  apply snoc_inj in Heq' as [Heq' _].
  assert (Hyes : contains (p' +:+ String c EmptyString) ((x +:+ String d z) +:+ p') = true).
  { apply contains_spec. now exists x, y0. }
  congruence.
Qed.

Lemma split_first_at (c : ascii) (name rest : string) :
  contains (String c EmptyString) name = false ->
  rest = EmptyString \/ (exists r, rest = String c EmptyString +:+ r) ->
  split_first (String c EmptyString) (name +:+ rest) = name.
Proof.
  intros Hno [->|(r & ->)]; unfold split_first.
  - rewrite append_empty_r. apply partition_none in Hno. now rewrite Hno.
  - now rewrite partition_char_at.
Qed.

(** X12.  A path of the regular layout: [/games/], the folder of the game, and
    nothing or a slash and more.  When no [/games/] begins before the one
    meant nor after it, and the path holds no [/variants_final/], the game
    name is the folder. *)
Theorem parse_game_name_games_layout (before game_name rest : string) :
  let path := before +:+ "/games/" +:+ game_name +:+ rest in
  contains "/variants_final/" path = false ->
  contains "/games/" (before +:+ "/games") = false ->
  contains "/games/" (game_name +:+ rest) = false ->
  game_name <> EmptyString ->
  contains "/" game_name = false ->
  rest = EmptyString \/ (exists r, rest = "/" +:+ r) ->
  parse_game_name_from_url (Some path) = game_name.
Proof.
  cbn zeta. intros Hvariants Hbefore Hafter Hname Hslash Hrest.
  unfold parse_game_name_from_url. rewrite Hvariants.
  unfold game_name_of_games_path.
  assert (Hin : contains "/games/" (before +:+ "/games/" +:+ game_name +:+ rest) = true).
  { apply contains_spec. now exists before, (game_name +:+ rest). }
  rewrite Hin.
  pose proof (partition_at_guard "/games" "/" before (game_name +:+ rest) Hbefore) as Hp.
  change ("/games" +:+ "/")%string with "/games/"%string in Hp.
  rewrite (split_last_cut "/games/" _ _ _ ltac:(discriminate) Hp).
  rewrite (split_last_whole _ _ Hafter).
  rewrite (split_first_at "/" game_name rest Hslash Hrest).
  destruct (String.eqb_spec game_name ""); [contradiction|reflexivity].
Qed.

Lemma parse_game_name_games_layout_witness :
  parse_game_name_from_url (Some "/games/gvgai_aliens/0.html"%string)
  = "gvgai_aliens"%string.
Proof.
  apply (parse_game_name_games_layout "" "gvgai_aliens" "/0.html").
  - reflexivity.
  - reflexivity.
  - reflexivity.
  - discriminate.
  - reflexivity.
  - right. now exists "0.html"%string.
Defined.

(** X13.  A path of the variants layout: [/variants_final/], a folder made of
    a name in brackets and a suffix, and nothing or a slash and more.  When
    no [/variants_final/] begins before the one meant nor after it, the
    game name is the name in brackets, in lower case and with a hyphen for
    every blank, followed by the suffix. *)
Theorem parse_game_name_variants_layout (before name suffix rest : string) :
  let path := before +:+ "/variants_final/" +:+ "[" +:+ name +:+ "]" +:+ suffix +:+ rest in
  contains "/variants_final/" (before +:+ "/variants_final") = false ->
  contains "/variants_final/" ("[" +:+ name +:+ "]" +:+ suffix +:+ rest) = false ->
  contains "/" name = false ->
  contains "]" name = false ->
  contains "/" suffix = false ->
  rest = EmptyString \/ (exists r, rest = "/" +:+ r) ->
  parse_game_name_from_url (Some path)
  = replace_char " " "-" (lower name) +:+ suffix.
Proof.
  cbn zeta. intros Hbefore Hafter Hname Hbracket Hsuffix Hrest.
  unfold parse_game_name_from_url.
  assert (Hin : contains "/variants_final/"
                  (before +:+ "/variants_final/" +:+ "[" +:+ name +:+ "]" +:+ suffix +:+ rest)
                = true).
  { apply contains_spec. now exists before, ("[" +:+ name +:+ "]" +:+ suffix +:+ rest). }
  rewrite Hin.
  pose proof (partition_at_guard "/variants_final" "/" before
                ("[" +:+ name +:+ "]" +:+ suffix +:+ rest) Hbefore) as Hp.
  change ("/variants_final" +:+ "/")%string with "/variants_final/"%string in Hp.
  rewrite (split_last_cut "/variants_final/" _ _ _ ltac:(discriminate) Hp).
  rewrite (split_last_whole _ _ Hafter).
  assert (Hfolder : contains "/" ("[" +:+ name +:+ "]" +:+ suffix) = false).
  { apply contains_char_app; [reflexivity|].
    apply contains_char_app; [exact Hname|].
    apply contains_char_app; [reflexivity|exact Hsuffix]. }
  replace ("[" +:+ name +:+ "]" +:+ suffix +:+ rest)
    with (("[" +:+ name +:+ "]" +:+ suffix) +:+ rest)
    by now rewrite !append_assoc.
  rewrite (split_first_at "/" _ rest Hfolder Hrest).
  rewrite (proj2 (strip_prefix_app "[" _ (name +:+ "]" +:+ suffix)) eq_refl).
  rewrite (partition_char_at "]" name suffix Hbracket).
  destruct (String.eqb_spec suffix "") as [->|_]; [now rewrite append_empty_r|reflexivity].
Qed.

Lemma parse_game_name_variants_layout_witness :
  parse_game_name_from_url (Some "/variants_final/[Doodle Hopper]_v1"%string)
  = "doodle-hopper_v1"%string.
Proof.
  apply (parse_game_name_variants_layout "" "Doodle Hopper" "_v1" "").
  - reflexivity.
  - reflexivity.
  - reflexivity.
  - reflexivity.
  - reflexivity.
  - now left.
Defined.

End GameNameFacts.

(** ** The names of executed actions *)

Module NamesFacts.
Import Py Str PyFacts Json Parsing Scheduler Names.

Lemma dict_get_in {V : Type} (d : list (string * V)) (k : string) (v : V) :
  dict_get d k = Some v -> In (k, v) d.
Proof.
  induction d as [|[k' v'] d IH]; [discriminate|]. cbn [dict_get].
  destruct (String.eqb_spec k k') as [->|_].
  - intros [= ->]. now left.
  - intros H. right. now apply IH.
Qed.

(** Every item of [KEY_MAPPING] is found back under its value, and no
    other value has a name. *)
Lemma reverse_of_key_mapping :
  forallb (fun item =>
             match reverse_get REVERSE_KEY_MAPPING (snd item) with
             | Some name => String.eqb name (fst item)
             | None => false
             end) KEY_MAPPING = true
  /\ forallb (fun item =>
                match dict_get KEY_MAPPING (snd item) with
                | Some a => action_code_eqb a (fst item)
                | None => false
                end) REVERSE_KEY_MAPPING = true.
Proof. split; vm_compute; reflexivity. Qed.

Lemma action_code_eqb_eq (a b : action_code) :
  action_code_eqb a b = true <-> a = b.
Proof.
  destruct a as [[x|x]|], b as [[y|y]|]; cbn; try (split; congruence).
  - rewrite Z.eqb_eq. split; congruence.
  - rewrite Z.eqb_eq. split; congruence.
Qed.

Lemma reverse_get_in (d : list (action_code * string)) (a : action_code) (name : string) :
  reverse_get d a = Some name -> In (a, name) d.
Proof.
  induction d as [|[k v] d IH]; [discriminate|]. cbn [reverse_get].
  destruct (action_code_eqb a k) eqn:E.
  - apply action_code_eqb_eq in E as ->. intros [= ->]. now left.
  - intros H. right. now apply IH.
Qed.

(** X14.  [REVERSE_KEY_MAPPING] is the inverse of [KEY_MAPPING]: a name stands
    for a value in the one exactly when the value has that name in the
    other. *)
Theorem reverse_key_mapping_inverse (name : string) (a : action_code) :
  dict_get KEY_MAPPING name = Some a
  <-> reverse_get REVERSE_KEY_MAPPING a = Some name.
Proof.
  destruct reverse_of_key_mapping as [Hfwd Hbwd].
  rewrite forallb_forall in Hfwd, Hbwd. split; intros H.
  - apply dict_get_in in H. specialize (Hfwd _ H). cbn [fst snd] in Hfwd.
    destruct (reverse_get REVERSE_KEY_MAPPING a) as [n|]; [|discriminate].
    now apply String.eqb_eq in Hfwd as ->.
  - apply reverse_get_in in H. specialize (Hbwd _ H). cbn [fst snd] in Hbwd.
    destruct (dict_get KEY_MAPPING name) as [b|]; [|discriminate].
    now apply action_code_eqb_eq in Hbwd as ->.
Qed.


(** What [KEY_MAPPING] says of each of its items: the key code of a value
    has the same key in the Playwright table and in the Selenium table;
    the frame name and the executed name of the value are the item's name,
    and NOOP has none; a value is a HOLD tuple exactly when the name
    begins with [HOLD_]. *)
Lemma key_mapping_items :
  forallb (fun item : string * action_code =>
             let (name, a) := item in
             match a with
             | Some (Instant c) | Some (Hold c) =>
                 match KEY_CODE_TO_PLAYWRIGHT_KEY c, Selenium.KEY_CODE_TO_KEY_NAME c with
                 | Some key, Some key' => String.eqb key key'
                 | _, _ => false
                 end
             | None => true
             end
             && bool_decide (segment_action_names [a]
                             = if String.eqb name "NOOP" then [] else [name])
             && bool_decide (map name_of (map (fun c => Some (Instant c)) (instant_actions [a]))
                             = if negb (String.eqb name "NOOP")
                                  && negb (String.prefix "HOLD_" name)
                               then [name] else [])
             && bool_decide (map name_of (map (fun c => Some (Hold c)) (hold_actions [a]))
                             = if String.prefix "HOLD_" name then [name] else []))
    KEY_MAPPING = true.
Proof. vm_compute. reflexivity. Qed.

Lemma key_mapping_item (name : string) (a : action_code) :
  dict_get KEY_MAPPING name = Some a ->
  match a with
  | Some (Instant c) | Some (Hold c) =>
      exists key, KEY_CODE_TO_PLAYWRIGHT_KEY c = Some key
                  /\ Selenium.KEY_CODE_TO_KEY_NAME c = Some key
  | None => True
  end
  /\ segment_action_names [a] = (if String.eqb name "NOOP" then [] else [name])
  /\ map name_of (map (fun c => Some (Instant c)) (instant_actions [a]))
     = (if negb (String.eqb name "NOOP") && negb (String.prefix "HOLD_" name)
        then [name] else [])
  /\ map name_of (map (fun c => Some (Hold c)) (hold_actions [a]))
     = (if String.prefix "HOLD_" name then [name] else []).
Proof.
  intros H. apply dict_get_in in H.
  pose proof key_mapping_items as Hall. rewrite forallb_forall in Hall.
  specialize (Hall _ H). cbv beta iota in Hall.
  apply andb_prop in Hall as [Hall Hholds].
  apply andb_prop in Hall as [Hall Hinstants].
  apply andb_prop in Hall as [Hkeys Hnames].
  apply bool_decide_eq_true in Hholds, Hinstants, Hnames.
  split; [|now repeat split].
  destruct a as [[c|c]|]; [| |exact I].
  - destruct (KEY_CODE_TO_PLAYWRIGHT_KEY c) as [key|]; [|discriminate].
    destruct (Selenium.KEY_CODE_TO_KEY_NAME c) as [key'|]; [|discriminate].
    apply String.eqb_eq in Hkeys as <-. now exists key.
  - destruct (KEY_CODE_TO_PLAYWRIGHT_KEY c) as [key|]; [|discriminate].
    destruct (Selenium.KEY_CODE_TO_KEY_NAME c) as [key'|]; [|discriminate].
    apply String.eqb_eq in Hkeys as <-. now exists key.
Qed.

(** What an item of a segment stands for is a value of [KEY_MAPPING]. *)
Lemma parse_action_name_values (item : value) (a : action_code) :
  In a (parse_action_name [] item) -> exists name, dict_get KEY_MAPPING name = Some a.
Proof.
  unfold parse_action_name, key_mapping_get.
  assert (Hnoop : In a (if Unicode.eqb
                             (Unicode.upper
                                (py_str
                                   match item with
                                   | JNull => JStr (Unicode.of_string "NOOP")
                                   | _ => item
                                   end))
                             (Unicode.of_string "NOOP")
                        then [] ++ [None] else []) ->
                  exists name, dict_get KEY_MAPPING name = Some a).
  { destruct (Unicode.eqb _ _); [|intros []].
    intros [<-|[]]. now exists "NOOP"%string. }
  destruct (Unicode.to_string _) as [name|]; [|exact Hnoop].
  destruct (dict_get KEY_MAPPING name) as [mapped|] eqn:Hget; [|exact Hnoop].
  intros [<-|[]]. eauto.
Qed.

Lemma parse_segment_values (segment : value) (a : action_code) :
  In a (parse_segment segment) -> exists name, dict_get KEY_MAPPING name = Some a.
Proof.
  unfold parse_segment. rewrite ParsingFacts.fold_parse_action_name. cbn [app].
  intros Hin. apply in_concat in Hin as (l & Hl & Hin).
  apply in_map_iff in Hl as (item & <- & _).
  now apply parse_action_name_values in Hin.
Qed.

Lemma parse_actions_values (response_text : string) (segment : list action_code)
    (a : action_code) :
  In segment (parse_actions response_text) -> In a segment ->
  exists name, dict_get KEY_MAPPING name = Some a.
Proof.
  assert (Hnoop : In segment five_noops -> In a segment ->
                  exists name, dict_get KEY_MAPPING name = Some a).
  { intros Hs Ha. apply repeat_spec in Hs as ->.
    destruct Ha as [<-|[]]. now exists "NOOP"%string. }
  unfold parse_actions.
  destruct (search_keys response_text) as [group1|]; [|exact Hnoop].
  destruct (loads (actions_str group1)) as [[]|]; try exact Hnoop; try (intros []).
  intros Hs Ha. apply in_map_iff in Hs as (v & <- & _).
  now apply parse_segment_values in Ha.
Qed.

(** X15.  Whatever the model answers, every key code of the plan that
    [parse_actions] returns, pressed or held, has a key in
    [KEY_CODE_TO_PLAYWRIGHT_KEY], and the same key in the Selenium table:
    the branch for an unknown key code is not taken on a parsed plan.  Each
    element also has a name in [REVERSE_KEY_MAPPING], so that
    [actions_to_names] never falls back on [str(action)]. *)
Theorem parsed_key_codes_are_known (response_text : string)
    (segment : list action_code) (a : action_code) :
  In segment (parse_actions response_text) -> In a segment ->
  (exists name, reverse_get REVERSE_KEY_MAPPING a = Some name
                /\ dict_get KEY_MAPPING name = Some a)
  /\ match a with
     | Some (Instant c) | Some (Hold c) =>
         exists key, KEY_CODE_TO_PLAYWRIGHT_KEY c = Some key
                     /\ Selenium.KEY_CODE_TO_KEY_NAME c = Some key
     | None => True
     end.
Proof.
  intros Hs Ha.
  destruct (parse_actions_values _ _ _ Hs Ha) as (name & Hname).
  split.
  - exists name. split; [|exact Hname].
    destruct reverse_of_key_mapping as [Hfwd _].
    rewrite forallb_forall in Hfwd.
    specialize (Hfwd _ (dict_get_in _ _ _ Hname)). cbn [fst snd] in Hfwd.
    destruct (reverse_get REVERSE_KEY_MAPPING a) as [n|]; [|discriminate].
    now apply String.eqb_eq in Hfwd as ->.
  - now apply key_mapping_item in Hname as [Hkey _].
Qed.

Lemma parsed_key_codes_are_known_witness :
  exists key, KEY_CODE_TO_PLAYWRIGHT_KEY 32 = Some key
              /\ Selenium.KEY_CODE_TO_KEY_NAME 32 = Some key.
Proof.
  apply (parsed_key_codes_are_known example_response
           [Some (Hold 32)] (Some (Hold 32))).
  - vm_compute. right. right. right. now left.
  - now left.
Defined.

(** On a character whose upper case is ASCII, the two upper cases agree. *)
Lemma upper_char_ascii (c : ascii) :
  (code (upper_char c) <? 128)%N = true ->
  Unicode.upper_char (code c) = [code (upper_char c)].
Proof.
  destruct c as [[] [] [] [] [] [] [] []]; vm_compute; intros H;
    first [reflexivity | discriminate H].
Qed.

Lemma upper_ascii (n : string) :
  forallb (fun c => (code c <? 128)%N) (list_ascii_of_string (upper n)) = true ->
  Unicode.to_string (Unicode.upper (Unicode.of_string n)) = Some (upper n).
Proof.
  induction n as [|c n IH]; [reflexivity|].
  change (upper (String c n)) with (String (upper_char c) (upper n)).
  cbn [list_ascii_of_string forallb].
  intros [Hc Hn]%andb_true_iff.
  unfold Unicode.upper, Unicode.of_string. cbn [list_ascii_of_string map concat].
  rewrite (upper_char_ascii c Hc). cbn [app Unicode.to_string].
  fold (Unicode.of_string n). fold (Unicode.upper (Unicode.of_string n)).
  rewrite (IH Hn).
  assert (H256 : (code (upper_char c) <? 256)%N = true)
    by (apply N.ltb_lt; apply N.ltb_lt in Hc; lia).
  rewrite H256. unfold code. now rewrite ascii_N_embedding.
Qed.

(** The names of [KEY_MAPPING] are ASCII. *)
Lemma key_mapping_names_ascii :
  forallb (fun item =>
             forallb (fun c => (code c <? 128)%N) (list_ascii_of_string (fst item)))
    KEY_MAPPING = true.
Proof. vm_compute. reflexivity. Qed.

(** A name of the model that [KEY_MAPPING] knows in upper case is found,
    once decoded, under the same upper case. *)
Lemma key_mapping_get_upper (n : string) (a : action_code) :
  dict_get KEY_MAPPING (upper n) = Some a ->
  key_mapping_get (Unicode.upper (Unicode.of_string n)) = Some a.
Proof.
  intros Hget. unfold key_mapping_get.
  pose proof key_mapping_names_ascii as Hascii. rewrite forallb_forall in Hascii.
  specialize (Hascii _ (dict_get_in _ _ _ Hget)). cbn [fst] in Hascii.
  now rewrite (upper_ascii n Hascii).
Qed.

Lemma parse_names (names : list string) :
  Forall (fun n => dict_get KEY_MAPPING (upper n) <> None) names ->
  Forall2 (fun n a => dict_get KEY_MAPPING n = Some a)
    (map upper names)
    (parse_segment (JArr (map (fun n => JStr (Unicode.of_string n)) names))).
Proof.
  intros Hknown.
  unfold parse_segment. rewrite ParsingFacts.fold_parse_action_name. cbn [app].
  induction Hknown as [|n names Hn _ IH]; [constructor|].
  cbn [map concat]. unfold parse_action_name at 1. cbn [py_str].
  destruct (dict_get KEY_MAPPING (upper n)) as [a|] eqn:Hget; [|contradiction].
  rewrite (key_mapping_get_upper n a Hget).
  cbn [app]. now constructor.
Qed.

Lemma segment_action_names_cons (a : action_code) (segment : list action_code) :
  segment_action_names (a :: segment)
  = segment_action_names [a] ++ segment_action_names segment.
Proof. unfold segment_action_names. cbn [map concat]. now rewrite app_nil_r. Qed.

Lemma instant_actions_cons (a : action_code) (segment : list action_code) :
  instant_actions (a :: segment) = instant_actions [a] ++ instant_actions segment.
Proof. unfold instant_actions. cbn [omap]. now destruct a as [[c|c]|]. Qed.

Lemma hold_actions_cons (a : action_code) (segment : list action_code) :
  hold_actions (a :: segment) = hold_actions [a] ++ hold_actions segment.
Proof. unfold hold_actions. cbn [omap]. now destruct a as [[c|c]|]. Qed.

Lemma names_of_items (names : list string) (segment : list action_code) :
  Forall2 (fun n a => dict_get KEY_MAPPING n = Some a) names segment ->
  segment_action_names segment
  = List.filter (fun n => negb (String.eqb n "NOOP")) names
  /\ map name_of (map (fun c => Some (Instant c)) (instant_actions segment))
     = List.filter (fun n => negb (String.eqb n "NOOP") && negb (String.prefix "HOLD_" n))
         names
  /\ map name_of (map (fun c => Some (Hold c)) (hold_actions segment))
     = List.filter (fun n => String.prefix "HOLD_" n) names.
Proof.
  induction 1 as [|n a names segment Hn _ (IHframe & IHinstant & IHhold)];
    [now repeat split|].
  destruct (key_mapping_item _ _ Hn) as (_ & Hframe & Hinstant & Hhold).
  rewrite segment_action_names_cons, instant_actions_cons, hold_actions_cons.
  rewrite !map_app, Hframe, Hinstant, Hhold, IHframe, IHinstant, IHhold.
  cbn [List.filter].
  destruct (String.eqb n "NOOP"), (String.prefix "HOLD_" n); now repeat split.
Qed.

Lemma actions_to_names_map (actions : list action_code) :
  actions_to_names actions
  = match map name_of actions with
    | [] => "None"%string
    | action_names => join ", " action_names
    end.
Proof. now destruct actions. Qed.

(** X16.  The names of the frame history and of the previous-actions text give
    back what the model wrote.  For a segment of names that [KEY_MAPPING]
    knows in upper case: the frame name joins the names in upper case
    without the NOOPs, and is NOOP when none is left; the
    previous-actions text joins the names of the keys pressed once, in
    order, followed by the HOLD names, in order, and is None when there
    are none. *)
Theorem action_names_round_trip (names : list string) :
  Forall (fun n => dict_get KEY_MAPPING (upper n) <> None) names ->
  let segment :=
    parse_segment (JArr (map (fun n => JStr (Unicode.of_string n)) names)) in
  let written := map upper names in
  action_name_str segment
  = match List.filter (fun n => negb (String.eqb n "NOOP")) written with
    | [] => "NOOP"%string
    | action_names => join ", " action_names
    end
  /\ actions_to_names (executed_in_segment segment)
     = match
         List.filter
           (fun n => negb (String.eqb n "NOOP") && negb (String.prefix "HOLD_" n)) written
         ++ List.filter (fun n => String.prefix "HOLD_" n) written
       with
       | [] => "None"%string
       | action_names => join ", " action_names
       end.
Proof.
  intros Hknown. cbn zeta.
  destruct (names_of_items _ _ (parse_names names Hknown))
    as (Hframe & Hinstant & Hhold).
  split.
  - unfold action_name_str. now rewrite Hframe.
  - rewrite actions_to_names_map. unfold executed_in_segment.
    now rewrite map_app, Hinstant, Hhold.
Qed.

Lemma action_names_round_trip_witness :
  action_name_str
    (parse_segment
       (JArr (map (fun n => JStr (Unicode.of_string n))
                ["hold_left"; "Space"; "noop"; "HOLD_UP"; "r"]%string)))
  = "HOLD_LEFT, SPACE, HOLD_UP, R"%string
  /\ actions_to_names
       (executed_in_segment
          (parse_segment
             (JArr (map (fun n => JStr (Unicode.of_string n))
                      ["hold_left"; "Space"; "noop"; "HOLD_UP"; "r"]%string))))
     = "SPACE, R, HOLD_LEFT, HOLD_UP"%string.
Proof.
  apply (action_names_round_trip ["hold_left"; "Space"; "noop"; "HOLD_UP"; "r"]%string).
  repeat constructor; discriminate.
Defined.

End NamesFacts.

(** ** The controls text *)

Module ControlsFacts.
Import Py Str PyFacts StrFacts Prompt.

Lemma contains_app_l (pat a b : string) :
  contains pat a = true -> contains pat (a +:+ b) = true.
Proof.
  intros H. apply contains_spec in H as (x & y & ->).
  apply contains_spec. exists x, (y +:+ b). now rewrite !append_assoc.
Qed.

Lemma contains_app_r (pat a b : string) :
  contains pat b = true -> contains pat (a +:+ b) = true.
Proof.
  intros H. apply contains_spec in H as (x & y & ->).
  apply contains_spec. exists (a +:+ x), y. now rewrite !append_assoc.
Qed.

Lemma restart_has_r (s : string) :
  contains "restart" s = true -> contains "r" s = true.
Proof.
  intros H. apply contains_spec in H as (x & y & ->).
  apply contains_spec. now exists x, ("estart" +:+ y).
Qed.

Lemma lower_app (a b : string) : lower (a +:+ b) = lower a +:+ lower b.
Proof. apply map_chars_app. Qed.

Lemma additional_controls_none (game_controls_text : string) :
  contains "restart" (lower game_controls_text) = true ->
  contains "enter" (lower game_controls_text) = true ->
  with_additional_controls game_controls_text = game_controls_text.
Proof.
  intros Hr He. unfold with_additional_controls, additional_controls.
  now rewrite (restart_has_r _ Hr), Hr, He.
Qed.

(** X17.  The controls text shown to the model always names the restart and
    the Enter key: it is the text of the page, followed by the line for R
    when the page does not say [restart] (that it says [r] is implied) and
    by the line for Enter when it does not say [enter], in any case of the
    letters.  Adding the lines once more changes nothing. *)
Theorem additional_controls_spec (game_controls_text : string) :
  let shown := with_additional_controls game_controls_text in
  contains "restart" (lower shown) = true
  /\ contains "enter" (lower shown) = true
  /\ (In "R - Restart the game"%string (additional_controls game_controls_text)
      <-> contains "restart" (lower game_controls_text) = false)
  /\ (In "Enter - Start the game"%string (additional_controls game_controls_text)
      <-> contains "enter" (lower game_controls_text) = false)
  /\ (exists added, shown = game_controls_text +:+ added)
  /\ with_additional_controls shown = shown.
Proof.
  cbn zeta.
  assert (Hshown : contains "restart" (lower (with_additional_controls game_controls_text)) = true
                   /\ contains "enter" (lower (with_additional_controls game_controls_text)) = true
                   /\ exists added,
                        with_additional_controls game_controls_text
                        = game_controls_text +:+ added).
  { unfold with_additional_controls, additional_controls.
    destruct (contains "restart" (lower game_controls_text)) eqn:Hr;
      destruct (contains "enter" (lower game_controls_text)) eqn:He;
      rewrite ?(restart_has_r _ Hr), ?orb_true_r; cbn [negb orb app].
    - split; [exact Hr|]. split; [exact He|].
      exists EmptyString. now rewrite append_empty_r.
    - rewrite lower_app.
      split; [now apply contains_app_l|]. split; [now apply contains_app_r|].
      now eexists.
    - rewrite lower_app.
      split; [now apply contains_app_r|]. split; [now apply contains_app_l|].
      now eexists.
    - rewrite lower_app.
      split; [now apply contains_app_r|]. split; [now apply contains_app_r|].
      now eexists. }
  destruct Hshown as (Hr' & He' & Hadded).
  split; [exact Hr'|]. split; [exact He'|].
  split; [|split; [|split; [exact Hadded|now apply additional_controls_none]]].
  - unfold additional_controls.
    destruct (contains "restart" (lower game_controls_text)) eqn:Hr.
    + rewrite (restart_has_r _ Hr). cbn [negb orb app].
      split; [|discriminate].
      destruct (contains "enter" (lower game_controls_text)); cbn; intros H;
        [contradiction|].
      destruct H as [H|[]]; discriminate H.
    + rewrite orb_true_r. split; [reflexivity|]. intros _. now left.
  - unfold additional_controls.
    destruct (contains "enter" (lower game_controls_text)) eqn:He; cbn [negb].
    + split; [|discriminate]. rewrite app_nil_r.
      destruct (negb (contains "r" (lower game_controls_text))
                || negb (contains "restart" (lower game_controls_text)));
        cbn; intros H; [|contradiction].
      destruct H as [H|[]]; discriminate H.
    + split; [reflexivity|]. intros _. apply in_or_app. right. now left.
Qed.

End ControlsFacts.

(** ** Tags matched without regard to case *)

Module TagsFacts.
Import Py Str PyFacts StrFacts Tags.

Lemma ci_strip_prefix_lower (pat s : string) :
  strip_prefix (lower pat) (lower s) = option_map lower (ci_strip_prefix pat s).
Proof.
  revert s; induction pat as [|a pat IH]; intros s; [reflexivity|].
  destruct s as [|b s]; [reflexivity|].
  cbn [lower map_chars strip_prefix ci_strip_prefix]. unfold same_letter.
  destruct (Ascii.eqb (lower_char a) (lower_char b)); [apply IH|reflexivity].
Qed.

Lemma ci_partition_lower (pat s : string) :
  partition (lower pat) (lower s)
  = option_map (fun cut => (lower (fst cut), lower (snd cut))) (ci_partition pat s).
Proof.
  induction s as [|c s IH].
  - pose proof (ci_strip_prefix_lower pat EmptyString) as H.
    change (lower EmptyString) with EmptyString in *.
    cbn [partition ci_partition]. rewrite H.
    now destruct (ci_strip_prefix pat EmptyString).
  - pose proof (ci_strip_prefix_lower pat (String c s)) as H.
    change (lower (String c s)) with (String (lower_char c) (lower s)) in *.
    cbn [partition ci_partition]. rewrite H.
    destruct (ci_strip_prefix pat (String c s)); [reflexivity|]. cbn [option_map].
    rewrite IH. now destruct (ci_partition pat s) as [[b r]|].
Qed.

Lemma ci_strip_prefix_app (pat s rest : string) :
  ci_strip_prefix pat s = Some rest ->
  exists m, s = m +:+ rest /\ lower m = lower pat.
Proof.
  revert s; induction pat as [|a pat IH]; intros s.
  - intros [= ->]. now exists EmptyString.
  - destruct s as [|b s]; [discriminate|]. cbn [ci_strip_prefix]. unfold same_letter.
    destruct (Ascii.eqb_spec (lower_char a) (lower_char b)) as [Hab|]; [|discriminate].
    intros H. destruct (IH s H) as (m & -> & Hm).
    exists (String b m). split; [reflexivity|].
    cbn [lower map_chars]. fold (lower m) (lower pat). now rewrite Hm, Hab.
Qed.

Lemma ci_partition_app (pat s before rest : string) :
  ci_partition pat s = Some (before, rest) ->
  exists m, s = before +:+ m +:+ rest /\ lower m = lower pat.
Proof.
  revert before; induction s as [|c s IH]; intros before; cbn [ci_partition].
  - destruct (ci_strip_prefix pat EmptyString) as [r|] eqn:E; [|discriminate].
    intros [= <- <-]. now apply ci_strip_prefix_app.
  - destruct (ci_strip_prefix pat (String c s)) as [r|] eqn:E.
    + intros [= <- <-]. now apply ci_strip_prefix_app.
    + destruct (ci_partition pat s) as [[b r]|]; [|discriminate].
      intros [= <- <-]. destruct (IH b eq_refl) as (m & -> & Hm).
      exists m. now split.
Qed.

Lemma lower_length (s : string) : len (lower s) = len s.
Proof. apply map_chars_length. Qed.

(** The leftmost match, read off the text in lower case. *)
Lemma ci_partition_at (pat a m r : string) :
  lower m = lower pat ->
  partition (lower pat) (lower (a +:+ m +:+ r)) = Some (lower a, lower r) ->
  ci_partition pat (a +:+ m +:+ r) = Some (a, r).
Proof.
  intros Hm Hp. rewrite ci_partition_lower in Hp.
  destruct (ci_partition pat (a +:+ m +:+ r)) as [[b r']|] eqn:Hci; [|discriminate].
  cbn [option_map fst snd] in Hp. injection Hp as Hb Hr.
  destruct (ci_partition_app _ _ _ _ Hci) as (m' & Hs & Hm').
  assert (Hlen : len a = len b)
    by now rewrite <- (lower_length a), <- (lower_length b), Hb.
  destruct (append_inj_length _ _ _ _ Hs Hlen) as [-> Hrest].
  assert (Hlen' : len m = len m')
    by now rewrite <- (lower_length m), <- (lower_length m'), Hm, Hm'.
  now destruct (append_inj_length _ _ _ _ Hrest Hlen') as [_ ->].
Qed.

(** An occurrence in a text cut in two lies in the first part, or in the
    second, or lies across the cut: then the first character of the second
    part is a character of the pattern other than its first. *)
Lemma contains_app_cases (pat a : string) (c : ascii) (b : string) :
  contains pat (a +:+ String c b) = true ->
  contains pat a = true
  \/ contains pat (String c b) = true
  \/ exists d e, d <> EmptyString /\ pat = d +:+ String c e.
Proof.
  intros H. apply contains_spec in H as (x & y & H).
  destruct (Nat.le_gt_cases (len a) (len x)) as [Hax|Hxa].
  - right. left. destruct (append_split _ _ _ _ H Hax) as (d & -> & ->).
    apply contains_spec. now exists d, y.
  - symmetry in H.
    destruct (append_split x (pat +:+ y) a (String c b) H) as (d & -> & Hd); [lia|].
    destruct (Nat.le_gt_cases (len pat) (len d)) as [Hpd|Hdp].
    + left. destruct (append_split _ _ _ _ Hd Hpd) as (e & -> & _).
      apply contains_spec. exists x, e. now rewrite ?append_assoc.
    + right. right. symmetry in Hd.
      destruct (append_split d (String c b) pat y Hd) as (e & -> & He); [lia|].
      destruct e as [|c' e]; [rewrite append_empty_r in Hdp; lia|].
      rewrite append_cons in He. injection He as <- _.
      exists d, e. split; [|reflexivity].
      intros ->. rewrite append_empty_r in Hxa. lia.
Qed.

(** No occurrence lies in the text before the leftmost one. *)
Lemma partition_before_none (pat s before rest : string) :
  partition pat s = Some (before, rest) -> pat <> EmptyString ->
  contains pat before = false.
Proof.
  intros Hp Hne. destruct (contains pat before) eqn:E; [exfalso|reflexivity].
  apply contains_spec in E as (x & y & ->).
  destruct (partition_before _ _ _ _ x (y +:+ pat) Hp Hne) as [_ Hy];
    [now rewrite !append_assoc|].
  destruct y, pat; try discriminate Hy. contradiction.
Qed.

Lemma strip_fixed (s : string) : strip s = s -> lstrip s = s /\ rstrip s = s.
Proof.
  unfold strip. intros H.
  destruct (lstrip_spec s) as (ws & Hs & _).
  destruct (rstrip_spec (lstrip s)) as (ws' & Hs' & _).
  rewrite H in Hs'.
  assert (Hlen : len s = (len ws + (len s + len ws'))%nat).
  { rewrite Hs at 1. rewrite Hs'. now rewrite !append_length. }
  assert (ws = EmptyString) as -> by (destruct ws; [reflexivity|cbn in Hlen; lia]).
  rewrite append_empty in Hs. split; [now symmetry|].
  rewrite <- Hs in H. exact H.
Qed.

Lemma rstrip_spaces (ws : string) :
  forallb is_space (list_ascii_of_string ws) = true -> rstrip ws = EmptyString.
Proof.
  induction ws as [|c ws IH]; [reflexivity|].
  cbn [list_ascii_of_string forallb]. intros H. apply andb_prop in H as [Hc Hws].
  cbn [rstrip]. now rewrite (IH Hws), Hc.
Qed.

Lemma rstrip_app_spaces (s ws : string) :
  forallb is_space (list_ascii_of_string ws) = true -> rstrip (s +:+ ws) = rstrip s.
Proof.
  intros Hws. induction s as [|c s IH].
  - rewrite append_empty. now apply rstrip_spaces.
  - rewrite append_cons. cbn [rstrip]. now rewrite IH.
Qed.

Lemma lstrip_app_spaces (ws s : string) :
  forallb is_space (list_ascii_of_string ws) = true -> lstrip (ws +:+ s) = lstrip s.
Proof.
  induction ws as [|c ws IH]; [reflexivity|].
  cbn [list_ascii_of_string forallb]. intros H. apply andb_prop in H as [Hc Hws].
  rewrite append_cons. cbn [lstrip]. rewrite Hc. now apply IH.
Qed.

Lemma strip_spaces (ws : string) :
  forallb is_space (list_ascii_of_string ws) = true -> strip ws = EmptyString.
Proof.
  intros Hws. unfold strip.
  rewrite <- (append_empty_r ws), (lstrip_app_spaces ws EmptyString Hws).
  reflexivity.
Qed.

(** [search_tag] finds a pair of tags, in any case of their letters, with
    no closing tag between them and no opening tag before them. *)
Lemma search_tag_some (opening closing text group1 : string) :
  opening <> EmptyString -> closing <> EmptyString ->
  search_tag opening closing text = Some group1 ->
  exists before tag1 tag2 after,
    text = before +:+ tag1 +:+ group1 +:+ tag2 +:+ after
    /\ lower tag1 = lower opening
    /\ lower tag2 = lower closing
    /\ contains (lower opening) (lower before) = false
    /\ contains (lower closing) (lower group1) = false.
Proof.
  intros Hopen Hclose. unfold search_tag.
  destruct (ci_partition opening text) as [[before r0]|] eqn:P; [|discriminate].
  destruct (ci_partition closing r0) as [[g after]|] eqn:Q; [|discriminate].
  intros [= <-].
  destruct (ci_partition_app _ _ _ _ P) as (tag1 & -> & Htag1).
  destruct (ci_partition_app _ _ _ _ Q) as (tag2 & -> & Htag2).
  exists before, tag1, tag2, after.
  split; [reflexivity|]. split; [exact Htag1|]. split; [exact Htag2|].
  assert (Hne : forall s, s <> EmptyString -> lower s <> EmptyString)
    by (intros [|c s] H; [contradiction|discriminate]).
  split.
  - pose proof (ci_partition_lower opening (before +:+ tag1 +:+ g +:+ tag2 +:+ after)) as L.
    rewrite P in L. cbn [option_map fst snd] in L.
    exact (partition_before_none _ _ _ _ L (Hne _ Hopen)).
  - pose proof (ci_partition_lower closing (g +:+ tag2 +:+ after)) as L.
    rewrite Q in L. cbn [option_map fst snd] in L.
    exact (partition_before_none _ _ _ _ L (Hne _ Hclose)).
Qed.

(** X18.  What [extract_summary_text] and [extract_scratchpad_text] return is
    the stripped text between the leftmost opening tag and the first
    closing tag after it, the tags in any case of their letters: no
    closing tag lies in it, no opening tag lies before it, and stripping
    it again changes nothing. *)
Theorem extract_tag_text_spec (text found : string) :
  (extract_summary_text text = Some found ->
   exists before tag1 group1 tag2 after,
     text = before +:+ tag1 +:+ group1 +:+ tag2 +:+ after
     /\ lower tag1 = "<summary>"%string /\ lower tag2 = "</summary>"%string
     /\ contains "<summary>" (lower before) = false
     /\ contains "</summary>" (lower group1) = false
     /\ found = strip group1 /\ strip found = found)
  /\ (extract_scratchpad_text text = Some found ->
      exists before tag1 group1 tag2 after,
        text = before +:+ tag1 +:+ group1 +:+ tag2 +:+ after
        /\ lower tag1 = "<scratchpad>"%string /\ lower tag2 = "</scratchpad>"%string
        /\ contains "<scratchpad>" (lower before) = false
        /\ contains "</scratchpad>" (lower group1) = false
        /\ found = strip group1 /\ strip found = found).
Proof.
  split.
  - unfold extract_summary_text. destruct text as [|c text]; [discriminate|].
    destruct (search_tag _ _ _) as [group1|] eqn:S; [|discriminate].
    intros [= <-].
    destruct (search_tag_some "<summary>" "</summary>" _ _
                ltac:(discriminate) ltac:(discriminate) S)
      as (before & tag1 & tag2 & after & Ht & H1 & H2 & Hb & Hg).
    exists before, tag1, group1, tag2, after.
    repeat split; try assumption. apply strip_idem.
  - unfold extract_scratchpad_text. destruct text as [|c text]; [discriminate|].
    destruct (search_tag _ _ _) as [group1|] eqn:S; [|discriminate].
    intros [= <-].
    destruct (search_tag_some "<scratchpad>" "</scratchpad>" _ _
                ltac:(discriminate) ltac:(discriminate) S)
      as (before & tag1 & tag2 & after & Ht & H1 & H2 & Hb & Hg).
    exists before, tag1, group1, tag2, after.
    repeat split; try assumption. apply strip_idem.
Qed.

Lemma extract_tag_text_spec_witness :
  exists before tag1 group1 tag2 after,
    "a<Scratchpad> go left </SCRATCHPAD>b"%string
    = before +:+ tag1 +:+ group1 +:+ tag2 +:+ after
    /\ lower tag1 = "<scratchpad>"%string /\ lower tag2 = "</scratchpad>"%string
    /\ contains "<scratchpad>" (lower before) = false
    /\ contains "</scratchpad>" (lower group1) = false
    /\ "go left"%string = strip group1 /\ strip "go left" = "go left"%string.
Proof.
  apply (proj2 (extract_tag_text_spec "a<Scratchpad> go left </SCRATCHPAD>b" "go left")).
  reflexivity.
Defined.

End TagsFacts.

(** ** The scratchpad from one response to the next *)

Module ScratchpadFacts.
Import Py Str PyFacts StrFacts Tags Prompt ControlsFacts GameNameFacts TagsFacts.

Lemma later_char (c0 c : ascii) (p' d e : string) :
  String c0 p' = d +:+ String c e -> d <> EmptyString ->
  In c (list_ascii_of_string p').
Proof.
  destruct d as [|c1 d]; [contradiction|]. rewrite append_cons.
  intros [= _ ->] _. rewrite chars_app. apply in_or_app. right. now left.
Qed.

Lemma contains_cons_other (p0 c : ascii) (p' s : string) :
  c <> p0 -> contains (String p0 p') (String c s) = contains (String p0 p') s.
Proof.
  intros Hne. unfold contains. cbn [partition strip_prefix].
  destruct (Ascii.eqb_spec p0 c) as [->|_]; [contradiction|].
  now destruct (partition (String p0 p') s) as [[b r]|].
Qed.

(** The leftmost match of a pattern in lower case, found where none
    begins before it. *)
Lemma ci_partition_found (p' : string) (l : ascii) (a m r : string) :
  lower (p' +:+ String l EmptyString) = p' +:+ String l EmptyString ->
  lower m = p' +:+ String l EmptyString ->
  contains (p' +:+ String l EmptyString) (lower a +:+ p') = false ->
  ci_partition (p' +:+ String l EmptyString) (a +:+ m +:+ r) = Some (a, r).
Proof.
  intros Hpat Hm Hguard. apply ci_partition_at; [now rewrite Hpat|].
  rewrite Hpat, !lower_app, Hm. now apply partition_at_guard.
Qed.

Lemma opening_found (a m r : string) :
  lower m = "<scratchpad>"%string ->
  contains "<scratchpad>" (lower a +:+ "<scratchpad") = false ->
  ci_partition "<scratchpad>" (a +:+ m +:+ r) = Some (a, r).
Proof. exact (ci_partition_found "<scratchpad" ">" a m r eq_refl). Qed.

Lemma closing_found (a m r : string) :
  lower m = "</scratchpad>"%string ->
  contains "</scratchpad>" (lower a +:+ "</scratchpad") = false ->
  ci_partition "</scratchpad>" (a +:+ m +:+ r) = Some (a, r).
Proof. exact (ci_partition_found "</scratchpad" ">" a m r eq_refl). Qed.

Lemma extract_scratchpad_text_nonempty (text : string) :
  text <> EmptyString ->
  extract_scratchpad_text text
  = option_map strip (search_tag "<scratchpad>" "</scratchpad>" text).
Proof.
  destruct text as [|c text]; [contradiction|]. intros _.
  unfold extract_scratchpad_text. now destruct (search_tag _ _ _).
Qed.

Lemma app_nonempty (a b c : string) :
  b <> EmptyString -> a +:+ b +:+ c <> EmptyString.
Proof.
  intros Hb H. apply (f_equal String.length) in H.
  rewrite !append_length in H. destruct b; [contradiction|cbn in H; lia].
Qed.

(** No opening tag begins in a text that holds none, when the tag
    follows it. *)
Lemma opening_guard (before : string) :
  contains "<scratchpad>" (lower before) = false ->
  contains "<scratchpad>" (lower before +:+ "<scratchpad") = false.
Proof.
  intros Hno.
  destruct (contains "<scratchpad>" (lower before +:+ "<scratchpad")) eqn:E;
    [exfalso|reflexivity].
  apply contains_app_cases in E as [E|[E|(d & e & Hd & E)]].
  - congruence.
  - vm_compute in E. discriminate E.
  - apply later_char in E; [|exact Hd].
    cbn in E. repeat destruct E as [E|E]; try discriminate E. exact E.
Qed.

(** X19.  What was extracted from a response and is shown in the next prompt
    is extracted again from a response that repeats the block of the
    prompt, when no scratchpad tag opens before the block; it is then the
    scratchpad kept, whatever was kept before. *)
Theorem scratchpad_echo (earlier_response found before after : string)
    (current : option string) :
  extract_scratchpad_text earlier_response = Some found ->
  found <> EmptyString ->
  contains "<scratchpad>" (lower before) = false ->
  let response := before +:+ scratchpad_block (Some found) +:+ after in
  extract_scratchpad_text response = Some found
  /\ update_scratchpad current response = Some found.
Proof.
  intros Hfound Hne Hbefore. cbn zeta.
  assert (Hclean : strip found = found /\ contains "</scratchpad>" (lower found) = false).
  { unfold extract_scratchpad_text in Hfound.
    destruct earlier_response as [|c0 s0]; [discriminate|].
    destruct (search_tag _ _ _) as [group1|] eqn:S; [|discriminate].
    injection Hfound as <-.
    destruct (search_tag_some "<scratchpad>" "</scratchpad>" _ _
                ltac:(discriminate) ltac:(discriminate) S)
      as (_ & _ & _ & _ & _ & _ & _ & _ & Hg).
    split; [apply strip_idem|].
    destruct (strip_spec group1) as (b & a & Hs). rewrite Hs, !lower_app in Hg.
    apply not_contains_app in Hg as [_ Hg].
    now apply not_contains_app in Hg as [Hg _]. }
  destruct Hclean as [Hstrip Hclosing].
  assert (Hextract :
            extract_scratchpad_text (before +:+ scratchpad_block (Some found) +:+ after)
            = Some found).
  { assert (Hblock : scratchpad_block (Some found)
                     = LF +:+ LF +:+ "<scratchpad>" +:+ LF +:+ found
                       +:+ LF +:+ "</scratchpad>")
      by (destruct found; [contradiction|reflexivity]).
    rewrite Hblock.
    set (inner := LF +:+ found +:+ LF).
    assert (Htext : before +:+ (LF +:+ LF +:+ "<scratchpad>" +:+ LF +:+ found
                                +:+ LF +:+ "</scratchpad>") +:+ after
                    = (before +:+ LF +:+ LF) +:+ "<scratchpad>"
                      +:+ (inner +:+ "</scratchpad>" +:+ after)).
    { unfold inner. now rewrite !append_assoc. }
    rewrite Htext.
    rewrite extract_scratchpad_text_nonempty by (apply app_nonempty; discriminate).
    unfold search_tag.
    rewrite (opening_found (before +:+ LF +:+ LF) "<scratchpad>"
               (inner +:+ "</scratchpad>" +:+ after) eq_refl).
    2:{ rewrite !lower_app. change (lower LF) with LF. rewrite !append_assoc.
        match goal with |- ?t = false => destruct t eqn:E end; [exfalso|reflexivity].
        unfold LF at 1 in E. rewrite append_cons, append_empty in E.
        apply contains_app_cases in E as [E|[E|(d & e & Hd & E)]].
        - congruence.
        - vm_compute in E. discriminate E.
        - apply later_char in E; [|exact Hd].
          cbn in E. repeat destruct E as [E|E]; try discriminate E. exact E. }
    rewrite (closing_found inner "</scratchpad>" after eq_refl).
    2:{ unfold inner. rewrite !lower_app. change (lower LF) with LF.
        rewrite !append_assoc.
        match goal with |- ?t = false => destruct t eqn:E end; [exfalso|reflexivity].
        unfold LF at 1 in E. rewrite append_cons, append_empty in E.
        rewrite contains_cons_other in E by discriminate.
        unfold LF in E. rewrite (append_cons _ EmptyString), append_empty in E.
        apply contains_app_cases in E as [E|[E|(d & e & Hd & E)]].
        - congruence.
        - vm_compute in E. discriminate E.
        - apply later_char in E; [|exact Hd].
          cbn in E. repeat destruct E as [E|E]; try discriminate E. exact E. }
    cbn [option_map]. f_equal.
    destruct (strip_fixed _ Hstrip) as [Hl Hr].
    unfold inner, strip.
    rewrite (lstrip_app_spaces LF (found +:+ LF) eq_refl).
    assert (Hhead : lstrip (found +:+ LF) = found +:+ LF).
    { apply lstrip_fixed.
      destruct (lstrip_spec found) as (_ & _ & _ & Hfirst). rewrite Hl in Hfirst.
      destruct found as [|f0 found']; [contradiction|].
      rewrite append_cons. exact Hfirst. }
    rewrite Hhead, (rstrip_app_spaces found LF eq_refl). exact Hr. }
  split; [exact Hextract|].
  unfold update_scratchpad. rewrite Hextract.
  destruct found; [contradiction|reflexivity].
Qed.

Lemma scratchpad_echo_witness :
  extract_scratchpad_text
    ("I keep my plan." +:+ scratchpad_block (Some "go left"%string) +:+ "<keys>[]</keys>")
  = Some "go left"%string
  /\ update_scratchpad (Some "old"%string)
       ("I keep my plan." +:+ scratchpad_block (Some "go left"%string) +:+ "<keys>[]</keys>")
     = Some "go left"%string.
Proof.
  apply (scratchpad_echo "<SCRATCHPAD> go left </SCRATCHPAD>" "go left"
           "I keep my plan." "<keys>[]</keys>" (Some "old"%string)).
  - reflexivity.
  - discriminate.
  - reflexivity.
Defined.

Lemma spaces_hold_no_tag (p0 : ascii) (p' blank : string) :
  is_space p0 = false ->
  forallb is_space (list_ascii_of_string blank) = true ->
  contains (String p0 p') (lower blank) = false.
Proof.
  intros Hp0 Hblank.
  destruct (contains _ _) eqn:E; [exfalso|reflexivity].
  apply contains_spec in E as (x & y & E).
  assert (Hin : In p0 (list_ascii_of_string (lower blank))).
  { rewrite E, chars_app, append_cons. apply in_or_app. right. now left. }
  unfold lower in Hin. rewrite chars_map_chars in Hin.
  apply in_map_iff in Hin as (c & Hc & Hin).
  rewrite forallb_forall in Hblank. specialize (Hblank _ Hin).
  rewrite <- lower_char_space, Hc in Hblank. congruence.
Qed.

(** X20.  A response cannot empty the scratchpad: a scratchpad block that holds
    white space only, its tags in any case of the letters, gives the empty
    text, and the scratchpad kept so far stays; when none was kept yet, the
    whole response becomes the scratchpad. *)
Theorem scratchpad_not_cleared (kept before tag1 blank tag2 after : string) :
  lower tag1 = "<scratchpad>"%string ->
  lower tag2 = "</scratchpad>"%string ->
  forallb is_space (list_ascii_of_string blank) = true ->
  contains "<scratchpad>" (lower before) = false ->
  let response := before +:+ tag1 +:+ blank +:+ tag2 +:+ after in
  extract_scratchpad_text response = Some EmptyString
  /\ update_scratchpad (Some kept) response = Some kept
  /\ update_scratchpad None response = Some response.
Proof.
  intros Htag1 Htag2 Hblank Hbefore. cbn zeta.
  assert (Hextract :
            extract_scratchpad_text (before +:+ tag1 +:+ blank +:+ tag2 +:+ after)
            = Some EmptyString).
  { rewrite extract_scratchpad_text_nonempty.
    2:{ apply app_nonempty. intros ->. discriminate Htag1. }
    unfold search_tag.
    rewrite (opening_found before tag1 (blank +:+ tag2 +:+ after) Htag1
               (opening_guard _ Hbefore)).
    rewrite (closing_found blank tag2 after Htag2).
    2:{ match goal with |- ?t = false => destruct t eqn:E end; [exfalso|reflexivity].
        apply contains_app_cases in E as [E|[E|(d & e & Hd & E)]].
        - rewrite (spaces_hold_no_tag "<" "/scratchpad>" blank eq_refl Hblank) in E.
          discriminate E.
        - vm_compute in E. discriminate E.
        - apply later_char in E; [|exact Hd].
          cbn in E. repeat destruct E as [E|E]; try discriminate E. exact E. }
    cbn [option_map]. now rewrite (strip_spaces _ Hblank). }
  split; [exact Hextract|].
  unfold update_scratchpad. now rewrite Hextract.
Qed.

Lemma scratchpad_not_cleared_witness :
  update_scratchpad (Some "go left"%string) "ok <Scratchpad>  </scratchpad> <keys>[]</keys>"
  = Some "go left"%string.
Proof.
  apply (scratchpad_not_cleared "go left" "ok " "<Scratchpad>" "  " "</scratchpad>"
           " <keys>[]</keys>"); reflexivity.
Defined.

End ScratchpadFacts.

(** ** The bookkeeping of the game loop *)

Module GameLoopFacts.
Import Py Str Parsing Scheduler Episode Names Prompt GameLoop.

(** What holds at the start and is kept by every pass of the loop holds
    when the loop has ended. *)
Lemma loop_invariant (P : game -> Prop) (max_seconds : Z) :
  (forall o g g', P g -> successful_api_calls g < max_seconds ->
                  cycle max_seconds o g = Some g' -> P g') ->
  forall observations g, P g -> P (run_one_game_loop max_seconds observations g).
Proof.
  intros Hstep. induction observations as [|o rest IH]; intros g Hg; [exact Hg|].
  cbn [run_one_game_loop].
  destruct (Z.ltb_spec (successful_api_calls g) max_seconds) as [Hlt|_]; [|exact Hg].
  destruct (cycle max_seconds o g) as [g'|] eqn:Hc; [|exact Hg].
  apply IH. exact (Hstep o g g' Hg Hlt Hc).
Qed.

Lemma enumerate_snd {A : Type} (l : list A) : map snd (enumerate l) = l.
Proof.
  unfold enumerate. generalize 0%nat.
  induction l as [|x l IH]; intros n; [reflexivity|].
  cbn. now rewrite IH.
Qed.

Lemma enumerate_length {A : Type} (l : list A) : length (enumerate l) = length l.
Proof. unfold enumerate. rewrite length_combine, length_seq. lia. Qed.

Lemma run_segments_budget_used (o : observation) (episode step : Z)
    (segments : list (nat * list action_code)) (p : progress) :
  run_segments true o episode step segments p = p.
Proof. now destruct segments as [|[i s] rest]. Qed.

(** With budget left every segment is run: all actions are appended, and
    the frames appended carry the episode and the step of the cycle. *)
Lemma run_segments_budget_left (o : observation) (episode step : Z)
    (segments : list (nat * list action_code)) :
  forall p,
    let q := run_segments false o episode step segments p in
    executed q = executed p ++ concat (map executed_in_segment (map snd segments))
    /\ exists captured,
         frames q = frames p ++ captured
         /\ (length captured <= length segments)%nat
         /\ Forall (fun f => fe_episode f = episode /\ fe_step f = step) captured.
Proof.
  induction segments as [|[i s] rest IH]; intros p; cbn zeta.
  - cbn. rewrite !app_nil_r. split; [reflexivity|].
    exists []. rewrite app_nil_r. split; [reflexivity|]. split; [cbn; lia|constructor].
  - cbn [run_segments map snd concat].
    destruct (IH (run_one_segment o episode step i s p))
      as (Hexec & captured & Hframes & Hlen & Hkeys).
    cbn zeta in *. rewrite Hexec, Hframes. unfold run_one_segment.
    destruct (frame_captured o i); cbn [executed frames].
    + split; [now rewrite <- app_assoc|].
      eexists (_ :: captured). rewrite <- app_assoc. split; [reflexivity|].
      split; [cbn; lia|]. constructor; [now split|exact Hkeys].
    + split; [now rewrite <- app_assoc|].
      exists captured. split; [reflexivity|]. split; [cbn; lia|exact Hkeys].
Qed.

Lemma parse_actions_at_most_five (response_text : string) :
  (length (parse_actions response_text) <= 5)%nat.
Proof.
  unfold parse_actions, five_noops.
  destruct (search_keys response_text); [|now rewrite repeat_length].
  destruct (Json.loads _) as [[]|]; cbn [length]; try lia;
    try (now rewrite repeat_length).
  rewrite length_map, ParsingFacts.pad_or_truncate_length. lia.
Qed.

(** *** The budget of calls *)

Lemma budget_kept_cycle (max_seconds : Z) (o : observation) (g g' : game) :
  budget_kept max_seconds g -> successful_api_calls g < max_seconds ->
  cycle max_seconds o g = Some g' -> budget_kept max_seconds g'.
Proof.
  intros (Hlen & Hmax & Hlog) Hlt. unfold cycle.
  destruct (canvas_found o); cbn [negb]; [|intros [= <-]; now repeat split].
  destruct (generated o) as [r|]; [|discriminate].
  intros [= <-]. unfold budget_kept. cbn [gameplay_log successful_api_calls].
  split; [rewrite length_app; cbn [length]; lia|]. split; [lia|].
  intros i e Hi.
  apply lookup_app_Some in Hi as [Hi|[Hge Hi]]; [now apply Hlog|].
  destruct (i - length (gameplay_log g))%nat as [|k] eqn:Hk; [|discriminate Hi].
  injection Hi as <-. cbn [actions_executed llm_output].
  assert (Hindex : Z.of_nat i = successful_api_calls g) by lia.
  rewrite Hindex.
  destruct (Z.ltb_spec (successful_api_calls g + 1) max_seconds) as [Hleft|Hused].
  - replace (max_seconds <=? successful_api_calls g + 1) with false
      by (symmetry; apply Z.leb_gt; lia).
    match goal with
    | |- executed (run_segments false ?o ?e ?s ?segs ?p) = _ =>
        destruct (run_segments_budget_left o e s segs p) as (Hexec & _)
    end.
    cbn zeta in Hexec. rewrite Hexec, enumerate_snd. reflexivity.
  - replace (max_seconds <=? successful_api_calls g + 1) with true
      by (symmetry; apply Z.leb_le; lia).
    now rewrite run_segments_budget_used.
Qed.

(** X21.  Of [max_seconds] answers the last is never played.  The loop makes
    at most [max_seconds] calls to the model and logs one entry for each;
    the actions of an answer are executed, all of them, when the call was
    not the [max_seconds]-th, and none of them when it was: then the log
    entry has no executed action. *)
Theorem last_answer_is_not_played (max_seconds : Z) (observations : list observation) :
  let g := run_one_game_loop max_seconds observations initial in
  Z.of_nat (length (gameplay_log g)) = successful_api_calls g
  /\ successful_api_calls g <= Z.max 0 max_seconds
  /\ forall (i : nat) e,
       gameplay_log g !! i = Some e ->
       actions_executed e
       = if Z.of_nat i + 1 <? max_seconds
         then executed_actions (parse_actions (llm_output e))
         else [].
Proof.
  cbn zeta. apply (loop_invariant (budget_kept max_seconds)).
  - intros o g g'. apply budget_kept_cycle.
  - split; [reflexivity|]. split; [cbn; lia|]. intros i e Hi. discriminate Hi.
Qed.

(** *** The keys of the log *)

Lemma before_next_cycle (episode step : Z) (ended : bool) (v : locals) :
  before_cycle episode step v ->
  let v' := if ended then new_episode v else v in
  (episode, step) <> (episode_count v', step_count v')
  /\ forall history frames,
       before_cycle episode step
         {| episode_count := episode_count v'; step_count := step_count v' + 1;
            frame_history := history; last_render_frames := frames |}.
Proof.
  unfold before_cycle. intros H. destruct ended; cbn; split;
    try (intros [= -> ->]); try (intros _ _); lia.
Qed.

Lemma log_ordered_cycle (max_seconds : Z) (o : observation) (g g' : game) :
  log_ordered g -> cycle max_seconds o g = Some g' -> log_ordered g'.
Proof.
  intros (Hbefore & Hnodup). unfold cycle.
  destruct (canvas_found o); cbn [negb]; [|intros [= <-]; now split].
  destruct (generated o) as [r|]; [|discriminate].
  intros [= <-]. unfold log_ordered. cbn [gameplay_log vars].
  set (ended := game_ended o || game_ended_before_pause o).
  split.
  - apply List.Forall_app. split.
    + apply (List.Forall_impl _ (P := fun e => before_cycle (log_episode e) (log_step e) (vars g)));
        [|exact Hbefore].
      intros e He. now apply (before_next_cycle _ _ ended (vars g) He).
    + constructor; [|constructor]. cbn. unfold before_cycle. cbn. lia.
  - rewrite map_app. cbn [map].
    apply List.NoDup_app; [exact Hnodup|repeat constructor; intros []|].
    intros key Hin [<-|[]].
    apply in_map_iff in Hin as (e & Hkey & Hin).
    rewrite List.Forall_forall in Hbefore. specialize (Hbefore e Hin).
    apply (before_next_cycle _ _ ended (vars g)) in Hbefore as [Hne _].
    apply Hne. exact Hkey.
Qed.

(** X22.  No two entries of the log have the same episode and step, so that no
    step file [episode_E_step_S.json] is written twice; every entry lies
    before the cycle to come. *)
Theorem log_keys_are_distinct (max_seconds : Z) (observations : list observation) :
  let g := run_one_game_loop max_seconds observations initial in
  List.NoDup (map log_key (gameplay_log g))
  /\ Forall (fun e => before_cycle (log_episode e) (log_step e) (vars g))
       (gameplay_log g).
Proof.
  cbn zeta.
  enough (H : log_ordered (run_one_game_loop max_seconds observations initial))
    by (destruct H; now split).
  apply (loop_invariant log_ordered max_seconds).
  - intros o g g' Hg _. now apply log_ordered_cycle.
  - split; constructor.
Qed.

(** *** The token counts of the log *)

(** X23.  The cumulative token counts are never added to: the four variables
    stay 0, and every entry of the log has 0 for the cumulative input,
    output and total tokens and no cumulative reasoning tokens, whatever
    the model's answers report. *)
Theorem cumulative_tokens_stay_zero (max_seconds : Z) (observations : list observation) :
  let g := run_one_game_loop max_seconds observations initial in
  (cumulative_input_tokens g = 0 /\ cumulative_output_tokens g = 0
   /\ cumulative_total_tokens g = 0 /\ cumulative_reasoning_tokens g = 0)
  /\ Forall (fun e => log_cumulative_input_tokens e = 0
                      /\ log_cumulative_output_tokens e = 0
                      /\ log_cumulative_total_tokens e = 0
                      /\ log_cumulative_reasoning_tokens e = None)
       (gameplay_log g).
Proof.
  cbn zeta. apply (loop_invariant cumulative_counts_unused max_seconds).
  - intros o g g' Hg _. unfold cycle.
    destruct (canvas_found o); cbn [negb]; [|now intros [= <-]].
    destruct (generated o) as [r|]; [|discriminate].
    destruct Hg as ((Hi & Ho & Ht & Hr) & Hlog).
    intros [= <-]. unfold cumulative_counts_unused.
    cbn [gameplay_log cumulative_input_tokens cumulative_output_tokens
         cumulative_total_tokens cumulative_reasoning_tokens].
    split; [now repeat split|].
    apply List.Forall_app. split; [exact Hlog|].
    constructor; [|constructor].
    cbn [log_cumulative_input_tokens log_cumulative_output_tokens
         log_cumulative_total_tokens log_cumulative_reasoning_tokens].
    rewrite Hi, Ho, Ht, Hr. now repeat split.
  - split; [now repeat split|constructor].
Qed.

(** *** The frames shown in the next prompt *)

Lemma filter_cycle_frames (episode step : Z) (older captured : list frame_entry) :
  Forall (fun f => (fe_episode f, fe_step f) <> (episode, step)) older ->
  Forall (fun f => fe_episode f = episode /\ fe_step f = step) captured ->
  List.filter (fun f => (fe_step f =? step) && (fe_episode f =? episode))
    (older ++ captured)
  = captured.
Proof.
  intros Holder Hcaptured. rewrite List.filter_app.
  assert (Hnone : List.filter (fun f => (fe_step f =? step) && (fe_episode f =? episode))
                    older = []).
  { induction Holder as [|f older Hf _ IH]; [reflexivity|]. cbn [List.filter].
    destruct (Z.eqb_spec (fe_step f) step) as [Hs|_]; [|exact IH].
    destruct (Z.eqb_spec (fe_episode f) episode) as [He|_]; [|exact IH].
    exfalso. apply Hf. now rewrite Hs, He. }
  rewrite Hnone. cbn [app].
  induction Hcaptured as [|f captured [He Hs] _ IH]; [reflexivity|]. cbn [List.filter].
  rewrite He, Hs, !Z.eqb_refl. cbn [andb]. now rewrite IH.
Qed.

Lemma frames_ordered_cycle (max_seconds : Z) (o : observation) (g g' : game) :
  frames_ordered g -> cycle max_seconds o g = Some g' -> frames_ordered g'.
Proof.
  intros Hg. unfold cycle.
  destruct (canvas_found o); cbn [negb]; [|now intros [= <-]].
  destruct (generated o) as [r|]; [|discriminate].
  destruct Hg as (Hbefore & _).
  intros [= <-]. unfold frames_ordered. cbn [vars].
  set (ended := game_ended o || game_ended_before_pause o).
  set (v := if ended then new_episode (vars g) else vars g).
  assert (Hold : Forall (fun f => before_cycle (fe_episode f) (fe_step f) (vars g))
                   (frame_history v)).
  { unfold v. destruct ended; [constructor|exact Hbefore]. }
  assert (Hframes : exists captured,
             frames (run_segments (max_seconds <=? successful_api_calls g + 1) o
                       (episode_count v) (step_count v)
                       (enumerate (parse_actions (output r)))
                       {| executed := []; frames := frame_history v;
                          next_frame := frame_index g;
                          actions_count := total_actions_count g |})
             = frame_history v ++ captured
             /\ (length captured <= 5)%nat
             /\ Forall (fun f => fe_episode f = episode_count v /\ fe_step f = step_count v)
                  captured).
  { destruct (max_seconds <=? successful_api_calls g + 1).
    - rewrite run_segments_budget_used. exists []. cbn [frames].
      rewrite app_nil_r. split; [reflexivity|]. split; [cbn; lia|constructor].
    - match goal with
      | |- context [run_segments false ?o ?e ?s ?segs ?p] =>
          destruct (run_segments_budget_left o e s segs p)
            as (_ & captured & Hcap & Hlen & Hkeys)
      end.
      cbn zeta in Hcap. exists captured. split; [exact Hcap|]. split; [|exact Hkeys].
      rewrite enumerate_length in Hlen.
      pose proof (parse_actions_at_most_five (output r)). lia. }
  destruct Hframes as (captured & -> & Hlen & Hkeys).
  cbn [episode_count step_count frame_history last_render_frames].
  assert (Hdiffer : Forall (fun f => (fe_episode f, fe_step f)
                                     <> (episode_count v, step_count v))
                      (frame_history v)).
  { apply (List.Forall_impl _ (P := fun f => before_cycle (fe_episode f) (fe_step f) (vars g)));
      [|exact Hold].
    intros f Hf. exact (proj1 (before_next_cycle _ _ ended (vars g) Hf)). }
  rewrite (filter_cycle_frames _ _ _ _ Hdiffer Hkeys).
  split.
  - apply List.Forall_app. split.
    + apply (List.Forall_impl _ (P := fun f => before_cycle (fe_episode f) (fe_step f) (vars g)));
        [|exact Hold].
      intros f Hf. exact (proj2 (before_next_cycle _ _ ended (vars g) Hf) _ _).
    + apply (List.Forall_impl _ (P := fun f => fe_episode f = episode_count v
                                               /\ fe_step f = step_count v));
        [|exact Hkeys].
      intros f [He Hs]. unfold before_cycle. cbn. lia.
  - exists (frame_history v). split; [reflexivity|]. split; [exact Hlen|]. split.
    + apply (List.Forall_impl _ (P := fun f => fe_episode f = episode_count v
                                               /\ fe_step f = step_count v));
        [|exact Hkeys].
      intros f [He Hs]. split; [exact He|lia].
    + apply (List.Forall_impl _ (P := fun f => (fe_episode f, fe_step f)
                                               <> (episode_count v, step_count v)));
        [|exact Hdiffer].
      intros f Hne [He Hs]. apply Hne. f_equal; [exact He|lia].
Qed.

(** X24.  The frames shown in the next prompt are the frames of the last step
    and no others: [last_render_frames] is the end of [frame_history], has
    at most five frames, each with the episode and the step of the cycle
    just run, and no earlier frame of the history has that episode and
    step. *)
Theorem last_render_frames_are_the_last_step (max_seconds : Z)
    (observations : list observation) :
  let g := run_one_game_loop max_seconds observations initial in
  exists older,
    frame_history (vars g) = older ++ last_render_frames (vars g)
    /\ (length (last_render_frames (vars g)) <= 5)%nat
    /\ Forall (fun f => fe_episode f = episode_count (vars g)
                        /\ fe_step f = step_count (vars g) - 1)
         (last_render_frames (vars g))
    /\ Forall (fun f => ~ (fe_episode f = episode_count (vars g)
                           /\ fe_step f = step_count (vars g) - 1))
         older.
Proof.
  cbn zeta.
  enough (H : frames_ordered (run_one_game_loop max_seconds observations initial))
    by (destruct H as [_ H]; exact H).
  apply (loop_invariant frames_ordered max_seconds).
  - intros o g g' Hg _. now apply frames_ordered_cycle.
  - split; [constructor|]. exists []. cbn. repeat split; [lia|constructor|constructor].
Qed.

End GameLoopFacts.

(** ** Held keys when a release fails *)

Module HoldRelease.
Import Browser Scheduler SchedulerFacts.

Section WithPage.
Variable page : env.

(** The first [j] calls of a loop of calls succeed and the next raises:
    the loop raises after the events of the first [j] keys. *)
Lemma for_each_call_raises (f : string -> event) (keys : list string) :
  forall (j : nat) (w : world),
    (j < length keys)%nat ->
    (forall i, (i < j)%nat -> raises page (calls w + i) = false) ->
    raises page (calls w + j) = true ->
    for_each keys (fun k => call page [f k]) w
    = (None, World (trace w ++ map f (firstn j keys)) (clock w) (calls w + S j)).
Proof.
  induction keys as [|k keys IH]; intros j w Hj Hok Hraise; [cbn in Hj; lia|].
  cbn [for_each]. rewrite bind_run. unfold call at 1.
  destruct j as [|j].
  - rewrite Nat.add_0_r in Hraise. rewrite Hraise. cbn [firstn map].
    rewrite app_nil_r. do 2 f_equal. lia.
  - assert (H0 : raises page (calls w) = false)
      by (rewrite <- (Nat.add_0_r (calls w)); apply Hok; lia).
    rewrite H0.
    rewrite (IH j); cbn [trace clock calls].
    + cbn [firstn map]. rewrite <- app_assoc. do 2 f_equal. lia.
    + cbn in Hj. lia.
    + intros i Hi. replace (S (calls w) + i)%nat with (calls w + S i)%nat by lia.
      apply Hok. lia.
    + replace (S (calls w) + j)%nat with (calls w + S j)%nat by lia. exact Hraise.
Qed.

(** No call of a loop of calls raises: the loop returns after the events
    of all keys. *)
Lemma for_each_call_returns (f : string -> event) (keys : list string) :
  forall (w : world),
    (forall i, (i < length keys)%nat -> raises page (calls w + i) = false) ->
    for_each keys (fun k => call page [f k]) w
    = (Some tt, World (trace w ++ map f keys) (clock w) (calls w + length keys)).
Proof.
  induction keys as [|k keys IH]; intros w Hok.
  - cbn. rewrite app_nil_r, Nat.add_0_r. now destruct w.
  - cbn [for_each]. rewrite bind_run. unfold call at 1.
    assert (H0 : raises page (calls w) = false)
      by (rewrite <- (Nat.add_0_r (calls w)); apply Hok; cbn; lia).
    rewrite H0.
    rewrite IH; cbn [trace clock calls].
    + cbn [map length]. rewrite <- app_assoc. do 2 f_equal. lia.
    + intros i Hi. replace (S (calls w) + i)%nat with (calls w + S i)%nat by lia.
      apply Hok. cbn. lia.
Qed.

(** X25.  A failed release leaves keys down.  When the click, the key-downs and
    the first [j] key-ups of [execute_hold_actions_playwright] succeed and
    the next [page.keyboard.up] raises, the function returns as if nothing
    had happened, and the events it leaves are the click, the key-down of
    every key, the wait and the key-up of the first [j] keys only: the
    other keys are never released. *)
Theorem failed_release_leaves_keys_down (key_codes : list Z) (duration : Z)
    (w : world) (j : nat) :
  let keys := hold_keys key_codes in
  (j < length keys)%nat ->
  (forall i, (i <= length keys + j)%nat -> raises page (calls w + i) = false) ->
  raises page (calls w + S (length keys + j)) = true ->
  execute_hold_actions_playwright page key_codes duration w
  = (Some tt,
     World (trace w ++ Click :: map KeyDown keys ++ Sleep duration
                       :: map KeyUp (firstn j keys))
       (clock w + duration) (calls w + S (S (length keys + j)))).
Proof.
  cbn zeta. intros Hj Hok Hraise.
  unfold execute_hold_actions_playwright.
  destruct key_codes as [|c cs]; [cbn in Hj; lia|].
  set (keys := hold_keys (c :: cs)) in *. clearbody keys.
  unfold try_except. rewrite bind_run. unfold call at 1.
  assert (H0 : raises page (calls w) = false)
    by (rewrite <- (Nat.add_0_r (calls w)); apply Hok; lia).
  rewrite H0.
  destruct keys as [|k ks]; [cbn in Hj; lia|].
  rewrite bind_run.
  rewrite (for_each_call_returns KeyDown (k :: ks)); cbn [trace clock calls].
  2:{ intros i Hi. replace (S (calls w) + i)%nat with (calls w + S i)%nat by lia.
      apply Hok. lia. }
  rewrite bind_run. unfold sleep at 1. cbn [trace clock calls].
  rewrite (for_each_call_raises KeyUp (k :: ks) j); cbn [trace clock calls snd].
  - rewrite <- !app_assoc. cbn [app].
    replace (S (calls w) + length (k :: ks) + S j)%nat
      with (calls w + S (S (length (k :: ks) + j)))%nat by lia.
    reflexivity.
  - exact Hj.
  - intros i Hi.
    replace (S (calls w) + length (k :: ks) + i)%nat
      with (calls w + (S (length (k :: ks)) + i))%nat by lia.
    apply Hok. lia.
  - replace (S (calls w) + length (k :: ks) + j)%nat
      with (calls w + S (length (k :: ks) + j))%nat by lia.
    exact Hraise.
Qed.

End WithPage.

Lemma failed_release_leaves_keys_down_witness :
  execute_hold_actions_playwright
    (Env (fun n => Nat.eqb n 4) (fun _ => false)) [37; 32] 200 start
  = (Some tt,
     World [Click; KeyDown "ArrowLeft"; KeyDown " "; Sleep 200; KeyUp "ArrowLeft"]
       200 5).
Proof.
  apply (failed_release_leaves_keys_down
           (Env (fun n => Nat.eqb n 4) (fun _ => false)) [37; 32] 200 start 1).
  - cbn. lia.
  - intros i Hi. cbn in Hi. cbn. destruct i as [|[|[|[|i]]]]; try reflexivity. lia.
  - reflexivity.
Defined.

End HoldRelease.

(** ** The time a restart takes *)

Module TimingFacts.
Import Browser Scheduler SchedulerFacts Timing.

Section WithPage.
Variable page : env.

Lemma call_sleeps_nothing (emitted : list event) :
  slept emitted = 0 -> sleeps_at_most 0 (call page emitted).
Proof.
  intros H w. unfold call. destruct (raises page (calls w)); cbn [snd trace clock].
  - exists []. rewrite app_nil_r. cbn. repeat split; lia.
  - exists emitted. repeat split; lia.
Qed.

Lemma sleep_sleeps (ms : Z) : 0 <= ms -> sleeps_between ms ms (sleep ms).
Proof.
  intros H w. split; [now eexists|]. exists [Sleep ms].
  cbn. repeat split; lia.
Qed.

Lemma ret_sleeps_nothing {A : Type} (a : A) : sleeps_between 0 0 (mret a : io A).
Proof.
  intros w. split; [now eexists|]. exists []. cbn. rewrite app_nil_r.
  repeat split; lia.
Qed.

Lemma between_at_most {A : Type} (lo hi : Z) (m : io A) :
  0 <= lo -> sleeps_between lo hi m -> sleeps_at_most hi m.
Proof.
  intros Hlo H w. destruct (H w) as (_ & evs & T & C & B).
  exists evs. repeat split; try assumption; lia.
Qed.

Lemma between_weaken {A : Type} (lo hi lo' hi' : Z) (m : io A) :
  lo' <= lo -> hi <= hi' -> sleeps_between lo hi m -> sleeps_between lo' hi' m.
Proof.
  intros Hlo Hhi H w. destruct (H w) as (R & evs & T & C & B).
  split; [exact R|]. exists evs. repeat split; try assumption; lia.
Qed.

Lemma at_most_bind {A B : Type} (h1 h2 : Z) (m : io A) (k : A -> io B) :
  0 <= h2 -> sleeps_at_most h1 m -> (forall a, sleeps_at_most h2 (k a)) ->
  sleeps_at_most (h1 + h2) (m ≫= k).
Proof.
  intros Hh2 Hm Hk w. rewrite bind_run.
  destruct (Hm w) as (evs1 & T1 & C1 & B1).
  destruct (m w) as [[a|] w1]; cbn [snd] in *.
  - destruct (Hk a w1) as (evs2 & T2 & C2 & B2).
    exists (evs1 ++ evs2). rewrite T2, T1, C2, C1, slept_app, <- app_assoc.
    repeat split; lia.
  - exists evs1. repeat split; try assumption; lia.
Qed.

Lemma between_bind {A B : Type} (l1 h1 l2 h2 : Z) (m : io A) (k : A -> io B) :
  sleeps_between l1 h1 m -> (forall a, sleeps_between l2 h2 (k a)) ->
  sleeps_between (l1 + l2) (h1 + h2) (m ≫= k).
Proof.
  intros Hm Hk w. rewrite bind_run.
  destruct (Hm w) as ([a Ha] & evs1 & T1 & C1 & B1).
  destruct (m w) as [[a'|] w1]; cbn [fst snd] in *; [|discriminate Ha].
  destruct (Hk a' w1) as (R & evs2 & T2 & C2 & B2).
  split; [exact R|].
  exists (evs1 ++ evs2). rewrite T2, T1, C2, C1, slept_app, <- app_assoc.
  repeat split; lia.
Qed.

Lemma try_except_sleeps (hi : Z) (body : io unit) :
  sleeps_at_most hi body -> sleeps_between 0 hi (try_except body).
Proof.
  intros H w. split; [now eexists|]. unfold try_except. cbn [snd]. exact (H w).
Qed.

Lemma try_except_with_sleeps (lo hi : Z) (body handler : io unit) :
  sleeps_between lo hi body -> sleeps_between lo hi (try_except_with body handler).
Proof.
  intros H w. destruct (H w) as ([a Ha] & Hevs). unfold try_except_with.
  destruct (body w) as [[[]|] w1]; cbn [fst snd] in *; [|discriminate Ha].
  split; [now eexists|exact Hevs].
Qed.

Lemma check_game_ended_sleeps_nothing : sleeps_between 0 0 (check_game_ended page).
Proof.
  intros w. unfold check_game_ended, evaluate_ended.
  destruct (raises page (calls w)); cbn [fst snd trace clock];
    (split; [now eexists|]); exists []; rewrite app_nil_r; cbn; repeat split; lia.
Qed.

Lemma execute_action_playwright_sleeps (code : Z) :
  sleeps_between 0 50 (execute_action_playwright page (Some code)).
Proof.
  unfold execute_action_playwright. apply try_except_sleeps.
  change 50 with (0 + (50 + 0)).
  apply at_most_bind; [lia|now apply call_sleeps_nothing|]. intros _.
  apply at_most_bind; [lia|apply (between_at_most 50); [lia|apply sleep_sleeps; lia]|].
  intros _. destruct (KEY_CODE_TO_PLAYWRIGHT_KEY code).
  - now apply call_sleeps_nothing.
  - apply (between_at_most 0); [lia|apply ret_sleeps_nothing].
Qed.

(** X26.  [restart_game] always returns, whatever calls of the browser raise,
    and the time it sleeps lies between 1.2 s (the waits between the
    attempts, which no failure skips) and 2.3 s (when every attempt runs to
    its end and the game still reads as ended). *)
Theorem restart_game_takes (w : world) :
  fst (restart_game page w) = Some tt
  /\ exists evs,
       trace (exec (restart_game page) w) = trace w ++ evs
       /\ clock (exec (restart_game page) w) = clock w + slept evs
       /\ 1200 <= slept evs <= 2300.
Proof.
  assert (H : sleeps_between 1200 2300 (restart_game page)).
  { unfold restart_game. apply try_except_with_sleeps.
    change 1200 with (0 + (300 + (0 + (400 + (0 + (0 + (500 + (0 + 0)))))))).
    change 2300 with (150 + (300 + (0 + (400 + (50 + (0 + (500 + (0 + 900)))))))).
    apply between_bind.
    { apply try_except_sleeps. change 150 with (0 + (150 + 0)).
      apply at_most_bind; [lia|now apply call_sleeps_nothing|]. intros _.
      apply at_most_bind; [lia|apply (between_at_most 150); [lia|apply sleep_sleeps; lia]|].
      intros _. now apply call_sleeps_nothing. }
    intros _. apply between_bind; [apply sleep_sleeps; lia|]. intros _.
    apply between_bind; [apply try_except_sleeps; now apply call_sleeps_nothing|].
    intros _. apply between_bind; [apply sleep_sleeps; lia|]. intros _.
    apply between_bind;
      [apply try_except_sleeps, (between_at_most 0);
       [lia|apply execute_action_playwright_sleeps]|].
    intros _.
    apply between_bind; [apply try_except_sleeps; now apply call_sleeps_nothing|].
    intros _. apply between_bind; [apply sleep_sleeps; lia|]. intros _.
    apply between_bind; [apply check_game_ended_sleeps_nothing|].
    intros [|].
    - apply try_except_sleeps.
      change 900 with (0 + (100 + (0 + (50 + (0 + (300 + (0 + (50 + (0 + 400))))))))).
      repeat first
        [ apply at_most_bind; [lia| |intros _]
        | now apply call_sleeps_nothing
        | apply (between_at_most 100); [lia|apply sleep_sleeps; lia]
        | apply (between_at_most 50); [lia|apply sleep_sleeps; lia]
        | apply (between_at_most 300); [lia|apply sleep_sleeps; lia]
        | apply (between_at_most 400); [lia|apply sleep_sleeps; lia] ].
    - apply (between_weaken 0 0); [lia|lia|apply ret_sleeps_nothing]. }
  destruct (H w) as ([[] Hret] & Hevs). split; [exact Hret|exact Hevs].
Qed.

End WithPage.

End TimingFacts.

(** ** What is known of a model *)

Module ModelInfoFacts.
Import Py ModelInfo.

(** What [MODEL_INFO] says of each of its models. *)
Lemma model_info_items :
  forallb (fun item : string * model_info =>
             let info := snd item in
             (String.eqb (type info) "local" || String.eqb (type info) "api")
             && negb (String.eqb (type info) "local" && String.eqb (type info) "api")
             && Bool.eqb (match provider info with Some _ => true | None => false end)
                  (String.eqb (type info) "api")
             && Bool.eqb (match thinking_format info with Some _ => true | None => false end)
                  (supports_thinking_flag info)
             && match recommended_device info with
                | Some device => String.eqb device "cuda"
                | None => true
                end)
    MODEL_INFO = true.
Proof. vm_compute. reflexivity. Qed.

(** X27.  The functions of [model_utils.py] agree with one another on every
    model name.  A name is valid exactly when the model is local or an API
    model, and it is never both; it has a provider exactly when it is an
    API model, and a thinking format exactly when it supports thinking;
    a name that is not valid supports no thinking; and the recommended
    device is [cuda] for every name, the API models included. *)
Theorem model_info_consistent (model_name : string) :
  validate_model_name model_name = is_local_model model_name || is_api_model model_name
  /\ is_local_model model_name && is_api_model model_name = false
  /\ (is_Some (get_model_provider model_name) <-> is_api_model model_name = true)
  /\ (is_Some (get_thinking_format model_name) <-> supports_thinking model_name = true)
  /\ (supports_thinking model_name = true -> validate_model_name model_name = true)
  /\ get_recommended_device model_name = "cuda"%string.
Proof.
  unfold validate_model_name, is_local_model, is_api_model, get_model_provider,
    get_thinking_format, supports_thinking, get_recommended_device, get_model_info.
  destruct (dict_get MODEL_INFO model_name) as [info|] eqn:Hget.
  - pose proof model_info_items as Hall. rewrite forallb_forall in Hall.
    specialize (Hall _ (NamesFacts.dict_get_in _ _ _ Hget)). cbn [snd] in Hall.
    cbv zeta in Hall.
    apply andb_prop in Hall as [Hall Hdevice].
    apply andb_prop in Hall as [Hall Hformat].
    apply andb_prop in Hall as [Hall Hprovider].
    apply andb_prop in Hall as [Hkind Hboth].
    apply Bool.eqb_prop in Hformat, Hprovider.
    apply negb_true_iff in Hboth.
    split; [now rewrite Hkind|]. split; [exact Hboth|].
    split; [|split; [|split; [reflexivity|]]].
    + rewrite <- Hprovider. destruct (provider info); split;
        intros H; try reflexivity; try discriminate; try (now eexists).
      now destruct H.
    + rewrite <- Hformat. destruct (thinking_format info); split;
        intros H; try reflexivity; try discriminate; try (now eexists).
      now destruct H.
    + destruct (recommended_device info) as [device|]; [|reflexivity].
      now apply String.eqb_eq in Hdevice.
  - cbn. repeat split; try discriminate; try reflexivity;
      intros [x Hx]; discriminate Hx.
Qed.

End ModelInfoFacts.

(** ** The default generation parameters *)

Module ConfigFacts.
Import Py Str Json Config.

Lemma default_max_tokens (model_name : string) :
  max_tokens (get_model_defaults model_name) = 512
  \/ max_tokens (get_model_defaults model_name) = 1024
  \/ max_tokens (get_model_defaults model_name) = 2048.
Proof.
  unfold get_model_defaults.
  repeat match goal with
         | |- context [if ?b then _ else _] => destruct b
         end; cbn; auto.
Qed.

(** X28.  The defaults of a model name.  [do_sample] is always on and
    [max_tokens] is 512, 1024 or 2048.  A name with [llama] gets the Llama
    defaults and a name with [qwen] gets 512 tokens, whatever else the name
    says: the TogetherAI defaults for Qwen3 and Maverick names, with 2048
    tokens, are never chosen, and 2048 tokens are the default of [glm] and
    [grok] names only. *)
Theorem get_model_defaults_spec (model_name : string) :
  let d := get_model_defaults model_name in
  let name := lower model_name in
  do_sample d = true
  /\ (max_tokens d = 512 \/ max_tokens d = 1024 \/ max_tokens d = 2048)
  /\ (contains "llama" name = true ->
      d = {| temperature := tenths 6; top_p := tenths 9; max_tokens := 512;
             do_sample := true |})
  /\ (contains "qwen" name = true -> max_tokens d = 512)
  /\ (max_tokens d = 2048 ->
      (contains "glm" name = true \/ contains "grok" name = true)
      /\ contains "llama" name = false /\ contains "qwen" name = false
      /\ contains "deepseek" name = false /\ contains "gpt" name = false
      /\ contains "claude" name = false /\ contains "gemini" name = false).
Proof.
  cbn zeta. split; [|split; [apply default_max_tokens|]].
  - unfold get_model_defaults.
    repeat match goal with
           | |- context [if ?b then _ else _] => destruct b
           end; reflexivity.
  - unfold get_model_defaults.
    destruct (contains "llama" (lower model_name)) eqn:Hllama.
    { split; [reflexivity|]. split; [reflexivity|]. cbn. discriminate. }
    split; [discriminate|].
    destruct (contains "qwen" (lower model_name)) eqn:Hqwen.
    { split; [reflexivity|]. cbn. discriminate. }
    split; [discriminate|].
    destruct (contains "deepseek" (lower model_name)); [cbn; discriminate|].
    destruct (contains "gpt" (lower model_name)); [cbn; discriminate|].
    destruct (contains "claude" (lower model_name)); [cbn; discriminate|].
    destruct (contains "gemini" (lower model_name)); [cbn; discriminate|].
    cbn [andb].
    destruct (contains "glm" (lower model_name)); [intros _; now auto 10|].
    destruct (contains "grok" (lower model_name)); [intros _; now auto 10|].
    cbn. discriminate.
Qed.

Lemma get_model_defaults_spec_witness :
  max_tokens (get_model_defaults "Qwen/Qwen3-235B") = 512
  /\ get_model_defaults "meta-llama/Llama-4-Maverick"
     = {| temperature := tenths 6; top_p := tenths 9; max_tokens := 512;
          do_sample := true |}.
Proof.
  split.
  - apply (get_model_defaults_spec "Qwen/Qwen3-235B"). reflexivity.
  - apply (get_model_defaults_spec "meta-llama/Llama-4-Maverick"). reflexivity.
Defined.

End ConfigFacts.

(** ** The request to the Anthropic API *)

Module AnthropicFacts.
Import Py Str Json ModelInfo Config Anthropic.

(** X29.  The max_tokens sent is the caller's when it is an int of 1 or more,
    else the default of the model, and so always 1 at least.  The request
    has [reasoning_effort], and it is [medium], exactly when thinking was
    asked for and [MODEL_INFO] says the model supports it; it then has
    neither temperature nor top_p; and it never has both of them.  An
    empty system prompt is not sent. *)
Theorem anthropic_request_params (model_name : string) (enable_thinking : bool)
    (system_prompt : option string) (temperature top_p : option pyfloat)
    (max_tokens : option value) :
  let p := build_api_params model_name enable_thinking system_prompt
             temperature top_p max_tokens in
  1 <= api_max_tokens p
  /\ (forall n, max_tokens = Some (JInt n) -> 1 <= n -> api_max_tokens p = n)
  /\ (max_tokens = None
      \/ (exists v, max_tokens = Some v /\ validated_max_tokens v = None) ->
      api_max_tokens p = Config.max_tokens (get_model_defaults model_name))
  /\ (api_reasoning_effort p = Some "medium"%string
      <-> enable_thinking = true /\ supports_thinking model_name = true)
  /\ (api_reasoning_effort p = None
      <-> ~ (enable_thinking = true /\ supports_thinking model_name = true))
  /\ (api_reasoning_effort p <> None ->
      api_temperature p = None /\ api_top_p p = None)
  /\ ~ (is_Some (api_temperature p) /\ is_Some (api_top_p p))
  /\ api_system p <> Some EmptyString.
Proof.
  cbn zeta.
  assert (Hmax : 1 <= match max_tokens with
                      | None => Config.max_tokens (get_model_defaults model_name)
                      | Some v =>
                          match validated_max_tokens v with
                          | Some n => n
                          | None => Config.max_tokens (get_model_defaults model_name)
                          end
                      end).
  { pose proof (ConfigFacts.default_max_tokens model_name) as Hd.
    destruct max_tokens as [v|]; [|lia].
    destruct (validated_max_tokens v) as [n|] eqn:Hv; [|lia].
    destruct v as [|[|]|k| | | |]; cbn in Hv; try discriminate Hv.
    - injection Hv as <-. lia.
    - destruct (Z.ltb_spec k 1); [discriminate Hv|]. injection Hv as <-. lia. }
  assert (Hsystem : match system_prompt with
                    | Some (String c s) => Some (String c s)
                    | _ => None
                    end <> Some EmptyString)
    by (destruct system_prompt as [[|c s]|]; discriminate).
  unfold build_api_params, enable_thinking_of.
  destruct enable_thinking, (supports_thinking model_name); cbn [andb negb];
    try destruct temperature as [t|]; cbn [api_max_tokens api_system
      api_reasoning_effort api_temperature api_top_p];
    (split; [exact Hmax|]);
    (split; [intros n -> Hn; cbn;
             destruct (Z.ltb_spec n 1); [lia|reflexivity]|]);
    (split; [intros [->|(v & -> & ->)]; reflexivity|]);
    (split; [split; [try discriminate; now split
                    |intros [H1 H2]; first [reflexivity|discriminate]]|]);
    (split; [split; [try discriminate; intros _ [H1 H2]; discriminate
                    |intros H; first [reflexivity|exfalso; apply H; now split]]|]);
    (split; [intros H; first [now split|contradiction]|]);
    (split; [intros [[x Hx] [y Hy]]; discriminate|exact Hsystem]).
Qed.

Section WithFiles.
Variable encode_file : string -> option string.

Lemma process_message_content_not_empty (content : string + list part) :
  _process_message_content encode_file content <> [].
Proof.
  unfold _process_message_content. destruct content as [text|parts]; [discriminate|].
  destruct (concat _); discriminate.
Qed.

(** The loop over the messages: the messages that are not system
    messages are appended, each with its blocks, and the system prompt
    extracted is that of the last system message. *)
Lemma fold_read_message (messages : list message) :
  forall (acc : list (string * list block)) (extracted : option string),
    fold_left (read_message encode_file) messages (acc, extracted)
    = (acc ++ map (fun msg => (message_role msg,
                               _process_message_content encode_file (message_content msg)))
                (List.filter (fun msg => negb (is_system msg)) messages),
       match map (fun msg => system_text (message_content msg))
               (List.filter is_system messages) with
       | [] => extracted
       | texts => Some (List.last texts EmptyString)
       end).
Proof.
  induction messages as [|msg rest IH]; intros acc extracted.
  - cbn. now rewrite app_nil_r.
  - cbn [fold_left List.filter].
    assert (Hstep : read_message encode_file (acc, extracted) msg
                    = if is_system msg
                      then (acc, Some (system_text (message_content msg)))
                      else (acc ++ [(message_role msg,
                                     _process_message_content encode_file
                                       (message_content msg))],
                            extracted)).
    { unfold read_message, is_system.
      destruct (String.eqb (message_role msg) "system"); [reflexivity|].
      pose proof (process_message_content_not_empty (message_content msg)) as Hne.
      cbn [fst snd].
      now destruct (_process_message_content encode_file (message_content msg)). }
    rewrite Hstep. destruct (is_system msg); cbn [negb]; rewrite IH.
    + cbn [map]. f_equal.
      now destruct (map _ (List.filter is_system rest)) as [|t texts].
    + cbn [map]. rewrite <- app_assoc. reflexivity.
Qed.

(** X30.  Every message that is not a system message is sent, in order, under
    its role and with a content that is never empty; system messages are
    not sent; the system prompt sent is the text of the last system
    message when that is not empty, else the [system_prompt] given. *)
Theorem anthropic_messages_spec (messages : list message) (system_prompt : option string) :
  let sent := read_messages encode_file messages system_prompt in
  fst sent
  = map (fun msg => (message_role msg,
                     _process_message_content encode_file (message_content msg)))
      (List.filter (fun msg => negb (is_system msg)) messages)
  /\ Forall (fun m => fst m <> "system"%string /\ snd m <> []) (fst sent)
  /\ snd sent
     = match map (fun msg => system_text (message_content msg))
               (List.filter is_system messages) with
       | [] => system_prompt
       | texts =>
           match List.last texts EmptyString with
           | EmptyString => system_prompt
           | text => Some text
           end
       end.
Proof.
  cbn zeta. unfold read_messages. rewrite fold_read_message. cbn [app fst snd].
  split; [reflexivity|]. split.
  - apply List.Forall_forall. intros m Hin.
    apply in_map_iff in Hin as (msg & <- & Hin).
    apply filter_In in Hin as [_ Hrole]. cbn [fst snd]. split.
    + unfold is_system in Hrole. apply negb_true_iff in Hrole.
      now apply String.eqb_neq in Hrole.
    + apply process_message_content_not_empty.
  - destruct (map _ (List.filter is_system messages)) as [|t texts].
    + now destruct system_prompt as [[|c s]|].
    + now destruct (List.last (t :: texts) EmptyString).
Qed.

End WithFiles.

End AnthropicFacts.
